(** * ResizeIt: the preview compositor and the output-set manager of [App.tsx]

    The preview effect of [App.tsx] computes, inside [img.onload], the
    destination rectangle handed to [ctx.drawImage]; the three handlers
    [updateOutput], [addOutput] and [removeOutput] edit the list of requested
    outputs and the index of the previewed one.

    JavaScript numbers are IEEE 754 binary64 values.  They are modelled by the
    Standard Library's executable specification [spec_float] at precision 53
    and maximal exponent 1024, so [/], [*] and [-] round exactly as the
    browser does.  Real numbers are used in proofs only, to speak about the
    value a float denotes.

    The file has three parts: the definitions (numbers, the compositor, the
    output-set manager); the lemmas on rounding that the compositor needs
    (a result of [/] or [*] is never separated from the exact value by a
    representable number); and the properties of the compositor and of the
    handlers. *)

From Stdlib Require Import ZArith Bool List Lia.
From Stdlib Require Import SpecFloat PrimFloat.
From Stdlib Require FloatOps.
From Stdlib Require String Ascii.
From Stdlib Require QArith Qround Qfield.
From Stdlib Require Import Reals Lra.
Import ListNotations.

Local Open Scope Z_scope.

(** ** JavaScript numbers *)

Definition prec : Z := 53.
Definition emax : Z := 1024.

Definition number : Type := spec_float.

(** An integer literal, or an integer-valued DOM attribute such as [img.width],
    as a number. *)
Definition num_of_Z (n : Z) : number := binary_normalize prec emax n 0 false.

(** [a / b], [a * b], [a - b] and [a > b] on numbers. *)
Definition num_div (a b : number) : number := SFdiv prec emax a b.
Definition num_mul (a b : number) : number := SFmul prec emax a b.
Definition num_sub (a b : number) : number := SFsub prec emax a b.
Definition num_gt (a b : number) : bool := SFltb b a.
Definition num_eq (a b : number) : bool := SFeqb a b.

(** [Math.floor] and [Math.ceil]: zeros, infinities and NaN are returned as
    they are; a finite [±m·2^e] is sent to the integer below (above) it, and a
    result of zero keeps the sign of the argument. *)
Definition Math_floor (x : number) : number :=
  match x with
  | S754_finite s m e =>
      binary_normalize prec emax (Z.shiftl (cond_Zopp s (Zpos m)) e) 0 s
  | _ => x
  end.

Definition Math_ceil (x : number) : number :=
  match x with
  | S754_finite s m e =>
      binary_normalize prec emax
        (Z.opp (Z.shiftl (cond_Zopp (negb s) (Zpos m)) e)) 0 s
  | _ => x
  end.

(** [Math.max] and [Math.min] of two numbers: NaN if either is NaN, and
    [+0] counts as larger than [-0]. *)
Definition Math_max (a b : number) : number :=
  match a, b with
  | S754_nan, _ | _, S754_nan => S754_nan
  | S754_zero sa, S754_zero sb => S754_zero (sa && sb)
  | _, _ => if SFltb a b then b else a
  end.

Definition Math_min (a b : number) : number :=
  match a, b with
  | S754_nan, _ | _, S754_nan => S754_nan
  | S754_zero sa, S754_zero sb => S754_zero (sa || sb)
  | _, _ => if SFltb b a then b else a
  end.

(** ** The compositor: [img.onload] of the preview effect *)

Inductive FitMode := cover | contain.

(** The destination rectangle of the [ctx.drawImage] call: the image is drawn
    with its top-left corner at [(dx, dy)] and size [drawW] x [drawH]. *)
Record Geometry := mkGeometry {
  drawW : number;
  drawH : number;
  dx : number;
  dy : number
}.

Definition zero : number := S754_zero false.
Definition two : number := num_of_Z 2.

(** The body of [img.onload] after the canvas has been sized and cleared.
    [targetW] and [targetH] are the clamped canvas dimensions, [srcW] and
    [srcH] are [img.width] and [img.height]. *)
Definition compose (srcW srcH targetW targetH : number)
    (maintainAspect : bool) (fit : FitMode) : Geometry :=
  if negb maintainAspect then
    (* Stretch *)
    mkGeometry targetW targetH zero zero
  else
    let srcAR := num_div srcW srcH in
    let dstAR := num_div targetW targetH in
    match fit with
    | cover =>
        if num_gt srcAR dstAR then
          let drawH := targetH in
          let drawW := Math_ceil (num_mul targetH srcAR) in
          let dx := Math_floor (num_div (num_sub targetW drawW) two) in
          let dy := zero in
          mkGeometry drawW drawH dx dy
        else
          let drawW := targetW in
          let drawH := Math_ceil (num_div targetW srcAR) in
          let dx := zero in
          let dy := Math_floor (num_div (num_sub targetH drawH) two) in
          mkGeometry drawW drawH dx dy
    | contain =>
        if num_gt srcAR dstAR then
          let drawW := targetW in
          let drawH := Math_floor (num_div targetW srcAR) in
          let dx := zero in
          let dy := Math_floor (num_div (num_sub targetH drawH) two) in
          mkGeometry drawW drawH dx dy
        else
          let drawH := targetH in
          let drawW := Math_floor (num_mul targetH srcAR) in
          let dx := Math_floor (num_div (num_sub targetW drawW) two) in
          let dy := zero in
          mkGeometry drawW drawH dx dy
    end.

(** The same call on integer dimensions. *)
Definition composeZ (srcW srcH targetW targetH : Z)
    (maintainAspect : bool) (fit : FitMode) : Geometry :=
  compose (num_of_Z srcW) (num_of_Z srcH) (num_of_Z targetW) (num_of_Z targetH)
    maintainAspect fit.

Definition geometryZ (w h x y : Z) : Geometry :=
  mkGeometry (num_of_Z w) (num_of_Z h) (num_of_Z x) (num_of_Z y).

(** [Math.max(1, Math.min(8000, Math.floor(v)))]: how [img.onload] turns
    [spec.width] and [spec.height] into [targetW] and [targetH]. *)
Definition clamp_dimension (v : number) : number :=
  Math_max (num_of_Z 1) (Math_min (num_of_Z 8000) (Math_floor v)).

(** [img.onload] from the requested size on: the canvas is sized to the
    clamped dimensions and the image drawn at the composed geometry. *)
Definition onload (spec_width spec_height srcW srcH : number)
    (maintainAspect : bool) (fit : FitMode) : Geometry :=
  let targetW := clamp_dimension spec_width in
  let targetH := clamp_dimension spec_height in
  compose srcW srcH targetW targetH maintainAspect fit.

(** ** The branch formulas of the specification, in exact arithmetic

    The specification gives the geometry by formulas on [srcAspect =
    source.width / source.height] and [dstAspect = target.width /
    target.height].  Here they are evaluated as written over the rationals,
    with no rounding before [ceil] and [floor]: this is the geometry the code
    is compared with. *)

Section BranchFormulas.

Import QArith_base Qround.

(** [a > b] on rationals. *)
Definition Q_gt (a b : Q) : bool := negb (Qle_bool a b).

Definition cover_formulas (srcAspect dstAspect : Q)
    (target_width target_height : Z) : Geometry :=
  if Q_gt srcAspect dstAspect then
    let drawHeight := target_height in
    let drawWidth := Qceiling (inject_Z target_height * srcAspect) in
    let offsetX :=
      Qfloor ((inject_Z target_width - inject_Z drawWidth) / inject_Z 2) in
    let offsetY := 0%Z in
    geometryZ drawWidth drawHeight offsetX offsetY
  else
    let drawWidth := target_width in
    let drawHeight := Qceiling (inject_Z target_width / srcAspect) in
    let offsetY :=
      Qfloor ((inject_Z target_height - inject_Z drawHeight) / inject_Z 2) in
    let offsetX := 0%Z in
    geometryZ drawWidth drawHeight offsetX offsetY.

Definition contain_formulas (srcAspect dstAspect : Q)
    (target_width target_height : Z) : Geometry :=
  if Q_gt srcAspect dstAspect then
    let drawWidth := target_width in
    let drawHeight := Qfloor (inject_Z target_width / srcAspect) in
    let offsetY :=
      Qfloor ((inject_Z target_height - inject_Z drawHeight) / inject_Z 2) in
    let offsetX := 0%Z in
    geometryZ drawWidth drawHeight offsetX offsetY
  else
    let drawHeight := target_height in
    let drawWidth := Qfloor (inject_Z target_height * srcAspect) in
    let offsetX :=
      Qfloor ((inject_Z target_width - inject_Z drawWidth) / inject_Z 2) in
    let offsetY := 0%Z in
    geometryZ drawWidth drawHeight offsetX offsetY.

Definition branch_formulas
    (source_width source_height target_width target_height : Z)
    (policy : FitMode) : Geometry :=
  let srcAspect := (inject_Z source_width / inject_Z source_height)%Q in
  let dstAspect := (inject_Z target_width / inject_Z target_height)%Q in
  match policy with
  | cover => cover_formulas srcAspect dstAspect target_width target_height
  | contain => contain_formulas srcAspect dstAspect target_width target_height
  end.

End BranchFormulas.

(** [ceil(a / b)] on integers, for a positive [b]. *)
Definition ceil_div (a b : Z) : Z := - ((- a) / b).

(** Whether the exact value of the scaled side is a whole number: the side is
    [target.height * srcAspect] in the else branch of [contain] and the first
    branch of [cover], and [target.width / srcAspect] in the other two. *)
Definition scaled_side_whole (srcW srcH targetW targetH : Z) (fit : FitMode)
    : bool :=
  let wider := targetW * srcH <? srcW * targetH in
  match fit, wider with
  | cover, true | contain, false => (targetH * srcW) mod srcH =? 0
  | cover, false | contain, true => (targetW * srcH) mod srcW =? 0
  end.

(** ** The output-set manager: [outputs], [previewIndex] and their handlers *)

Inductive OutputFormat := png | jpeg | webp.

Record OutputSpec := mkOutputSpec {
  width : number;
  height : number;
  format : OutputFormat
}.

(** [Partial<OutputSpec>]: each field is supplied or absent. *)
Record OutputPatch := mkOutputPatch {
  patch_width : option number;
  patch_height : option number;
  patch_format : option OutputFormat
}.

(** [{ ...o, ...patch }]. *)
Definition spread (o : OutputSpec) (patch : OutputPatch) : OutputSpec :=
  {| width := match patch_width patch with Some w => w | None => width o end;
     height := match patch_height patch with Some h => h | None => height o end;
     format := match patch_format patch with Some f => f | None => format o end |}.

(** [Array.prototype.map] and [Array.prototype.filter] with the element index
    passed to the callback. *)
Fixpoint map_from {A B : Type} (f : A -> nat -> B) (i : nat) (l : list A)
    : list B :=
  match l with
  | [] => []
  | x :: l' => f x i :: map_from f (S i) l'
  end.

Definition Array_map {A B : Type} (f : A -> nat -> B) (l : list A) : list B :=
  map_from f 0 l.

Fixpoint filter_from {A : Type} (f : A -> nat -> bool) (i : nat) (l : list A)
    : list A :=
  match l with
  | [] => []
  | x :: l' =>
      if f x i then x :: filter_from f (S i) l' else filter_from f (S i) l'
  end.

Definition Array_filter {A : Type} (f : A -> nat -> bool) (l : list A) : list A :=
  filter_from f 0 l.

(** The two pieces of React state the handlers touch.  [previewIndex] only
    ever holds small integers, so it is kept as an integer. *)
Record AppState := mkAppState {
  outputs : list OutputSpec;
  previewIndex : Z
}.

Definition default_output : OutputSpec :=
  {| width := num_of_Z 512; height := num_of_Z 512; format := png |}.

Definition initial_state : AppState :=
  {| outputs := [default_output]; previewIndex := 0 |}.

(** [i === index] for an array position [i] and a requested [index]. *)
Definition same_index (i : nat) (index : Z) : bool := Z.of_nat i =? index.

Definition updateOutput (index : Z) (patch : OutputPatch) (s : AppState)
    : AppState :=
  {| outputs :=
       Array_map (fun o i => if same_index i index then spread o patch else o)
                 (outputs s);
     previewIndex := previewIndex s |}.

Definition addOutput (s : AppState) : AppState :=
  {| outputs := outputs s ++ [default_output];
     previewIndex := Z.of_nat (length (outputs s)) |}.

Definition removeOutput (index : Z) (s : AppState) : AppState :=
  {| outputs :=
       Array_filter (fun _ i => negb (same_index i index)) (outputs s);
     previewIndex :=
       Z.max 0 (Z.min (previewIndex s) (Z.of_nat (length (outputs s)) - 2)) |}.

(** How a handler call ends: it returns with the next state, or it raises
    the out-of-range condition.  No handler of [App.tsx] contains a [throw],
    so each of them returns. *)
Inductive completion :=
  | Returns (s : AppState)
  | OutOfRange.

Definition updateOutput_call (index : Z) (patch : OutputPatch) (s : AppState)
    : completion :=
  Returns (updateOutput index patch s).

(** The positions of a list that hold an entry. *)
Definition valid_index (l : list OutputSpec) (index : Z) : Prop :=
  0 <= index < Z.of_nat (length l).

(** [l] without its entry at position [n]. *)
Definition remove_at (n : nat) (l : list OutputSpec) : list OutputSpec :=
  firstn n l ++ skipn (S n) l.

(** [x > 0] on a number. *)
Definition is_positive (x : number) : bool := num_gt x zero.

(** The aspect ratio [w / h] of integer dimensions, as the code computes
    [srcAR] and [dstAR]. *)
Definition aspect (w h : Z) : number := num_div (num_of_Z w) (num_of_Z h).

(** [w / h] rounded down to a multiple of [2^-30], as a numerator. *)
Definition aspect_floor (w h : Z) : Z := w * 2 ^ 30 / h.

(** ** The value of a number, for proofs *)

Definition bpow (e : Z) : R := powerRZ 2 e.

(** [m·2^e] as a real number. *)
Definition F2R (m e : Z) : R := (IZR m * bpow e)%R.

Definition SF2R (x : number) : R :=
  match x with
  | S754_finite s m e => F2R (cond_Zopp s (Zpos m)) e
  | _ => 0%R
  end.

(** Where a real [r] lies in the interval [[m·2^e, (m+1)·2^e)], as the
    [location] of [SpecFloat] records it. *)
Definition inbetween (m e : Z) (l : location) (r : R) : Prop :=
  match l with
  | loc_Exact => r = F2R m e
  | loc_Inexact Lt => (F2R m e < r < F2R m e + bpow e / 2)%R
  | loc_Inexact Eq => r = (F2R m e + bpow e / 2)%R
  | loc_Inexact Gt => (F2R m e + bpow e / 2 < r < F2R m e + bpow e)%R
  end.

(** The same for a mantissa with its round and sticky bits. *)
Definition inb_rec (mrs : shr_record) (e : Z) (r : R) : Prop :=
  inbetween (shr_m mrs) e (loc_of_shr_record mrs) r.

(** What [binary_round_aux] returns for a rounded mantissa [m] at exponent
    [e]: a zero, a finite number, or an infinity when the exponent is too
    large. *)
Definition round_result (s : bool) (m e : Z) : number :=
  match m with
  | Z0 => S754_zero s
  | Zpos p => if e <=? emax - prec then S754_finite s p e else S754_infinity s
  | Zneg _ => S754_nan
  end.

(** A mantissa at its canonical exponent, within the precision. *)
Definition canonical (m e : Z) : Prop :=
  0 <= m < 2 ^ prec /\ e = fexp prec emax (Zdigits2 m + e).

(** The non-negative reals a finite number can hold. *)
Definition representable (g : R) : Prop :=
  exists m e, g = F2R m e /\ 0 <= m < 2 ^ prec /\
              emin prec emax <= e <= emax - prec.

(** Non-negative finite numbers in canonical form: [+0] and the positive
    finite ones. *)
Definition nonneg_num (x : number) : Prop :=
  x = S754_zero false \/
  exists m e, x = S754_finite false m e /\ SpecFloat.bounded prec emax m e = true.

Definition pos_num (x : number) : Prop :=
  exists m e, x = S754_finite false m e /\ SpecFloat.bounded prec emax m e = true.

(** ** The form: what the rendered page lets the user do

    [setPreviewIndex(i)] is called by the Preview button of row [i]. *)
Definition setPreviewIndex (i : Z) (s : AppState) : AppState :=
  {| outputs := outputs s; previewIndex := i |}.

(** The events of the rendered form.  [outputs.map((o, i) => ...)] renders
    one row per entry, with its three inputs and its Preview button; the
    Remove button of a row is rendered only when [outputs.length > 1]; the Add
    button is always there. *)
Inductive event :=
  | ClickAdd
  | ChangeField (i : nat) (patch : OutputPatch)
  | ClickPreview (i : nat)
  | ClickRemove (i : nat).

Definition offered (s : AppState) (ev : event) : bool :=
  match ev with
  | ClickAdd => true
  | ChangeField i _ => (i <? length (outputs s))%nat
  | ClickPreview i => (i <? length (outputs s))%nat
  | ClickRemove i =>
      (i <? length (outputs s))%nat && (1 <? length (outputs s))%nat
  end.

Definition handle (ev : event) (s : AppState) : AppState :=
  match ev with
  | ClickAdd => addOutput s
  | ChangeField i patch => updateOutput (Z.of_nat i) patch s
  | ClickPreview i => setPreviewIndex (Z.of_nat i) s
  | ClickRemove i => removeOutput (Z.of_nat i) s
  end.

(** A session: the events in order, each one offered by the page as rendered
    from the state it acts on; [None] if one of them is not. *)
Fixpoint run (evs : list event) (s : AppState) : option AppState :=
  match evs with
  | [] => Some s
  | ev :: evs' => if offered s ev then run evs' (handle ev s) else None
  end.

(** [outputs[previewIndex]] as the preview effect reads it: [undefined]
    (here [None]) outside the array. *)
Definition preview_spec (s : AppState) : option OutputSpec :=
  if previewIndex s <? 0 then None
  else nth_error (outputs s) (Z.to_nat (previewIndex s)).

(** The patch that holds the fields of both, the later one winning:
    [{ ...p1, ...p2 }]. *)
Definition merge_patch (p1 p2 : OutputPatch) : OutputPatch :=
  {| patch_width :=
       match patch_width p2 with Some w => Some w | None => patch_width p1 end;
     patch_height :=
       match patch_height p2 with Some h => Some h | None => patch_height p1 end;
     patch_format :=
       match patch_format p2 with Some f => Some f | None => patch_format p1 end |}.

(** ** [handleGenerate]: the request and the download name

    Strings are sequences of 8-bit code units, as header values are; every
    character the code looks for (['.'], [';'], ['='], the double quote and
    the letters of [filename]) is ASCII. *)

Section Generate.

Import String Ascii.
Local Open Scope string_scope.

(** The selected [File], of which the code reads the name. *)
Record File := mkFile { file_name : string }.

(** The multipart form and the headers passed to [fetch].  The [outputs]
    field is [JSON.stringify(outputs)]; it is kept as the list it
    serialises. *)
Record ResizeRequest := mkResizeRequest {
  form_logo : File;
  form_outputs : list OutputSpec;
  form_maintainAspect : string;
  form_fit : option FitMode;
  header_Authorization : option string
}.

Inductive GenerateStep :=
  | Alert (message : string)
  | Fetch (request : ResizeRequest).

(** [handleGenerate] up to the [fetch] call. *)
Definition handleGenerate_request (file : option File) (token : string)
    (maintainAspect : bool) (fit : FitMode) (s : AppState) : GenerateStep :=
  match file with
  | None => Alert "Please upload a file first"
  | Some f =>
      if (List.length (outputs s) =? 0)%nat then
        Alert "Please add at least one output"
      else
        Fetch {| form_logo := f;
                 form_outputs := outputs s;
                 form_maintainAspect :=
                   if maintainAspect then "true" else "false";
                 form_fit := if maintainAspect then Some fit else None;
                 header_Authorization :=
                   match token with
                   | EmptyString => None
                   | _ => Some (String.append "Bearer " token)
                   end |}
  end.

(** Lower case of an ASCII letter; any other code unit is left alone.  An
    ASCII pattern under the [i] flag matches a code unit exactly when the two
    agree after this folding. *)
Definition lower (c : ascii) : ascii :=
  let n := nat_of_ascii c in
  if ((65 <=? n) && (n <=? 90))%nat then ascii_of_nat (n + 32) else c.

(** What is left of [s] after the pattern [pat] matched at its start,
    ignoring case. *)
Fixpoint match_prefix_ci (pat s : string) : option string :=
  match pat with
  | EmptyString => Some s
  | String p pat' =>
      match s with
      | EmptyString => None
      | String c s' =>
          if Ascii.eqb (lower c) (lower p) then match_prefix_ci pat' s'
          else None
      end
  end.

(** [[^;]+], greedy: the code units up to the first [';']. *)
Fixpoint until_semicolon (s : string) : string :=
  match s with
  | EmptyString => EmptyString
  | String c s' =>
      if Ascii.eqb c ";" then EmptyString else String c (until_semicolon s')
  end.

(** [/filename=([^;]+)/i] tried at the start of [s]: the captured group. *)
Definition filename_here (s : string) : option string :=
  match match_prefix_ci "filename=" s with
  | Some rest =>
      match until_semicolon rest with
      | EmptyString => None
      | captured => Some captured
      end
  | None => None
  end.

(** [/filename=([^;]+)/i.exec(disp)]: group 1 of the leftmost match. *)
Fixpoint exec_filename (disp : string) : option string :=
  match filename_here disp with
  | Some captured => Some captured
  | None =>
      match disp with
      | EmptyString => None
      | String _ disp' => exec_filename disp'
      end
  end.

(** The [replace] of every double quote by nothing. *)
Fixpoint remove_quotes (s : string) : string :=
  match s with
  | EmptyString => EmptyString
  | String c s' =>
      if Ascii.eqb c "034" then remove_quotes s'
      else String c (remove_quotes s')
  end.

Fixpoint has_dot (s : string) : bool :=
  match s with
  | EmptyString => false
  | String c s' => Ascii.eqb c "." || has_dot s'
  end.

Definition is_empty (s : string) : bool :=
  match s with EmptyString => true | _ => false end.

(** The [replace] of [/\.[^.]+$/] by nothing: the last dot and what follows
    it are removed, when something follows it. *)
Fixpoint strip_extension (s : string) : string :=
  match s with
  | EmptyString => EmptyString
  | String c s' =>
      if Ascii.eqb c "." && negb (is_empty s') && negb (has_dot s')
      then EmptyString
      else String c (strip_extension s')
  end.

(** [s.includes(pat)]. *)
Fixpoint includes (s pat : string) : bool :=
  if String.prefix pat s then true
  else match s with
       | EmptyString => false
       | String _ s' => includes s' pat
       end.

Definition format_name (f : OutputFormat) : string :=
  match f with png => "png" | jpeg => "jpeg" | webp => "webp" end.

(** The name from the [Content-Disposition] header, quotes removed. *)
Definition header_name (disp : string) : option string :=
  option_map remove_quotes (exec_filename disp).

(** Whether the code unit [c] occurs in [s]. *)
Fixpoint has_char (c : ascii) (s : string) : bool :=
  match s with
  | EmptyString => false
  | String c' s' => Ascii.eqb c' c || has_char c s'
  end.

(** How a number prints inside a template literal. *)
Variable Number_toString : number -> string.

(** [a.download], from the response headers (a missing one read as empty),
    the name of the uploaded file and the outputs; [None] when [outputs[0]]
    is [undefined] and reading its [width] throws. *)
Definition download_name (contentType disp : string) (file : File)
    (outs : list OutputSpec) : option string :=
  if includes contentType "application/zip" then
    match header_name disp with
    | Some name => Some name
    | None => Some "resized.zip"
    end
  else
    match header_name disp with
    | Some name => Some name
    | None =>
        let base :=
          strip_extension
            (match file_name file with
             | EmptyString => "image"
             | name => name
             end) in
        match outs with
        | o :: _ =>
            Some (String.append base
                   (String.append "_"
                     (String.append (Number_toString (width o))
                       (String.append "x"
                         (String.append (Number_toString (height o))
                           (String.append "." (format_name (format o))))))))
        | [] => None
        end
    end.

(** The [downloadName] of the single-output version of [handleGenerate]: the
    header's name unless it is missing or empty, and otherwise a name made
    from the uploaded one, by content type. *)
Definition downloadName (contentType disp : string) (file : File)
    (width height : number) (format : OutputFormat) : string :=
  let fallback :=
    let base :=
      strip_extension
        (match file_name file with
         | EmptyString => "image"
         | name => name
         end) in
    if includes contentType "application/zip" then
      String.append base "_resized.zip"
    else if includes contentType "image/" then
      String.append base
        (String.append "_"
          (String.append (Number_toString width)
            (String.append "x"
              (String.append (Number_toString height)
                (String.append "." (format_name format))))))
    else
      String.append base
        (String.append "_"
          (String.append (Number_toString width)
            (String.append "x" (Number_toString height)))) in
  match header_name disp with
  | Some EmptyString => fallback
  | Some name => name
  | None => fallback
  end.

End Generate.

(** * Powers of two *)

Section Bpow.

Lemma bpow_pos (e : Z) : (0 < bpow e)%R.
Proof. unfold bpow. apply powerRZ_lt. lra. Qed.

Lemma bpow_plus (a b : Z) : bpow (a + b) = (bpow a * bpow b)%R.
Proof. unfold bpow. apply powerRZ_add. lra. Qed.

Lemma bpow_0 : bpow 0 = 1%R.
Proof. reflexivity. Qed.

Lemma bpow_1 : bpow 1 = 2%R.
Proof. unfold bpow. simpl. lra. Qed.

Lemma bpow_succ (e : Z) : bpow (e + 1) = (2 * bpow e)%R.
Proof. rewrite bpow_plus, bpow_1. lra. Qed.

Lemma bpow_Z (n : Z) : 0 <= n -> bpow n = IZR (2 ^ n).
Proof.
  intros Hn. unfold bpow.
  rewrite <- (Z2Nat.id n) by assumption.
  rewrite <- pow_powerRZ, pow_IZR. reflexivity.
Qed.

Lemma bpow_ge_1 (n : Z) : 0 <= n -> (1 <= bpow n)%R.
Proof.
  intros Hn. rewrite bpow_Z by assumption. apply IZR_le.
  assert (0 < 2 ^ n) by (apply Z.pow_pos_nonneg; lia). lia.
Qed.

Lemma bpow_le (a b : Z) : a <= b -> (bpow a <= bpow b)%R.
Proof.
  intros Hab. replace b with (a + (b - a)) by lia.
  rewrite bpow_plus.
  pose proof (bpow_pos a). pose proof (bpow_ge_1 (b - a) ltac:(lia)).
  nra.
Qed.

Lemma bpow_lt (a b : Z) : a < b -> (bpow a < bpow b)%R.
Proof.
  intros Hab. replace b with (a + 1 + (b - a - 1)) by lia.
  rewrite bpow_plus, bpow_succ.
  pose proof (bpow_pos a). pose proof (bpow_ge_1 (b - a - 1) ltac:(lia)).
  nra.
Qed.

Lemma F2R_shift (m e k : Z) : 0 <= k -> F2R (m * 2 ^ k) e = F2R m (e + k).
Proof.
  intros Hk. unfold F2R. rewrite mult_IZR, bpow_plus, <- bpow_Z by assumption.
  ring.
Qed.

Lemma F2R_0 (e : Z) : F2R 0 e = 0%R.
Proof. unfold F2R. ring. Qed.

Lemma F2R_Z (m : Z) : F2R m 0 = IZR m.
Proof. unfold F2R. rewrite bpow_0. ring. Qed.

Lemma F2R_le (m1 m2 e : Z) : m1 <= m2 -> (F2R m1 e <= F2R m2 e)%R.
Proof.
  intros H. unfold F2R. apply IZR_le in H. pose proof (bpow_pos e). nra.
Qed.

Lemma F2R_lt (m1 m2 e : Z) : m1 < m2 -> (F2R m1 e < F2R m2 e)%R.
Proof.
  intros H. unfold F2R. apply IZR_lt in H. pose proof (bpow_pos e). nra.
Qed.

Lemma F2R_lt_inv (m1 m2 e : Z) : (F2R m1 e < F2R m2 e)%R -> m1 < m2.
Proof.
  intros H. destruct (Z_lt_le_dec m1 m2) as [|Hle]; [assumption|].
  apply (F2R_le _ _ e) in Hle. lra.
Qed.

Lemma F2R_le_inv (m1 m2 e : Z) : (F2R m1 e <= F2R m2 e)%R -> m1 <= m2.
Proof.
  intros H. destruct (Z_le_gt_dec m1 m2) as [|Hgt]; [assumption|].
  apply Z.gt_lt, (F2R_lt _ _ e) in Hgt. lra.
Qed.

Lemma F2R_succ (m e : Z) : F2R (m + 1) e = (F2R m e + bpow e)%R.
Proof. unfold F2R. rewrite plus_IZR. ring. Qed.

Lemma F2R_opp (m e : Z) : F2R (- m) e = (- F2R m e)%R.
Proof. unfold F2R. rewrite opp_IZR. ring. Qed.

End Bpow.

(** * Binary digits *)

Section Digits.

Lemma digits2_pos_size (p : positive) : digits2_pos p = Pos.size p.
Proof. induction p; simpl; congruence. Qed.

Lemma Zdigits2_log2 (m : Z) : 0 < m -> Zdigits2 m = Z.log2 m + 1.
Proof.
  destruct m as [|p|p]; try lia. intros _.
  unfold Zdigits2. rewrite digits2_pos_size.
  destruct p; simpl; lia.
Qed.

Lemma Zdigits2_nonneg (m : Z) : 0 <= Zdigits2 m.
Proof. destruct m; simpl; lia. Qed.

Lemma Zdigits2_pos (m : Z) : 0 < m -> 0 < Zdigits2 m.
Proof. destruct m; simpl; lia. Qed.

Lemma Zdigits2_bounds (m : Z) :
  0 < m -> 2 ^ (Zdigits2 m - 1) <= m < 2 ^ Zdigits2 m.
Proof.
  intros Hm. rewrite Zdigits2_log2 by assumption.
  replace (Z.log2 m + 1 - 1) with (Z.log2 m) by lia.
  apply Z.log2_spec. assumption.
Qed.

Lemma Zdigits2_unique (m k : Z) :
  2 ^ (k - 1) <= m < 2 ^ k -> 0 < m -> Zdigits2 m = k.
Proof.
  intros Hk Hm. rewrite Zdigits2_log2 by assumption.
  assert (0 < k).
  { destruct (Z_lt_le_dec 0 k) as [|Hle]; [assumption|].
    assert (2 ^ k <= 2 ^ 0) by (apply Z.pow_le_mono_r; lia).
    simpl in *. lia. }
  rewrite (Z.log2_unique m (k - 1)); [lia | lia |].
  replace (Z.succ (k - 1)) with k by lia. assumption.
Qed.

Lemma Zdigits2_upper (m k : Z) : 0 <= k -> 0 <= m < 2 ^ k -> Zdigits2 m <= k.
Proof.
  intros Hk [Hm Hlt].
  destruct (Z.eq_dec m 0) as [->|Hnz]; [simpl; lia|].
  destruct (Z_le_gt_dec (Zdigits2 m) k) as [|Hgt]; [assumption|].
  pose proof (Zdigits2_bounds m ltac:(lia)) as [Hlo _].
  assert (2 ^ k <= 2 ^ (Zdigits2 m - 1)) by (apply Z.pow_le_mono_r; lia).
  lia.
Qed.

Lemma Zdigits2_lower (m k : Z) : 2 ^ k <= m -> 0 <= k -> k < Zdigits2 m.
Proof.
  intros Hle Hk.
  assert (0 < 2 ^ k) by (apply Z.pow_pos_nonneg; lia).
  pose proof (Zdigits2_bounds m ltac:(lia)) as [_ Hhi].
  destruct (Z_lt_le_dec k (Zdigits2 m)) as [|Hge]; [assumption|].
  assert (2 ^ Zdigits2 m <= 2 ^ k) by (apply Z.pow_le_mono_r; lia).
  lia.
Qed.

Lemma Zdigits2_div_pow2 (m k : Z) :
  0 < m -> 0 <= k < Zdigits2 m -> Zdigits2 (m / 2 ^ k) = Zdigits2 m - k.
Proof.
  intros Hm Hk.
  pose proof (Zdigits2_bounds m Hm) as [Hlo Hhi].
  assert (Hp : 0 < 2 ^ k) by (apply Z.pow_pos_nonneg; lia).
  assert (Hsplit1 : 2 ^ (Zdigits2 m - 1) = 2 ^ (Zdigits2 m - k - 1) * 2 ^ k).
  { rewrite <- Z.pow_add_r by lia. f_equal. lia. }
  assert (Hsplit2 : 2 ^ Zdigits2 m = 2 ^ (Zdigits2 m - k) * 2 ^ k).
  { rewrite <- Z.pow_add_r by lia. f_equal. lia. }
  assert (Hq1 : 2 ^ (Zdigits2 m - k - 1) <= m / 2 ^ k).
  { apply Z.div_le_lower_bound; lia. }
  assert (Hq2 : m / 2 ^ k < 2 ^ (Zdigits2 m - k)).
  { apply Z.div_lt_upper_bound; lia. }
  assert (0 < 2 ^ (Zdigits2 m - k - 1)) by (apply Z.pow_pos_nonneg; lia).
  apply Zdigits2_unique; [|lia].
  split; [exact Hq1 | exact Hq2].
Qed.

Lemma div_pow2_small (m k : Z) : 0 <= m -> Zdigits2 m <= k -> m / 2 ^ k = 0.
Proof.
  intros Hm Hk.
  destruct (Z.eq_dec m 0) as [->|Hnz]; [apply Z.div_0_l; pose proof (Zdigits2_nonneg 0);
    assert (0 < 2 ^ k) by (apply Z.pow_pos_nonneg; simpl in Hk; lia); lia|].
  pose proof (Zdigits2_bounds m ltac:(lia)) as [_ Hhi].
  pose proof (Zdigits2_pos m ltac:(lia)).
  apply Z.div_small. split; [lia|].
  assert (2 ^ Zdigits2 m <= 2 ^ k) by (apply Z.pow_le_mono_r; lia). lia.
Qed.

Lemma Zdigits2_mul_pow2 (m k : Z) :
  0 < m -> 0 <= k -> Zdigits2 (m * 2 ^ k) = Zdigits2 m + k.
Proof.
  intros Hm Hk.
  pose proof (Zdigits2_bounds m Hm) as [Hlo Hhi].
  pose proof (Zdigits2_pos m Hm).
  assert (Hp : 0 < 2 ^ k) by (apply Z.pow_pos_nonneg; lia).
  apply Zdigits2_unique; [|nia].
  replace (Zdigits2 m + k - 1) with (Zdigits2 m - 1 + k) by lia.
  rewrite !Z.pow_add_r by lia. nia.
Qed.

End Digits.

(** * Shifting a mantissa right while tracking the position of the exact value *)

Section Shr.

Lemma iter_pos_iter (A : Type) (f : A -> A) (n : positive) (x : A) :
  SpecFloat.iter_pos f n x = Pos.iter f x n.
Proof.
  revert x. induction n as [n IH|n IH|]; intros x; simpl.
  - rewrite !IH, Pos.iter_swap, Pos.iter_swap. reflexivity.
  - rewrite !IH. reflexivity.
  - reflexivity.
Qed.

Lemma shr_1_fields (m : Z) (rb sb : bool) :
  0 <= m ->
  shr_1 (Build_shr_record m rb sb) = Build_shr_record (m / 2) (Z.odd m) (rb || sb).
Proof.
  intros Hm. destruct m as [|p|p]; [reflexivity| |lia].
  destruct p as [p|p|]; unfold shr_1.
  - replace (Z.pos p~1 / 2) with (Z.pos p); [reflexivity|].
    rewrite Pos2Z.inj_xI.
    apply (Z.div_unique _ 2 _ 1); lia.
  - replace (Z.pos p~0 / 2) with (Z.pos p); [reflexivity|].
    rewrite Pos2Z.inj_xO.
    apply (Z.div_unique _ 2 _ 0); lia.
  - reflexivity.
Qed.

Lemma shr_1_spec (mrs : shr_record) (e : Z) (r : R) :
  0 <= shr_m mrs -> inb_rec mrs e r ->
  inb_rec (shr_1 mrs) (e + 1) r /\ shr_m (shr_1 mrs) = shr_m mrs / 2.
Proof.
  destruct mrs as [m rb sb]. cbn [shr_m]. intros Hm Hin.
  rewrite shr_1_fields by assumption. split; [|reflexivity].
  unfold inb_rec in *. cbn [shr_m loc_of_shr_record] in *.
  pose proof (Zdiv2_odd_eqn m) as Heq. rewrite Z.div2_div in Heq.
  pose proof (bpow_pos e) as Hb.
  assert (HF : F2R m e = (F2R (m / 2) (e + 1)
                           + (if Z.odd m then bpow e else 0))%R).
  { unfold F2R. rewrite bpow_succ. rewrite Heq at 1.
    rewrite plus_IZR, mult_IZR. destruct (Z.odd m); simpl; ring. }
  destruct (Z.odd m), rb, sb; cbn [orb inbetween] in *;
    rewrite ?bpow_succ; lra.
Qed.

Lemma shr_iter_spec (p : positive) (mrs : shr_record) (e : Z) (r : R) :
  0 <= shr_m mrs -> inb_rec mrs e r ->
  inb_rec (SpecFloat.iter_pos shr_1 p mrs) (e + Zpos p) r /\
  shr_m (SpecFloat.iter_pos shr_1 p mrs) = shr_m mrs / 2 ^ Zpos p.
Proof.
  intros Hm Hin. rewrite iter_pos_iter.
  induction p as [|p IH] using Pos.peano_ind.
  - simpl Pos.iter. change (2 ^ 1) with 2. apply shr_1_spec; assumption.
  - rewrite Pos.iter_succ. destruct IH as [IH1 IH2].
    assert (Hm' : 0 <= shr_m (Pos.iter shr_1 mrs p)).
    { rewrite IH2. apply Z.div_pos; [assumption|]. apply Z.pow_pos_nonneg; lia. }
    destruct (shr_1_spec _ _ _ Hm' IH1) as [H1 H2].
    split.
    + replace (e + Z.pos (Pos.succ p)) with (e + Z.pos p + 1) by lia. exact H1.
    + rewrite H2, IH2, Z.div_div, Pos2Z.inj_succ, Z.pow_succ_r by
        (try apply Z.pow_pos_nonneg; lia).
      f_equal. lia.
Qed.

Lemma loc_of_shr_record_of_loc (m : Z) (l : location) :
  loc_of_shr_record (shr_record_of_loc m l) = l.
Proof. destruct l as [|[ | | ]]; reflexivity. Qed.

Lemma shr_m_of_loc (m : Z) (l : location) : shr_m (shr_record_of_loc m l) = m.
Proof. destruct l as [|[ | | ]]; reflexivity. Qed.

Lemma shr_fexp_spec (m e : Z) (l : location) (r : R) :
  0 <= m -> inbetween m e l r ->
  e <= fexp prec emax (Zdigits2 m + e) ->
  let e' := fexp prec emax (Zdigits2 m + e) in
  snd (shr_fexp prec emax m e l) = e' /\
  shr_m (fst (shr_fexp prec emax m e l)) = m / 2 ^ (e' - e) /\
  inb_rec (fst (shr_fexp prec emax m e l)) e' r.
Proof.
  intros Hm Hin Hle e'. unfold shr_fexp, shr. fold e'.
  assert (Hrec : inb_rec (shr_record_of_loc m l) e r).
  { unfold inb_rec. rewrite loc_of_shr_record_of_loc, shr_m_of_loc. exact Hin. }
  destruct (e' - e) as [|p|p] eqn:Hd; simpl fst; simpl snd.
  - replace e' with e by lia. rewrite shr_m_of_loc, Z.div_1_r. auto.
  - destruct (shr_iter_spec p (shr_record_of_loc m l) e r) as [H1 H2];
      [rewrite shr_m_of_loc; assumption | assumption |].
    rewrite shr_m_of_loc in H2.
    replace (e + Z.pos p) with e' in * by lia. auto.
  - lia.
Qed.

End Shr.

(** * Rounding to nearest never crosses a representable number *)

Section Rounding.

Lemma fexp_eq (x : Z) : fexp prec emax x = Z.max (x - 53) (-1074).
Proof. reflexivity. Qed.

Lemma F2R_pow2 (k e : Z) : 0 <= k -> F2R (2 ^ k) e = bpow (k + e).
Proof.
  intros Hk. unfold F2R. rewrite <- bpow_Z by assumption.
  rewrite bpow_plus. reflexivity.
Qed.

Lemma inbetween_bounds (m e : Z) (l : location) (r : R) :
  inbetween m e l r ->
  (F2R m e <= r < F2R (m + 1) e)%R /\
  (l = loc_Exact -> r = F2R m e) /\
  (l <> loc_Exact -> (F2R m e < r)%R).
Proof.
  intros H. rewrite F2R_succ. pose proof (bpow_pos e).
  destruct l as [|[ | | ]]; cbn [inbetween] in H;
    (split; [lra | split; [intros; try discriminate; lra | intros; try congruence; lra]]).
Qed.

(** A representable number below the exact value is below the mantissa
    obtained by truncation. *)
Lemma bracket_down (m e : Z) (r g : R) :
  -1074 <= e -> (-1074 < e -> 2 ^ (prec - 1) <= m) ->
  (F2R m e <= r < F2R (m + 1) e)%R ->
  representable g -> (g <= r)%R -> (g <= F2R m e)%R.
Proof.
  intros He Hnorm [Hlo Hhi] (mg & eg & -> & Hmg & Heg) Hgr.
  assert (Hemin : -1074 <= eg) by (unfold emin, emax, prec in Heg; lia).
  clear Heg.
  destruct (Z_le_gt_dec e eg) as [Hle|Hgt].
  - replace eg with (e + (eg - e)) in * by lia.
    rewrite <- F2R_shift in * by lia.
    apply F2R_le.
    assert (mg * 2 ^ (eg - e) < m + 1) by (apply (F2R_lt_inv _ _ e); lra).
    lia.
  - specialize (Hnorm ltac:(lia)).
    apply (F2R_le _ _ e) in Hnorm. rewrite F2R_pow2 in Hnorm by (unfold prec; lia).
    assert (H1 : (F2R mg eg < bpow (prec + eg))%R).
    { rewrite <- F2R_pow2 by (unfold prec; lia). apply F2R_lt. lia. }
    assert (H2 : (bpow (prec + eg) <= bpow (prec - 1 + e))%R) by (apply bpow_le; lia).
    lra.
Qed.

(** A representable number above the exact value is above the next
    mantissa, or above the truncated one when the value is exact. *)
Lemma bracket_up (m e : Z) (r g : R) :
  -1074 <= e -> (-1074 < e -> 2 ^ (prec - 1) <= m) ->
  (F2R m e <= r < F2R (m + 1) e)%R ->
  representable g -> (r <= g)%R ->
  (F2R m e <= g)%R /\ ((F2R m e < r)%R -> (F2R (m + 1) e <= g)%R).
Proof.
  intros He Hnorm [Hlo Hhi] (mg & eg & -> & Hmg & Heg) Hgr.
  assert (Hemin : -1074 <= eg) by (unfold emin, emax, prec in Heg; lia).
  clear Heg.
  destruct (Z_le_gt_dec e eg) as [Hle|Hgt].
  - replace eg with (e + (eg - e)) in * by lia.
    rewrite <- F2R_shift in * by lia.
    split; [lra|]. intros Hlt.
    apply F2R_le.
    assert (m < mg * 2 ^ (eg - e)) by (apply (F2R_lt_inv _ _ e); lra).
    lia.
  - specialize (Hnorm ltac:(lia)).
    apply (F2R_le _ _ e) in Hnorm. rewrite F2R_pow2 in Hnorm by (unfold prec; lia).
    assert (H1 : (F2R mg eg < bpow (prec + eg))%R).
    { rewrite <- F2R_pow2 by (unfold prec; lia). apply F2R_lt. lia. }
    assert (H2 : (bpow (prec + eg) <= bpow (prec - 1 + e))%R) by (apply bpow_le; lia).
    lra.
Qed.

Lemma round_nearest_even_cases (m : Z) (l : location) :
  (l = loc_Exact /\ round_nearest_even m l = m) \/
  (l <> loc_Exact /\
   (round_nearest_even m l = m \/ round_nearest_even m l = m + 1)).
Proof.
  destruct l as [|[ | | ]]; simpl; [left; auto | right ..];
    (split; [discriminate|]); try destruct (Z.even m); auto.
Qed.

(** The mantissa and exponent left by the first shift of [binary_round_aux]. *)
Lemma shr_fexp_canonical (mx ex : Z) :
  0 <= mx -> ex <= fexp prec emax (Zdigits2 mx + ex) ->
  let e1 := fexp prec emax (Zdigits2 mx + ex) in
  let m1 := mx / 2 ^ (e1 - ex) in
  0 <= m1 < 2 ^ prec /\ -1074 <= e1 /\
  (-1074 < e1 -> 2 ^ (prec - 1) <= m1) /\
  e1 = fexp prec emax (Zdigits2 m1 + e1).
Proof.
  intros Hmx Hex e1 m1. subst m1.
  assert (He1 : e1 = Z.max (Zdigits2 mx + ex - 53) (-1074)) by apply fexp_eq.
  clearbody e1. rewrite fexp_eq in Hex. rewrite fexp_eq.
  assert (Hp : 0 < 2 ^ (e1 - ex)) by (apply Z.pow_pos_nonneg; lia).
  destruct (Z.eq_dec mx 0) as [->|Hnz].
  - rewrite Z.div_0_l by lia. simpl Zdigits2 in *.
    repeat split; try (unfold prec; simpl; lia); lia.
  - destruct (Z_lt_le_dec (e1 - ex) (Zdigits2 mx)) as [Hlt|Hge].
    + pose proof (Zdigits2_div_pow2 mx (e1 - ex) ltac:(lia) ltac:(lia)) as Hd.
      assert (Hq : 0 < mx / 2 ^ (e1 - ex)).
      { apply Z.div_str_pos. split; [lia|].
        pose proof (Zdigits2_bounds mx ltac:(lia)) as [Hlo _].
        assert (2 ^ (e1 - ex) <= 2 ^ (Zdigits2 mx - 1)) by (apply Z.pow_le_mono_r; lia).
        lia. }
      pose proof (Zdigits2_bounds _ Hq) as [Hlo Hhi]. rewrite Hd in *.
      repeat split; try lia.
      * assert (2 ^ (Zdigits2 mx - (e1 - ex)) <= 2 ^ prec)
          by (apply Z.pow_le_mono_r; unfold prec; lia).
        lia.
      * intros Hn. replace (prec - 1) with (Zdigits2 mx - (e1 - ex) - 1)
          by (unfold prec; lia). exact Hlo.
    + rewrite div_pow2_small by lia. simpl Zdigits2.
      repeat split; try (unfold prec; simpl; lia); lia.
Qed.

Lemma fexp_digits_stable (m1 m2 e : Z) :
  0 <= m1 < 2 ^ prec -> -1074 <= e ->
  (-1074 < e -> 2 ^ (prec - 1) <= m1) ->
  m1 <= m2 < 2 ^ prec ->
  fexp prec emax (Zdigits2 m2 + e) = e.
Proof.
  intros Hm1 He Hnorm Hm2. rewrite fexp_eq.
  pose proof (Zdigits2_upper m2 prec ltac:(unfold prec; lia) ltac:(lia)) as Hup.
  destruct (Z.eq_dec e (-1074)) as [->|Hne].
  - unfold prec in Hup. lia.
  - specialize (Hnorm ltac:(lia)).
    pose proof (Zdigits2_lower m2 (prec - 1) ltac:(lia) ltac:(unfold prec; lia)).
    unfold prec in *. lia.
Qed.

(** [binary_round_aux] returns a canonical number that no representable
    number separates from the exact value [r]. *)
Lemma binary_round_aux_spec (s : bool) (mx ex : Z) (lx : location) (r : R) :
  0 <= mx -> inbetween mx ex lx r ->
  ex <= fexp prec emax (Zdigits2 mx + ex) ->
  exists m e,
    binary_round_aux prec emax s mx ex lx = round_result s m e /\
    canonical m e /\
    (forall g, representable g -> (g <= r)%R -> (g <= F2R m e)%R) /\
    (forall g, representable g -> (r <= g)%R -> (F2R m e <= g)%R).
Proof.
  intros Hmx Hin Hex. unfold binary_round_aux.
  destruct (shr_fexp_spec mx ex lx r Hmx Hin Hex) as (Hs1 & Hs2 & Hs3).
  destruct (shr_fexp_canonical mx ex Hmx Hex) as (Hm1 & He1 & Hnorm & Hcan).
  destruct (shr_fexp prec emax mx ex lx) as [mrs1 e1'].
  cbn [fst snd] in *. subst e1'. rewrite <- Hs2 in *. clear Hs2.
  set (e1 := fexp prec emax (Zdigits2 mx + ex)) in *. clearbody e1.
  set (m1 := shr_m mrs1) in *. set (l1 := loc_of_shr_record mrs1) in *.
  unfold inb_rec in Hs3. fold m1 l1 in Hs3. clearbody m1 l1.
  destruct (inbetween_bounds _ _ _ _ Hs3) as (Hb & Hexact & Hinexact).
  set (m2 := round_nearest_even m1 l1).
  assert (Hm2 : m1 <= m2 <= m1 + 1 /\ (l1 = loc_Exact -> m2 = m1)).
  { subst m2. destruct (round_nearest_even_cases m1 l1) as [[? ?]|[? [?|?]]];
      split; try lia; intros; congruence. }
  clearbody m2. destruct Hm2 as [Hm2 Hm2x].
  assert (Hdown : forall g, representable g -> (g <= r)%R -> (g <= F2R m2 e1)%R).
  { intros g Hg Hgr.
    pose proof (bracket_down m1 e1 r g He1 Hnorm Hb Hg Hgr).
    pose proof (F2R_le m1 m2 e1 ltac:(lia)). lra. }
  assert (Hup : forall g, representable g -> (r <= g)%R -> (F2R m2 e1 <= g)%R).
  { intros g Hg Hgr.
    destruct (bracket_up m1 e1 r g He1 Hnorm Hb Hg Hgr) as [Hu1 Hu2].
    destruct l1 as [|c] eqn:Hl1.
    - rewrite (Hm2x eq_refl). exact Hu1.
    - specialize (Hinexact ltac:(discriminate)). specialize (Hu2 Hinexact).
      pose proof (F2R_le m2 (m1 + 1) e1 ltac:(lia)). lra. }
  assert (Hex2 : e1 <= fexp prec emax (Zdigits2 m2 + e1)).
  { rewrite fexp_eq. rewrite fexp_eq in Hcan.
    assert (Zdigits2 m1 <= Zdigits2 m2).
    { destruct (Z.eq_dec m1 0) as [->|Hnz]; [apply Zdigits2_nonneg|].
      pose proof (Zdigits2_bounds m1 ltac:(lia)) as [Hlo _].
      pose proof (Zdigits2_pos m1 ltac:(lia)).
      pose proof (Zdigits2_lower m2 (Zdigits2 m1 - 1) ltac:(lia) ltac:(lia)). lia. }
    lia. }
  destruct (shr_fexp_spec m2 e1 loc_Exact (F2R m2 e1) ltac:(lia) eq_refl Hex2)
    as (Ht1 & Ht2 & _).
  destruct (shr_fexp prec emax m2 e1 loc_Exact) as [mrs3 e3'].
  cbn [fst snd] in *. subst e3'.
  destruct (Z_lt_le_dec m2 (2 ^ prec)) as [Hlt|Hge].
  - (* the rounded mantissa still fits *)
    pose proof (fexp_digits_stable m1 m2 e1 Hm1 He1 Hnorm ltac:(lia)) as Hfe.
    rewrite Hfe in *. rewrite Z.sub_diag, Z.div_1_r in Ht2.
    exists m2, e1. rewrite Ht2. split; [reflexivity|].
    split; [split; [lia | symmetry; exact Hfe]|]. auto.
  - (* the rounded mantissa reached [2 ^ prec]: one more shift *)
    assert (Heq : m2 = 2 ^ prec) by lia.
    assert (Hd : Zdigits2 m2 = prec + 1).
    { apply Zdigits2_unique; [|lia]. rewrite Heq.
      replace (prec + 1 - 1) with prec by lia. unfold prec. simpl. lia. }
    assert (Hfe : fexp prec emax (Zdigits2 m2 + e1) = e1 + 1).
    { rewrite fexp_eq, Hd. unfold prec. lia. }
    rewrite Hfe in *. replace (e1 + 1 - e1) with 1 in Ht2 by lia.
    assert (Hm3 : shr_m mrs3 = 2 ^ (prec - 1)).
    { rewrite Ht2, Heq. reflexivity. }
    assert (HF : F2R (2 ^ (prec - 1)) (e1 + 1) = F2R m2 e1).
    { rewrite Heq, !F2R_pow2 by (unfold prec; lia). f_equal. lia. }
    exists (2 ^ (prec - 1)), (e1 + 1). rewrite Hm3, HF.
    split; [reflexivity|].
    split; [|auto].
    split; [unfold prec; simpl; lia|].
    rewrite fexp_eq.
    rewrite (Zdigits2_unique (2 ^ (prec - 1)) prec)
      by (unfold prec; simpl; lia).
    unfold prec. lia.
Qed.

End Rounding.

(** * Canonical numbers *)

Section Canonical.

Lemma representable_lt_max (g : R) : representable g -> (g < bpow emax)%R.
Proof.
  intros (mg & eg & -> & Hmg & Heg).
  assert (H1 : (F2R mg eg < bpow (prec + eg))%R).
  { rewrite <- F2R_pow2 by (unfold prec; lia). apply F2R_lt. lia. }
  assert (H2 : (bpow (prec + eg) <= bpow emax)%R) by (apply bpow_le; lia).
  lra.
Qed.

Lemma canonical_bounded (p : positive) (e : Z) :
  canonical (Zpos p) e -> e <= emax - prec ->
  SpecFloat.bounded prec emax p e = true.
Proof.
  intros [_ Hc] He. unfold SpecFloat.bounded, canonical_mantissa.
  apply andb_true_intro. split.
  - apply Z.eqb_eq. symmetry. exact Hc.
  - apply Z.leb_le. exact He.
Qed.

Lemma bounded_canonical (p : positive) (e : Z) :
  SpecFloat.bounded prec emax p e = true ->
  canonical (Zpos p) e /\ e <= emax - prec.
Proof.
  unfold SpecFloat.bounded, canonical_mantissa. intros H.
  apply andb_prop in H. destruct H as [H1 H2].
  apply Z.eqb_eq in H1. apply Z.leb_le in H2.
  assert (Hc : Zdigits2 (Zpos p) + e - 53 <= e).
  { change (Zpos (digits2_pos p)) with (Zdigits2 (Zpos p)) in H1.
    rewrite fexp_eq in H1. lia. }
  split; [split|assumption].
  - split; [lia|].
    pose proof (Zdigits2_bounds (Zpos p) ltac:(lia)) as [_ Hhi].
    assert (2 ^ Zdigits2 (Zpos p) <= 2 ^ prec)
      by (apply Z.pow_le_mono_r; unfold prec; lia).
    lia.
  - symmetry. exact H1.
Qed.

Lemma canonical_emin (m e : Z) : canonical m e -> -1074 <= e.
Proof. intros [_ Hc]. rewrite fexp_eq in Hc. lia. Qed.

Lemma canonical_normal (m e : Z) :
  canonical m e -> -1074 < e -> 2 ^ (prec - 1) <= m.
Proof.
  intros [Hm Hc] He. rewrite fexp_eq in Hc.
  destruct (Z.eq_dec m 0) as [->|Hnz]; [simpl in Hc; lia|].
  pose proof (Zdigits2_bounds m ltac:(lia)) as [Hlo _].
  replace (prec - 1) with (Zdigits2 m - 1) by (unfold prec; lia). exact Hlo.
Qed.

(** A canonical result below a representable number is a zero or a finite
    number: the rounding did not overflow. *)
Lemma round_result_finite (s : bool) (m e : Z) (g : R) :
  canonical m e -> representable g -> (F2R m e <= g)%R ->
  (m = 0 /\ round_result s m e = S754_zero s) \/
  (exists p, m = Zpos p /\ round_result s m e = S754_finite s p e /\
             SpecFloat.bounded prec emax p e = true).
Proof.
  intros Hc Hg Hle.
  destruct m as [|p|p]; [left; auto | right | destruct Hc as [[? _] _]; lia].
  assert (He : e <= emax - prec).
  { destruct (Z_le_gt_dec e (emax - prec)) as [|Hgt]; [assumption|exfalso].
    pose proof (canonical_normal _ _ Hc ltac:(unfold emax, prec in Hgt; lia)) as Hn.
    apply (F2R_le _ _ e) in Hn. rewrite F2R_pow2 in Hn by (unfold prec; lia).
    pose proof (representable_lt_max g Hg).
    assert ((bpow emax <= bpow (prec - 1 + e))%R) by (apply bpow_le; lia).
    lra. }
  exists p. split; [reflexivity|]. split.
  - unfold round_result. apply Z.leb_le in He. rewrite He. reflexivity.
  - apply canonical_bounded; assumption.
Qed.

(** Two canonical mantissas with the same value are the same. *)
Lemma canonical_unique (m1 e1 m2 e2 : Z) :
  canonical m1 e1 -> canonical m2 e2 -> 0 < m1 ->
  F2R m1 e1 = F2R m2 e2 -> m1 = m2 /\ e1 = e2.
Proof.
  assert (Haux : forall m1 e1 m2 e2,
    canonical m1 e1 -> canonical m2 e2 -> 0 < m1 -> e1 <= e2 ->
    F2R m1 e1 = F2R m2 e2 -> m1 = m2 /\ e1 = e2).
  { clear. intros m1 e1 m2 e2 [Hm1 Hc1] [Hm2 Hc2] Hpos Hle Heq.
    replace e2 with (e1 + (e2 - e1)) in Heq by lia.
    rewrite <- F2R_shift in Heq by lia.
    assert (Hm : m1 = m2 * 2 ^ (e2 - e1)).
    { apply Z.le_antisymm; apply (F2R_le_inv _ _ e1); lra. }
    assert (0 < 2 ^ (e2 - e1)) by (apply Z.pow_pos_nonneg; lia).
    assert (0 < m2) by nia.
    assert (Hd : Zdigits2 m1 = Zdigits2 m2 + (e2 - e1)).
    { rewrite Hm. apply Zdigits2_mul_pow2; lia. }
    assert (e1 = e2).
    { rewrite Hc1, Hc2. f_equal. lia. }
    subst e2. rewrite Z.sub_diag in Hm. simpl in Hm. split; lia. }
  intros Hc1 Hc2 Hpos Heq.
  destruct (Z_le_gt_dec e1 e2) as [Hle|Hgt].
  - apply Haux; assumption.
  - assert (0 < m2).
    { destruct Hc2 as [[Hm2 _] _].
      destruct (Z.eq_dec m2 0) as [->|]; [|lia].
      rewrite F2R_0 in Heq. pose proof (F2R_lt 0 m1 e1 Hpos) as Hlt.
      rewrite F2R_0 in Hlt. lra. }
    destruct (Haux m2 e2 m1 e1) as [? ?]; auto; try lia.
Qed.

End Canonical.

(** * Integers as numbers, [Math.floor] and [Math.ceil] *)

Section Integers.

Lemma pos_iter_xO (mx d : positive) :
  Zpos (Pos.iter xO mx d) = Zpos mx * 2 ^ Zpos d.
Proof.
  induction d as [|d IH] using Pos.peano_ind.
  - simpl Pos.iter. lia.
  - rewrite Pos.iter_succ, Pos2Z.inj_xO, IH, Pos2Z.inj_succ, Z.pow_succ_r by lia.
    ring.
Qed.

Lemma shl_align_spec (mx : positive) (ex ex' : Z) :
  let mz := fst (shl_align mx ex ex') in
  let ez := snd (shl_align mx ex ex') in
  F2R (Zpos mz) ez = F2R (Zpos mx) ex /\
  ez = Z.min ex ex' /\
  Zpos mz = Zpos mx * 2 ^ (ex - ez).
Proof.
  unfold shl_align. destruct (ex' - ex) as [|d|d] eqn:Hd; cbn [fst snd].
  - replace (Z.min ex ex') with ex by lia. rewrite Z.sub_diag. simpl.
    split; [reflexivity | lia].
  - replace (Z.min ex ex') with ex by lia. rewrite Z.sub_diag. simpl.
    split; [reflexivity | lia].
  - replace (Z.min ex ex') with ex' by lia.
    assert (Hk : Zpos d = ex - ex') by lia.
    rewrite pos_iter_xO, Hk. split; [|split; reflexivity].
    rewrite F2R_shift by lia. f_equal. lia.
Qed.

Lemma binary_round_spec (s : bool) (mx : positive) (ex : Z) :
  exists m e,
    binary_round prec emax s mx ex = round_result s m e /\
    canonical m e /\
    (forall g, representable g -> (g <= F2R (Zpos mx) ex)%R -> (g <= F2R m e)%R) /\
    (forall g, representable g -> (F2R (Zpos mx) ex <= g)%R -> (F2R m e <= g)%R).
Proof.
  unfold binary_round.
  change (Zpos (digits2_pos mx)) with (Zdigits2 (Zpos mx)).
  set (ex' := fexp prec emax (Zdigits2 (Zpos mx) + ex)).
  destruct (shl_align_spec mx ex ex') as (Hv & He & Hm).
  destruct (shl_align mx ex ex') as [mz ez]. cbn [fst snd] in *.
  rewrite <- Hv.
  apply binary_round_aux_spec; [lia | reflexivity |].
  rewrite Hm.
  rewrite Zdigits2_mul_pow2 by lia.
  replace (Zdigits2 (Z.pos mx) + (ex - ez) + ez) with (Zdigits2 (Z.pos mx) + ex) by lia.
  fold ex'. lia.
Qed.

(** An exactly representable value is returned unchanged. *)
Lemma binary_round_exact (s : bool) (mx : positive) (ex : Z) :
  representable (F2R (Zpos mx) ex) ->
  exists p e,
    binary_round prec emax s mx ex = S754_finite s p e /\
    SpecFloat.bounded prec emax p e = true /\
    F2R (Zpos p) e = F2R (Zpos mx) ex.
Proof.
  intros Hrep.
  destruct (binary_round_spec s mx ex) as (m & e & Hr & Hc & Hdown & Hup).
  pose proof (Hdown _ Hrep (Rle_refl _)) as H1.
  pose proof (Hup _ Hrep (Rle_refl _)) as H2.
  assert (Heq : F2R m e = F2R (Zpos mx) ex) by lra.
  destruct (round_result_finite s m e _ Hc Hrep H2) as [[-> _]|(p & -> & Hres & Hb)].
  - rewrite F2R_0 in Heq.
    pose proof (F2R_lt 0 (Zpos mx) ex ltac:(lia)) as Hlt. rewrite F2R_0 in Hlt. lra.
  - exists p, e. rewrite Hr, Hres. auto.
Qed.

Lemma representable_Z (n : Z) : 0 <= n < 2 ^ prec -> representable (IZR n).
Proof.
  intros Hn. exists n, 0. rewrite F2R_Z.
  split; [reflexivity|]. split; [assumption|].
  unfold emin, emax, prec. lia.
Qed.

Lemma num_of_Z_finite (n : Z) :
  n <> 0 -> Z.abs n < 2 ^ prec ->
  exists p e,
    num_of_Z n = S754_finite (n <? 0) p e /\
    SpecFloat.bounded prec emax p e = true /\
    F2R (Zpos p) e = IZR (Z.abs n).
Proof.
  intros Hnz Hn. unfold num_of_Z, binary_normalize.
  destruct n as [|q|q]; [congruence| |].
  - change (Z.abs (Z.pos q)) with (Z.pos q) in *.
    destruct (binary_round_exact false q 0) as (p & e & H1 & H2 & H3).
    { rewrite F2R_Z. apply representable_Z. lia. }
    exists p, e. rewrite F2R_Z in H3. auto.
  - change (Z.abs (Z.neg q)) with (Z.pos q) in *.
    destruct (binary_round_exact true q 0) as (p & e & H1 & H2 & H3).
    { rewrite F2R_Z. apply representable_Z. lia. }
    exists p, e. rewrite F2R_Z in H3. auto.
Qed.

Lemma num_of_Z_pos (n : Z) :
  0 < n < 2 ^ prec -> pos_num (num_of_Z n) /\ SF2R (num_of_Z n) = IZR n.
Proof.
  intros Hn.
  destruct (num_of_Z_finite n ltac:(lia) ltac:(lia)) as (p & e & H1 & H2 & H3).
  replace (n <? 0) with false in H1 by (symmetry; apply Z.ltb_ge; lia).
  rewrite H1. split; [exists p, e; auto|].
  simpl. rewrite H3. f_equal. lia.
Qed.

Lemma SF2R_num_of_Z (n : Z) : Z.abs n < 2 ^ prec -> SF2R (num_of_Z n) = IZR n.
Proof.
  intros Hn. destruct (Z.eq_dec n 0) as [->|Hnz]; [reflexivity|].
  destruct (num_of_Z_finite n Hnz Hn) as (p & e & H1 & H2 & H3).
  rewrite H1. cbn [SF2R].
  destruct (Z.ltb_spec n 0); cbn [cond_Zopp].
  - rewrite F2R_opp, H3, <- opp_IZR. f_equal. lia.
  - rewrite H3. f_equal. lia.
Qed.

(** Distinct integers below [2^53] are distinct numbers. *)
Lemma num_of_Z_inj (a b : Z) :
  Z.abs a < 2 ^ prec -> Z.abs b < 2 ^ prec -> num_of_Z a = num_of_Z b -> a = b.
Proof.
  intros Ha Hb Heq. apply eq_IZR.
  rewrite <- (SF2R_num_of_Z a Ha), <- (SF2R_num_of_Z b Hb), Heq. reflexivity.
Qed.

(** A finite number whose value is a small integer is that integer's
    number. *)
Lemma finite_is_num_of_Z (s : bool) (p : positive) (e n : Z) :
  SpecFloat.bounded prec emax p e = true ->
  SF2R (S754_finite s p e) = IZR n -> Z.abs n < 2 ^ prec ->
  S754_finite s p e = num_of_Z n.
Proof.
  intros Hb Hv Hn. cbn [SF2R] in Hv.
  pose proof (F2R_lt 0 (Zpos p) e ltac:(lia)) as Hpos. rewrite F2R_0 in Hpos.
  assert (Hnz : n <> 0).
  { intros ->. destruct s; cbn [cond_Zopp] in Hv;
      rewrite ?F2R_opp in Hv; lra. }
  destruct (num_of_Z_finite n Hnz Hn) as (p' & e' & H1 & H2 & H3).
  rewrite H1.
  assert (Hs : s = (n <? 0)).
  { destruct s; cbn [cond_Zopp] in Hv; rewrite ?F2R_opp in Hv; symmetry.
    - apply Z.ltb_lt. apply lt_IZR. lra.
    - apply Z.ltb_ge. apply le_IZR. lra. }
  assert (Habs : F2R (Zpos p) e = IZR (Z.abs n)).
  { destruct s; cbn [cond_Zopp] in Hv; rewrite ?F2R_opp in Hv.
    - symmetry in Hs. apply Z.ltb_lt in Hs.
      replace (Z.abs n) with (- n) by lia. rewrite opp_IZR. lra.
    - symmetry in Hs. apply Z.ltb_ge in Hs.
      replace (Z.abs n) with n by lia. exact Hv. }
  destruct (bounded_canonical _ _ Hb) as [Hc _].
  destruct (bounded_canonical _ _ H2) as [Hc' _].
  destruct (canonical_unique _ _ _ _ Hc Hc' ltac:(lia) ltac:(congruence))
    as [Hp He].
  inversion Hp. subst. reflexivity.
Qed.

Lemma shiftl_floor (a e : Z) :
  (IZR (Z.shiftl a e) <= F2R a e < IZR (Z.shiftl a e) + 1)%R.
Proof.
  destruct (Z_le_gt_dec 0 e) as [He|He].
  - rewrite Z.shiftl_mul_pow2 by assumption.
    unfold F2R. rewrite mult_IZR, <- bpow_Z by assumption. lra.
  - assert (Hsh : Z.shiftl a e = a / 2 ^ (- e)).
    { replace e with (- (- e)) at 1 by lia.
      rewrite Z.shiftl_opp_r, Z.shiftr_div_pow2 by lia. reflexivity. }
    rewrite Hsh.
    assert (Hp : 0 < 2 ^ (- e)) by (apply Z.pow_pos_nonneg; lia).
    pose proof (Z.div_mod a (2 ^ (- e)) ltac:(lia)) as Hdm.
    pose proof (Z.mod_pos_bound a (2 ^ (- e)) Hp) as Hmod.
    assert (Hb : (bpow e * IZR (2 ^ (- e)) = 1)%R).
    { rewrite <- bpow_Z by lia. rewrite <- bpow_plus.
      replace (e + - e) with 0 by lia. apply bpow_0. }
    pose proof (bpow_pos e) as Hbp.
    assert (H0 : (0 <= IZR (a mod 2 ^ (- e)))%R) by (apply IZR_le; lia).
    assert (H1 : (IZR (a mod 2 ^ (- e)) < IZR (2 ^ (- e)))%R) by (apply IZR_lt; lia).
    assert (Ha : IZR a = (IZR (2 ^ (- e)) * IZR (a / 2 ^ (- e))
                          + IZR (a mod 2 ^ (- e)))%R).
    { rewrite <- mult_IZR, <- plus_IZR. f_equal. exact Hdm. }
    unfold F2R. rewrite Ha.
    set (q := IZR (a / 2 ^ (- e))) in *. set (rm := IZR (a mod 2 ^ (- e))) in *.
    set (P := IZR (2 ^ (- e))) in *. set (b := bpow e) in *.
    replace ((P * q + rm) * b)%R with (q * (b * P) + rm * b)%R by ring.
    rewrite Hb.
    assert (rm * b < P * b)%R by nra.
    assert (0 <= rm * b)%R by nra.
    replace (P * b)%R with 1%R in * by lra.
    lra.
Qed.

End Integers.

(** * Division, multiplication and comparison *)

Section Operations.

Lemma new_location_spec (q e my rm : Z) :
  0 < my -> 0 <= rm < my ->
  inbetween q e (new_location my rm) (F2R (q * my + rm) e / IZR my).
Proof.
  intros Hmy Hrm.
  assert (HR : (0 < IZR my)%R) by (apply IZR_lt; lia).
  pose proof (bpow_pos e) as Hb.
  assert (Hr : (F2R (q * my + rm) e / IZR my
               = F2R q e + IZR rm / IZR my * bpow e)%R).
  { unfold F2R. rewrite plus_IZR, mult_IZR. field. lra. }
  rewrite Hr. clear Hr.
  assert (Hx0 : rm = 0 -> (IZR rm / IZR my = 0)%R).
  { intros ->. unfold Rdiv. ring. }
  assert (Hx1 : 0 < rm -> (0 < IZR rm / IZR my * bpow e)%R).
  { intros H. apply IZR_lt in H. apply Rmult_lt_0_compat; [|assumption].
    apply Rdiv_lt_0_compat; assumption. }
  assert (Hlt : 2 * rm < my -> (IZR rm / IZR my * bpow e < bpow e / 2)%R).
  { intros H. apply IZR_lt in H. rewrite mult_IZR in H.
    assert (IZR rm / IZR my < 1 / 2)%R.
    { apply (Rmult_lt_reg_r (IZR my)); [assumption|]. field_simplify; lra. }
    nra. }
  assert (Heq : 2 * rm = my -> (IZR rm / IZR my * bpow e = bpow e / 2)%R).
  { intros H. apply (f_equal IZR) in H. rewrite mult_IZR in H.
    rewrite <- H. field. lra. }
  assert (Hgt : my < 2 * rm ->
          (bpow e / 2 < IZR rm / IZR my * bpow e < bpow e)%R).
  { intros H. apply IZR_lt in H. rewrite mult_IZR in H.
    assert (Hm : (IZR rm < IZR my)%R) by (apply IZR_lt; lia).
    assert (1 / 2 < IZR rm / IZR my)%R.
    { apply (Rmult_lt_reg_r (IZR my)); [assumption|]. field_simplify; lra. }
    assert (IZR rm / IZR my < 1)%R.
    { apply (Rmult_lt_reg_r (IZR my)); [assumption|]. field_simplify; lra. }
    split; nra. }
  unfold new_location, new_location_even, new_location_odd.
  change (IntDef.Z.even my) with (Z.even my).
  destruct (Z.even my) eqn:Hev;
    (destruct (Z.eqb_spec rm 0) as [H0|H0];
     [rewrite (Hx0 H0); cbn [inbetween]; lra|]);
    specialize (Hx1 ltac:(lia)).
  - destruct (Z.compare_spec (2 * rm) my) as [Hc|Hc|Hc]; cbn [inbetween].
    + rewrite (Heq Hc). reflexivity.
    + specialize (Hlt Hc). lra.
    + specialize (Hgt Hc). lra.
  - assert (Hodd : 2 * rm <> my).
    { intros <-. rewrite Z.even_mul in Hev. discriminate. }
    destruct (Z.compare_spec (2 * rm + 1) my) as [Hc|Hc|Hc]; cbn [inbetween].
    + specialize (Hlt ltac:(lia)). lra.
    + specialize (Hlt ltac:(lia)). lra.
    + specialize (Hgt ltac:(lia)). lra.
Qed.

Lemma SFdiv_core_binary_spec (mx my : positive) (ex ey : Z) :
  let '(q, e, l) := SFdiv_core_binary prec emax (Zpos mx) ex (Zpos my) ey in
  0 <= q /\
  inbetween q e l (F2R (Zpos mx) ex / F2R (Zpos my) ey) /\
  e <= fexp prec emax (Zdigits2 q + e).
Proof.
  unfold SFdiv_core_binary.
  set (d1 := Zdigits2 (Zpos mx)). set (d2 := Zdigits2 (Zpos my)).
  set (e' := Z.min (fexp prec emax (d1 + ex - (d2 + ey))) (ex - ey)).
  set (s := ex - ey - e').
  assert (Hs : 0 <= s) by (subst s e'; lia).
  set (m' := match s with
             | Z0 => Zpos mx
             | Zpos _ => Z.shiftl (Zpos mx) s
             | Zneg _ => 0
             end).
  assert (Hm' : m' = Zpos mx * 2 ^ s).
  { subst m'. destruct s as [|p|p] eqn:Hsp; [simpl; lia | | lia].
    rewrite Z.shiftl_mul_pow2 by lia. reflexivity. }
  clearbody m'.
  pose proof (Z.div_mod m' (Zpos my) ltac:(lia)) as Hdm.
  pose proof (Z.mod_pos_bound m' (Zpos my) ltac:(lia)) as Hmod.
  unfold Z.div, Z.modulo in Hdm, Hmod.
  destruct (Z.div_eucl m' (Zpos my)) as [q rm].
  assert (Hp : 0 < 2 ^ s) by (apply Z.pow_pos_nonneg; lia).
  assert (Hq : 0 <= q) by nia.
  split; [exact Hq|]. split.
  - assert (Hr : (F2R (Zpos mx) ex / F2R (Zpos my) ey
                 = F2R (q * Zpos my + rm) e' / IZR (Zpos my))%R).
    { replace (q * Zpos my + rm) with m' by lia. rewrite Hm'.
      rewrite F2R_shift by lia. unfold F2R.
      replace ex with (e' + s + ey) at 1 by (subst s; lia).
      rewrite bpow_plus.
      pose proof (bpow_pos ey). assert (0 < IZR (Zpos my))%R by (apply IZR_lt; lia).
      field. split; lra. }
    rewrite Hr. apply new_location_spec; lia.
  - rewrite fexp_eq.
    destruct (Z_le_gt_dec e' (-1074)) as [Hle|Hgt]; [lia|].
    assert (He' : e' <= d1 + ex - (d2 + ey) - 53).
    { subst e'. rewrite fexp_eq in *. lia. }
    pose proof (Zdigits2_bounds (Zpos mx) ltac:(lia)) as [Hlo1 _].
    pose proof (Zdigits2_bounds (Zpos my) ltac:(lia)) as [_ Hhi2].
    fold d1 in Hlo1. fold d2 in Hhi2.
    pose proof (Zdigits2_pos (Zpos mx) ltac:(lia)) as Hd1. fold d1 in Hd1.
    pose proof (Zdigits2_pos (Zpos my) ltac:(lia)) as Hd2. fold d2 in Hd2.
    set (t := d1 - 1 + s - d2).
    assert (Ht : 52 <= t) by (subst t s; lia).
    assert (Hpow : 2 ^ t * 2 ^ d2 = 2 ^ (d1 - 1) * 2 ^ s).
    { rewrite <- !Z.pow_add_r by lia. f_equal. subst t. lia. }
    assert (H2t : 0 < 2 ^ t) by (apply Z.pow_pos_nonneg; lia).
    assert (Hqt : 2 ^ t <= q).
    { destruct (Z_le_gt_dec (2 ^ t) q) as [|Hlt]; [assumption|exfalso].
      assert (q + 1 <= 2 ^ t) by lia.
      assert (m' < (q + 1) * Zpos my) by nia.
      assert ((q + 1) * Zpos my <= 2 ^ t * Zpos my) by nia.
      assert (2 ^ t * Zpos my < 2 ^ t * 2 ^ d2) by nia.
      assert (2 ^ (d1 - 1) * 2 ^ s <= m') by nia.
      lia. }
    pose proof (Zdigits2_lower q t Hqt ltac:(lia)). lia.
Qed.

Lemma num_div_finite_spec (sx sy : bool) (mx my : positive) (ex ey : Z) :
  exists m e,
    num_div (S754_finite sx mx ex) (S754_finite sy my ey)
      = round_result (xorb sx sy) m e /\
    canonical m e /\
    (forall g, representable g ->
       (g <= F2R (Zpos mx) ex / F2R (Zpos my) ey)%R -> (g <= F2R m e)%R) /\
    (forall g, representable g ->
       (F2R (Zpos mx) ex / F2R (Zpos my) ey <= g)%R -> (F2R m e <= g)%R).
Proof.
  unfold num_div, SFdiv.
  pose proof (SFdiv_core_binary_spec mx my ex ey) as H.
  destruct (SFdiv_core_binary prec emax (Zpos mx) ex (Zpos my) ey) as [[q e] l].
  destruct H as (Hq & Hin & He).
  apply binary_round_aux_spec; assumption.
Qed.

Lemma num_mul_finite_spec (sx sy : bool) (mx my : positive) (ex ey : Z) :
  SpecFloat.bounded prec emax mx ex = true ->
  SpecFloat.bounded prec emax my ey = true ->
  exists m e,
    num_mul (S754_finite sx mx ex) (S754_finite sy my ey)
      = round_result (xorb sx sy) m e /\
    canonical m e /\
    (forall g, representable g ->
       (g <= F2R (Zpos mx) ex * F2R (Zpos my) ey)%R -> (g <= F2R m e)%R) /\
    (forall g, representable g ->
       (F2R (Zpos mx) ex * F2R (Zpos my) ey <= g)%R -> (F2R m e <= g)%R).
Proof.
  intros Hbx Hby. unfold num_mul, SFmul.
  assert (Hr : (F2R (Zpos mx) ex * F2R (Zpos my) ey
               = F2R (Zpos (mx * my)) (ex + ey))%R).
  { unfold F2R. rewrite Pos2Z.inj_mul, mult_IZR, bpow_plus. ring. }
  rewrite Hr.
  apply binary_round_aux_spec; [lia | reflexivity |].
  destruct (bounded_canonical _ _ Hbx) as [[_ Hcx] _].
  destruct (bounded_canonical _ _ Hby) as [[_ Hcy] _].
  rewrite fexp_eq in *.
  pose proof (Zdigits2_bounds (Zpos mx) ltac:(lia)) as [Hlox _].
  pose proof (Zdigits2_bounds (Zpos my) ltac:(lia)) as [Hloy _].
  pose proof (Zdigits2_pos (Zpos mx) ltac:(lia)) as Hdx.
  pose proof (Zdigits2_pos (Zpos my) ltac:(lia)) as Hdy.
  assert (Hprod : 2 ^ (Zdigits2 (Zpos mx) + Zdigits2 (Zpos my) - 2)
                  <= Zpos (mx * my)).
  { replace (Zdigits2 (Zpos mx) + Zdigits2 (Zpos my) - 2)
      with ((Zdigits2 (Zpos mx) - 1) + (Zdigits2 (Zpos my) - 1)) by lia.
    rewrite Z.pow_add_r, Pos2Z.inj_mul by lia.
    assert (0 < 2 ^ (Zdigits2 (Zpos mx) - 1)) by (apply Z.pow_pos_nonneg; lia).
    assert (0 < 2 ^ (Zdigits2 (Zpos my) - 1)) by (apply Z.pow_pos_nonneg; lia).
    nia. }
  pose proof (Zdigits2_lower _ _ Hprod ltac:(lia)).
  lia.
Qed.

Lemma SFcompare_pos_spec (m1 m2 : positive) (e1 e2 : Z) :
  SpecFloat.bounded prec emax m1 e1 = true ->
  SpecFloat.bounded prec emax m2 e2 = true ->
  match SFcompare (S754_finite false m1 e1) (S754_finite false m2 e2) with
  | Some Lt => (F2R (Zpos m1) e1 < F2R (Zpos m2) e2)%R
  | Some Eq => F2R (Zpos m1) e1 = F2R (Zpos m2) e2
  | Some Gt => (F2R (Zpos m2) e2 < F2R (Zpos m1) e1)%R
  | None => False
  end.
Proof.
  intros Hb1 Hb2.
  destruct (bounded_canonical _ _ Hb1) as [Hc1 _].
  destruct (bounded_canonical _ _ Hb2) as [Hc2 _].
  assert (Hexp : forall ma ea mb eb, canonical (Zpos ma) ea ->
            canonical (Zpos mb) eb -> ea < eb ->
            (F2R (Zpos ma) ea < F2R (Zpos mb) eb)%R).
  { clear. intros ma ea mb eb Hca Hcb Hlt.
    pose proof (canonical_emin _ _ Hca).
    pose proof (canonical_normal _ _ Hcb ltac:(lia)) as Hn.
    apply (F2R_le _ _ eb) in Hn. rewrite F2R_pow2 in Hn by (unfold prec; lia).
    destruct Hca as [Hma _].
    assert (H1 : (F2R (Zpos ma) ea < bpow (prec + ea))%R).
    { rewrite <- F2R_pow2 by (unfold prec; lia). apply F2R_lt. lia. }
    assert ((bpow (prec + ea) <= bpow (prec - 1 + eb))%R) by (apply bpow_le; lia).
    lra. }
  cbn [SFcompare].
  destruct (Z.compare_spec e1 e2) as [He|He|He].
  - subst e2. change (Pos.compare_cont Eq m1 m2) with (Pos.compare m1 m2).
    destruct (Pos.compare_spec m1 m2) as [Hm|Hm|Hm].
    + subst. reflexivity.
    + apply F2R_lt. lia.
    + apply F2R_lt. lia.
  - apply Hexp; assumption.
  - apply Hexp; assumption.
Qed.

End Operations.

(** * Numbers that are not negative *)

Section NonNegative.

Lemma round_result_nonneg (m e : Z) (g : R) :
  canonical m e -> representable g -> (F2R m e <= g)%R ->
  nonneg_num (round_result false m e) /\
  SF2R (round_result false m e) = F2R m e.
Proof.
  intros Hc Hg Hle.
  destruct (round_result_finite false m e g Hc Hg Hle)
    as [[-> Hr]|(p & -> & Hr & Hb)]; rewrite Hr.
  - split; [left; reflexivity|]. simpl. rewrite F2R_0. reflexivity.
  - split; [right; exists p, e; auto|]. reflexivity.
Qed.

Lemma pos_num_value (x : number) : pos_num x -> (0 < SF2R x)%R.
Proof.
  intros (m & e & -> & _). simpl.
  pose proof (F2R_lt 0 (Zpos m) e ltac:(lia)) as H. rewrite F2R_0 in H. exact H.
Qed.

Lemma nonneg_num_value (x : number) : nonneg_num x -> (0 <= SF2R x)%R.
Proof.
  intros [->|H]; [simpl; lra|]. apply Rlt_le, pos_num_value. exact H.
Qed.

Lemma nonneg_num_pos (x : number) : nonneg_num x -> (0 < SF2R x)%R -> pos_num x.
Proof. intros [->|H] Hv; [simpl in Hv; lra | exact H]. Qed.

Lemma pos_num_nonneg (x : number) : pos_num x -> nonneg_num x.
Proof. intros H. right. exact H. Qed.

Lemma representable_0 : representable 0.
Proof. apply (representable_Z 0). unfold prec. simpl. lia. Qed.

(** Division of positive numbers: the quotient stays between any two
    representable numbers that enclose the exact quotient. *)
Lemma num_div_pos (x y : number) (glo ghi : R) :
  pos_num x -> pos_num y -> representable glo -> representable ghi ->
  (glo <= SF2R x / SF2R y <= ghi)%R ->
  nonneg_num (num_div x y) /\ (glo <= SF2R (num_div x y) <= ghi)%R.
Proof.
  intros (mx & ex & -> & Hbx) (my & ey & -> & Hby) Hlo Hhi [H1 H2].
  destruct (num_div_finite_spec false false mx my ex ey)
    as (m & e & Hr & Hc & Hdown & Hup).
  cbn [SF2R cond_Zopp xorb] in *.
  specialize (Hdown _ Hlo H1). specialize (Hup _ Hhi H2).
  destruct (round_result_nonneg m e ghi Hc Hhi Hup) as [Hn Hv].
  rewrite Hr, Hv. auto.
Qed.

Lemma num_mul_pos (x y : number) (glo ghi : R) :
  pos_num x -> pos_num y -> representable glo -> representable ghi ->
  (glo <= SF2R x * SF2R y <= ghi)%R ->
  nonneg_num (num_mul x y) /\ (glo <= SF2R (num_mul x y) <= ghi)%R.
Proof.
  intros (mx & ex & -> & Hbx) (my & ey & -> & Hby) Hlo Hhi [H1 H2].
  destruct (num_mul_finite_spec false false mx my ex ey Hbx Hby)
    as (m & e & Hr & Hc & Hdown & Hup).
  cbn [SF2R cond_Zopp xorb] in *.
  specialize (Hdown _ Hlo H1). specialize (Hup _ Hhi H2).
  destruct (round_result_nonneg m e ghi Hc Hhi Hup) as [Hn Hv].
  rewrite Hr, Hv. auto.
Qed.

Lemma num_gt_spec (a b : number) :
  nonneg_num a -> nonneg_num b ->
  (num_gt a b = true <-> (SF2R b < SF2R a)%R).
Proof.
  intros Ha Hb. unfold num_gt, SFltb.
  destruct Hb as [->|(mb & eb & -> & Hbb)]; destruct Ha as [->|(ma & ea & -> & Hba)].
  - simpl. split; [discriminate | lra].
  - pose proof (pos_num_value (S754_finite false ma ea)
                  ltac:(exists ma, ea; auto)) as Hp.
    simpl in *. split; [intros _; exact Hp | reflexivity].
  - pose proof (pos_num_value (S754_finite false mb eb)
                  ltac:(exists mb, eb; auto)) as Hp.
    simpl in *. split; [discriminate | lra].
  - pose proof (SFcompare_pos_spec mb ma eb ea Hbb Hba) as Hc.
    cbn [SF2R cond_Zopp].
    destruct (SFcompare (S754_finite false mb eb) (S754_finite false ma ea))
      as [[ | | ]|]; try contradiction;
      (split; [try discriminate; intros _; lra | try reflexivity; lra]).
Qed.

Lemma num_eq_spec (a b : number) :
  nonneg_num a -> nonneg_num b ->
  (num_eq a b = true <-> SF2R a = SF2R b).
Proof.
  intros Ha Hb. unfold num_eq, SFeqb.
  destruct Hb as [->|(mb & eb & -> & Hbb)]; destruct Ha as [->|(ma & ea & -> & Hba)].
  - simpl. split; reflexivity.
  - pose proof (pos_num_value (S754_finite false ma ea)
                  ltac:(exists ma, ea; auto)) as Hp.
    simpl in *. split; [discriminate | lra].
  - pose proof (pos_num_value (S754_finite false mb eb)
                  ltac:(exists mb, eb; auto)) as Hp.
    simpl in *. split; [discriminate | lra].
  - pose proof (SFcompare_pos_spec ma mb ea eb Hba Hbb) as Hc.
    cbn [SF2R cond_Zopp].
    destruct (SFcompare (S754_finite false ma ea) (S754_finite false mb eb))
      as [[ | | ]|]; try contradiction;
      (split; [try discriminate; intros _; lra | try reflexivity; lra]).
Qed.

Lemma Math_floor_nonneg (x : number) :
  nonneg_num x ->
  exists n, Math_floor x = num_of_Z n /\ 0 <= n /\
            (IZR n <= SF2R x < IZR n + 1)%R.
Proof.
  intros [->|(m & e & -> & Hb)].
  - exists 0. simpl. split; [reflexivity|]. split; [lia|lra].
  - exists (Z.shiftl (Zpos m) e). cbn [Math_floor SF2R cond_Zopp].
    split; [reflexivity|].
    pose proof (shiftl_floor (Zpos m) e) as Hf.
    split; [|exact Hf].
    apply Z.shiftl_nonneg. lia.
Qed.

Lemma Math_ceil_nonneg (x : number) :
  nonneg_num x ->
  exists n, Math_ceil x = num_of_Z n /\ 0 <= n /\
            (IZR n - 1 < SF2R x <= IZR n)%R.
Proof.
  intros [->|(m & e & -> & Hb)].
  - exists 0. simpl. split; [reflexivity|]. split; [lia|lra].
  - exists (- Z.shiftl (Zneg m) e). cbn [Math_ceil SF2R cond_Zopp negb].
    split; [reflexivity|].
    pose proof (shiftl_floor (Zneg m) e) as Hf.
    change (Zneg m) with (- Zpos m) in Hf at 2 3. rewrite F2R_opp in Hf.
    rewrite opp_IZR.
    pose proof (F2R_lt 0 (Zpos m) e ltac:(lia)) as Hp. rewrite F2R_0 in Hp.
    split; [|lra].
    assert (Z.shiftl (Z.neg m) e < 1) by (apply lt_IZR; lra). lia.
Qed.

End NonNegative.

(** * Exact integer arithmetic: subtraction and halving *)

Section IntegerArithmetic.

Lemma binary_normalize_int (M e n : Z) (sz : bool) :
  F2R M e = IZR n -> Z.abs n < 2 ^ prec -> (M = 0 -> sz = false) ->
  binary_normalize prec emax M e sz = num_of_Z n.
Proof.
  intros Hv Hn Hsz. unfold binary_normalize.
  destruct M as [|q|q].
  - rewrite (Hsz eq_refl). rewrite F2R_0 in Hv.
    assert (n = 0) by (apply eq_IZR; lra). subst n. reflexivity.
  - assert (Hpos : (0 < IZR n)%R).
    { rewrite <- Hv. pose proof (F2R_lt 0 (Zpos q) e ltac:(lia)) as H.
      rewrite F2R_0 in H. exact H. }
    apply lt_IZR in Hpos.
    destruct (binary_round_exact false q e) as (p & e' & H1 & H2 & H3).
    { rewrite Hv. apply representable_Z. lia. }
    rewrite H1. apply finite_is_num_of_Z; [assumption | | assumption].
    cbn [SF2R cond_Zopp]. congruence.
  - change (Zneg q) with (- Zpos q) in Hv. rewrite F2R_opp in Hv.
    assert (Hneg : (IZR n < 0)%R).
    { pose proof (F2R_lt 0 (Zpos q) e ltac:(lia)) as H.
      rewrite F2R_0 in H. lra. }
    apply lt_IZR in Hneg.
    destruct (binary_round_exact true q e) as (p & e' & H1 & H2 & H3).
    { replace (F2R (Zpos q) e) with (IZR (- n)) by (rewrite opp_IZR; lra).
      apply representable_Z. lia. }
    rewrite H1. apply finite_is_num_of_Z; [assumption | | assumption].
    cbn [SF2R cond_Zopp]. rewrite F2R_opp, H3. lra.
Qed.

Lemma num_of_Z_cases (n : Z) :
  Z.abs n < 2 ^ prec ->
  (n = 0 /\ num_of_Z n = S754_zero false) \/
  (exists s p e, num_of_Z n = S754_finite s p e /\
                 SpecFloat.bounded prec emax p e = true /\
                 F2R (cond_Zopp s (Zpos p)) e = IZR n).
Proof.
  intros Hn. destruct (Z.eq_dec n 0) as [->|Hnz]; [left; auto|right].
  destruct (num_of_Z_finite n Hnz Hn) as (p & e & H1 & H2 & H3).
  exists (n <? 0), p, e. split; [assumption|]. split; [assumption|].
  pose proof (SF2R_num_of_Z n Hn) as Hv. rewrite H1 in Hv. exact Hv.
Qed.

(** [a - b] is exact on integers below [2^53]. *)
Lemma num_sub_Z (a b : Z) :
  Z.abs a < 2 ^ prec -> Z.abs b < 2 ^ prec -> Z.abs (a - b) < 2 ^ prec ->
  num_sub (num_of_Z a) (num_of_Z b) = num_of_Z (a - b).
Proof.
  intros Ha Hb Hab.
  destruct (num_of_Z_cases a Ha) as [[-> Hza]|(sa & pa & ea & Hfa & Hba & Hva)];
  destruct (num_of_Z_cases b Hb) as [[-> Hzb]|(sb & pb & eb & Hfb & Hbb & Hvb)].
  - reflexivity.
  - rewrite Hza, Hfb. cbn [num_sub SFsub].
    apply finite_is_num_of_Z; [assumption | | assumption].
    cbn [SF2R]. replace (0 - b) with (- b) by lia. rewrite opp_IZR, <- Hvb.
    destruct sb; cbn [negb cond_Zopp]; rewrite ?F2R_opp; lra.
  - rewrite Hzb, Hfa. cbn [num_sub SFsub]. rewrite <- Hfa. f_equal. lia.
  - rewrite Hfa, Hfb. cbn [num_sub SFsub].
    destruct (shl_align_spec pa ea (Z.min ea eb)) as (Hv1 & He1 & Hm1).
    destruct (shl_align_spec pb eb (Z.min ea eb)) as (Hv2 & He2 & Hm2).
    set (ez := Z.min ea eb) in *.
    replace (Z.min ea ez) with ez in * by (subst ez; lia).
    replace (Z.min eb ez) with ez in * by (subst ez; lia).
    set (ma := fst (shl_align pa ea ez)) in *.
    set (mb := fst (shl_align pb eb ez)) in *.
    rewrite He1 in Hv1. rewrite He2 in Hv2.
    assert (HF : F2R (cond_Zopp sa (Zpos ma) - cond_Zopp sb (Zpos mb)) ez
                 = IZR (a - b)).
    { rewrite minus_IZR, <- Hva, <- Hvb. unfold F2R in *.
      rewrite minus_IZR.
      destruct sa, sb; cbn [cond_Zopp] in *; rewrite ?opp_IZR in *; lra. }
    apply binary_normalize_int; [exact HF | assumption | reflexivity].
Qed.

Lemma two_finite : two = S754_finite false 4503599627370496 (-51).
Proof. reflexivity. Qed.

(** [Math.floor(k / 2)] is the integer quotient rounded down. *)
Lemma Math_floor_half (k : Z) :
  Z.abs k < 2 ^ prec ->
  Math_floor (num_div (num_of_Z k) two) = num_of_Z (k / 2).
Proof.
  intros Hk.
  destruct (num_of_Z_cases k Hk) as [[-> Hz]|(s & p & e & Hf & Hb & Hv)].
  - reflexivity.
  - rewrite Hf, two_finite.
    destruct (num_div_finite_spec s false p 4503599627370496 e (-51))
      as (m & e' & Hr & Hc & Hdown & Hup).
    assert (H2 : F2R 4503599627370496 (-51) = 2%R).
    { unfold F2R, bpow. simpl. lra. }
    rewrite H2 in *.
    assert (Hpos : (0 < F2R (Zpos p) e)%R).
    { pose proof (F2R_lt 0 (Zpos p) e ltac:(lia)) as H. rewrite F2R_0 in H. exact H. }
    assert (Habs : F2R (Zpos p) e = IZR (Z.abs k)).
    { destruct s; cbn [cond_Zopp] in Hv; rewrite ?F2R_opp in Hv.
      - assert (k < 0) by (apply lt_IZR; lra).
        replace (Z.abs k) with (- k) by lia. rewrite opp_IZR. lra.
      - assert (0 < k) by (apply lt_IZR; lra).
        replace (Z.abs k) with k by lia. lra. }
    assert (Hrep : representable (F2R (Zpos p) e / 2)).
    { exists (Z.abs k), (-1). split; [|split; [lia | unfold emin, emax, prec; lia]].
      rewrite Habs. unfold F2R, bpow. simpl. lra. }
    pose proof (Hdown _ Hrep (Rle_refl _)) as Hd.
    pose proof (Hup _ Hrep (Rle_refl _)) as Hu.
    destruct (round_result_finite (xorb s false) m e' _ Hc Hrep Hu)
      as [[-> _]|(q & -> & Hres & Hbq)].
    { rewrite F2R_0 in Hd. lra. }
    rewrite Hr, Hres. rewrite xorb_false_r.
    assert (Hq : F2R (cond_Zopp s (Zpos q)) e' = (IZR k / 2)%R).
    { assert (F2R (Zpos q) e' = (F2R (Zpos p) e / 2)%R) by lra.
      destruct s; cbn [cond_Zopp] in *; rewrite ?F2R_opp in *; lra. }
    cbn [Math_floor].
    pose proof (shiftl_floor (cond_Zopp s (Zpos q)) e') as Hfl.
    rewrite Hq in Hfl.
    set (n := Z.shiftl (cond_Zopp s (Zpos q)) e') in *.
    assert (Hn : n = k / 2).
    { assert (2 * n <= k) by (apply le_IZR; rewrite mult_IZR; lra).
      assert (k < 2 * n + 2) by (apply lt_IZR; rewrite plus_IZR, mult_IZR; lra).
      apply (Z.div_unique k 2 n (k - 2 * n)); lia. }
    rewrite Hn.
    assert (Hs : k / 2 = 0 -> s = false).
    { intros H0. destruct s; [|reflexivity].
      cbn [cond_Zopp] in Hv. rewrite F2R_opp in Hv.
      assert (k < 0) by (apply lt_IZR; lra).
      pose proof (Z.div_lt_upper_bound k 2 0 ltac:(lia) ltac:(lia)). lia. }
    unfold num_of_Z. destruct (k / 2) as [| |] eqn:Hk2; cbn [binary_normalize].
    + rewrite (Hs eq_refl). reflexivity.
    + destruct s; [|reflexivity].
      cbn [cond_Zopp] in Hv. rewrite F2R_opp in Hv.
      assert (k < 0) by (apply lt_IZR; lra).
      pose proof (Z.div_lt_upper_bound k 2 0 ltac:(lia) ltac:(lia)). lia.
    + destruct s; [reflexivity|].
      cbn [cond_Zopp] in Hv.
      assert (0 < k) by (apply lt_IZR; lra).
      pose proof (Z.div_pos k 2 ltac:(lia) ltac:(lia)). lia.
Qed.

End IntegerArithmetic.

(** * The aspect ratios and the scaled dimensions *)

Section AspectRatios.

Variables srcW srcH targetW targetH : Z.
Hypothesis HsrcW : 0 < srcW < 2 ^ 32.
Hypothesis HsrcH : 0 < srcH < 2 ^ 32.
Hypothesis HtargetW : 1 <= targetW <= 8000.
Hypothesis HtargetH : 1 <= targetH <= 8000.

Lemma pow2_prec : 2 ^ prec = 9007199254740992.
Proof. reflexivity. Qed.

Lemma aspect_floor_bounds :
  aspect_floor targetW targetH * targetH <= targetW * 2 ^ 30
    < (aspect_floor targetW targetH + 1) * targetH /\
  16000 <= aspect_floor targetW targetH <= 8000 * 2 ^ 30.
Proof.
  unfold aspect_floor.
  pose proof (Z.div_mod (targetW * 2 ^ 30) targetH ltac:(lia)) as Hdm.
  pose proof (Z.mod_pos_bound (targetW * 2 ^ 30) targetH ltac:(lia)) as Hmod.
  set (q := targetW * 2 ^ 30 / targetH) in *.
  set (r := (targetW * 2 ^ 30) mod targetH) in *.
  change (2 ^ 30) with 1073741824 in *.
  split; [nia|]. split.
  - assert (134217 * targetH <= targetW * 1073741824) by nia.
    assert (134217 <= q) by (subst q; apply Z.div_le_lower_bound; lia).
    lia.
  - assert (q <= targetW * 1073741824) by (subst q; apply Z.div_le_upper_bound; nia).
    lia.
Qed.

Lemma representable_dyadic (n j : Z) :
  0 <= n < 2 ^ prec -> 0 <= j <= 1074 -> representable (IZR n / IZR (2 ^ j)).
Proof.
  intros Hn Hj. exists n, (- j). split; [|split; [assumption|]].
  - unfold F2R. assert (Hb : (bpow (- j) * IZR (2 ^ j) = 1)%R).
    { rewrite <- bpow_Z by lia. rewrite <- bpow_plus.
      replace (- j + j) with 0 by lia. apply bpow_0. }
    assert (HP : (0 < IZR (2 ^ j))%R).
    { apply IZR_lt. apply Z.pow_pos_nonneg; lia. }
    assert (Hinv : bpow (- j) = (/ IZR (2 ^ j))%R).
    { apply (Rmult_eq_reg_r (IZR (2 ^ j))); [|lra]. rewrite Hb. field. lra. }
    rewrite Hinv. reflexivity.
  - unfold emin, emax, prec. lia.
Qed.

Lemma pos_num_of_dim (n : Z) :
  0 < n < 2 ^ 32 -> pos_num (num_of_Z n) /\ SF2R (num_of_Z n) = IZR n.
Proof.
  intros Hn. apply num_of_Z_pos. rewrite pow2_prec.
  change (2 ^ 32) with 4294967296 in Hn. lia.
Qed.

Lemma target_lt_pow32 (n : Z) : 1 <= n <= 8000 -> 0 < n < 2 ^ 32.
Proof. change (2 ^ 32) with 4294967296. lia. Qed.

Lemma srcAR_spec :
  pos_num (aspect srcW srcH) /\
  (/ 4294967296 <= SF2R (aspect srcW srcH) <= 4294967296)%R.
Proof.
  destruct (pos_num_of_dim srcW HsrcW) as [Hpw Hvw].
  destruct (pos_num_of_dim srcH HsrcH) as [Hph Hvh].
  assert (Hlo : representable (/ 4294967296)).
  { replace (/ 4294967296)%R with (IZR 1 / IZR (2 ^ 32))%R
      by (change (2 ^ 32) with 4294967296; lra).
    apply representable_dyadic; [rewrite pow2_prec|]; lia. }
  assert (Hhi : representable 4294967296).
  { apply (representable_Z 4294967296). rewrite pow2_prec. lia. }
  change (2 ^ 32) with 4294967296 in *.
  assert (Hw : (1 <= IZR srcW <= 4294967296)%R) by (split; apply IZR_le; lia).
  assert (Hh : (1 <= IZR srcH <= 4294967296)%R) by (split; apply IZR_le; lia).
  destruct (num_div_pos _ _ _ _ Hpw Hph Hlo Hhi) as [Hn Hv].
  { rewrite Hvw, Hvh. split.
    - apply (Rmult_le_reg_r (IZR srcH)); [lra|]. field_simplify; lra.
    - apply (Rmult_le_reg_r (IZR srcH)); [lra|]. field_simplify; nra. }
  split; [|exact Hv].
  apply nonneg_num_pos; [exact Hn|]. unfold aspect. lra.
Qed.

Lemma dstAR_spec :
  nonneg_num (aspect targetW targetH) /\
  (IZR (aspect_floor targetW targetH) / 1073741824
     <= SF2R (aspect targetW targetH)
     <= IZR (aspect_floor targetW targetH + 1) / 1073741824)%R.
Proof.
  destruct (pos_num_of_dim targetW (target_lt_pow32 _ HtargetW)) as [Hpw Hvw].
  destruct (pos_num_of_dim targetH (target_lt_pow32 _ HtargetH)) as [Hph Hvh].
  destruct aspect_floor_bounds as [[Hk1 Hk2] Hk3].
  change (2 ^ 30) with 1073741824 in *.
  assert (Hlo : representable (IZR (aspect_floor targetW targetH) / 1073741824)).
  { apply (representable_dyadic (aspect_floor targetW targetH) 30);
      [rewrite pow2_prec|]; lia. }
  assert (Hhi : representable (IZR (aspect_floor targetW targetH + 1) / 1073741824)).
  { apply (representable_dyadic (aspect_floor targetW targetH + 1) 30);
      [rewrite pow2_prec|]; lia. }
  apply num_div_pos; try assumption.
  rewrite Hvw, Hvh.
  assert (Hh : (1 <= IZR targetH)%R) by (apply IZR_le; lia).
  apply IZR_le in Hk1. apply IZR_lt in Hk2.
  rewrite !mult_IZR in *. rewrite plus_IZR in *.
  split.
  - apply (Rmult_le_reg_r (IZR targetH)); [lra|]. field_simplify; lra.
  - apply (Rmult_le_reg_r (IZR targetH)); [lra|]. field_simplify; lra.
Qed.

(** The real-number facts shared by the four branches. *)
Lemma ratio_facts :
  let a := SF2R (aspect srcW srcH) in
  let d := SF2R (aspect targetW targetH) in
  let K := IZR (aspect_floor targetW targetH) in
  pos_num (aspect srcW srcH) /\ nonneg_num (aspect targetW targetH) /\
  pos_num (num_of_Z targetW) /\ pos_num (num_of_Z targetH) /\
  SF2R (num_of_Z targetW) = IZR targetW /\
  SF2R (num_of_Z targetH) = IZR targetH /\
  (/ 4294967296 <= a <= 4294967296)%R /\
  (K / 1073741824 <= d <= (K + 1) / 1073741824)%R /\
  (1 <= IZR targetW <= 8000)%R /\ (1 <= IZR targetH <= 8000)%R /\
  (16000 <= K)%R /\
  (K * IZR targetH <= IZR targetW * 1073741824)%R /\
  (IZR targetW * 1073741824 + 1 <= (K + 1) * IZR targetH)%R.
Proof.
  intros a d K.
  destruct srcAR_spec as [Hps Ha]. destruct dstAR_spec as [Hnd Hd].
  destruct (pos_num_of_dim targetW (target_lt_pow32 _ HtargetW)) as [Hpw Hvw].
  destruct (pos_num_of_dim targetH (target_lt_pow32 _ HtargetH)) as [Hph Hvh].
  destruct aspect_floor_bounds as [[Hk1 Hk2] [Hk3 _]].
  change (2 ^ 30) with 1073741824 in *.
  rewrite plus_IZR in Hd.
  repeat split; try assumption; try (apply IZR_le; lia); try apply Ha; try apply Hd.
  - subst K. rewrite <- !mult_IZR. apply IZR_le. lia.
  - subst K. rewrite <- (plus_IZR _ 1), <- !mult_IZR, <- plus_IZR. apply IZR_le. lia.
Qed.

Lemma ceil_bounds (x : number) (lo hi : Z) :
  nonneg_num x -> (IZR lo - 1 / 2 <= SF2R x <= IZR hi)%R ->
  exists n, Math_ceil x = num_of_Z n /\ 0 <= n /\ lo <= n <= hi.
Proof.
  intros Hx [H1 H2].
  destruct (Math_ceil_nonneg x Hx) as (n & Hn & Hn0 & Hn1 & Hn2).
  exists n. split; [assumption|]. split; [assumption|]. split.
  - assert (lo - 1 < n) by (apply lt_IZR; rewrite minus_IZR; lra). lia.
  - assert (n - 1 < hi) by (apply lt_IZR; rewrite minus_IZR; lra). lia.
Qed.

Lemma floor_bounds (x : number) (hi : Z) :
  nonneg_num x -> (SF2R x <= IZR hi + 1 / 2)%R ->
  exists n, Math_floor x = num_of_Z n /\ 0 <= n <= hi.
Proof.
  intros Hx H2.
  destruct (Math_floor_nonneg x Hx) as (n & Hn & Hn0 & Hn1 & Hn2).
  exists n. split; [assumption|]. split; [assumption|].
  assert (n < hi + 1) by (apply lt_IZR; rewrite plus_IZR; lra). lia.
Qed.

Lemma representable_half (n : Z) :
  0 <= n < 2 ^ prec -> representable (IZR n / 2).
Proof. intros Hn. apply (representable_dyadic n 1); [assumption|lia]. Qed.

(** cover, source wider: [Math.ceil(targetH * srcAR)] reaches [targetW]. *)
Lemma scaled_cover_wide :
  num_gt (aspect srcW srcH) (aspect targetW targetH) = true ->
  exists n, Math_ceil (num_mul (num_of_Z targetH) (aspect srcW srcH))
              = num_of_Z n /\
            targetW <= n <= targetH * 2 ^ 32.
Proof.
  intros Hgt.
  destruct ratio_facts as
    (Hps & Hnd & Hpw & Hph & Hvw & Hvh & Ha & Hd & HW & HH & HK & Hk1 & Hk2).
  apply num_gt_spec in Hgt; [|apply pos_num_nonneg; assumption | assumption].
  set (a := SF2R (aspect srcW srcH)) in *.
  set (d := SF2R (aspect targetW targetH)) in *.
  set (K := IZR (aspect_floor targetW targetH)) in *.
  change (2 ^ 32) with 4294967296.
  destruct (num_mul_pos (num_of_Z targetH) (aspect srcW srcH)
              (IZR (2 * targetW - 1) / 2) (IZR (targetH * 4294967296)))
    as [Hn Hv]; try assumption.
  { apply representable_half. rewrite pow2_prec. lia. }
  { apply representable_Z. rewrite pow2_prec. lia. }
  { rewrite Hvh. fold a. rewrite minus_IZR, !mult_IZR. split.
    - assert (IZR targetH * (K / 1073741824) <= IZR targetH * a)%R
        by (apply Rmult_le_compat_l; lra).
      lra.
    - assert (IZR targetH * a <= IZR targetH * 4294967296)%R
        by (apply Rmult_le_compat_l; lra).
      lra. }
  destruct (ceil_bounds _ targetW (targetH * 4294967296) Hn) as (n & Hc & _ & Hb).
  { rewrite minus_IZR, mult_IZR in Hv. lra. }
  exists n. auto.
Qed.

(** contain, source not wider: [Math.floor(targetH * srcAR)] stays within
    [targetW]. *)
Lemma scaled_contain_tall :
  num_gt (aspect srcW srcH) (aspect targetW targetH) = false ->
  exists n, Math_floor (num_mul (num_of_Z targetH) (aspect srcW srcH))
              = num_of_Z n /\
            0 <= n <= targetW.
Proof.
  intros Hgt.
  destruct ratio_facts as
    (Hps & Hnd & Hpw & Hph & Hvw & Hvh & Ha & Hd & HW & HH & HK & Hk1 & Hk2).
  assert (Hle : (SF2R (aspect srcW srcH) <= SF2R (aspect targetW targetH))%R).
  { apply Rnot_lt_le. intros Hlt.
    apply num_gt_spec in Hlt;
      [congruence | apply pos_num_nonneg; assumption | assumption]. }
  set (a := SF2R (aspect srcW srcH)) in *.
  set (d := SF2R (aspect targetW targetH)) in *.
  set (K := IZR (aspect_floor targetW targetH)) in *.
  destruct (num_mul_pos (num_of_Z targetH) (aspect srcW srcH)
              0 (IZR (2 * targetW + 1) / 2))
    as [Hn Hv]; try assumption.
  { apply representable_0. }
  { apply representable_half. rewrite pow2_prec. lia. }
  { rewrite Hvh. fold a. rewrite plus_IZR, !mult_IZR. split.
    - apply Rmult_le_pos; lra.
    - assert (IZR targetH * a <= IZR targetH * ((K + 1) / 1073741824))%R
        by (apply Rmult_le_compat_l; lra).
      lra. }
  apply floor_bounds; [assumption|].
  rewrite plus_IZR, mult_IZR in Hv. lra.
Qed.

(** cover, source not wider: [Math.ceil(targetW / srcAR)] reaches
    [targetH]. *)
Lemma scaled_cover_tall :
  num_gt (aspect srcW srcH) (aspect targetW targetH) = false ->
  exists n, Math_ceil (num_div (num_of_Z targetW) (aspect srcW srcH))
              = num_of_Z n /\
            targetH <= n <= targetW * 2 ^ 32.
Proof.
  intros Hgt.
  destruct ratio_facts as
    (Hps & Hnd & Hpw & Hph & Hvw & Hvh & Ha & Hd & HW & HH & HK & Hk1 & Hk2).
  assert (Hle : (SF2R (aspect srcW srcH) <= SF2R (aspect targetW targetH))%R).
  { apply Rnot_lt_le. intros Hlt.
    apply num_gt_spec in Hlt;
      [congruence | apply pos_num_nonneg; assumption | assumption]. }
  set (a := SF2R (aspect srcW srcH)) in *.
  set (d := SF2R (aspect targetW targetH)) in *.
  set (K := IZR (aspect_floor targetW targetH)) in *.
  change (2 ^ 32) with 4294967296.
  assert (Hapos : (0 < a)%R) by lra.
  destruct (num_div_pos (num_of_Z targetW) (aspect srcW srcH)
              (IZR (2 * targetH - 1) / 2) (IZR (targetW * 4294967296)))
    as [Hn Hv]; try assumption.
  { apply representable_half. rewrite pow2_prec. lia. }
  { apply representable_Z. rewrite pow2_prec. lia. }
  { rewrite Hvw. fold a. rewrite minus_IZR, !mult_IZR. split.
    - apply (Rmult_le_reg_r a); [assumption|].
      replace (IZR targetW / a * a)%R with (IZR targetW) by (field; lra).
      assert ((2 * IZR targetH - 1) / 2 * a
              <= (2 * IZR targetH - 1) / 2 * ((K + 1) / 1073741824))%R
        by (apply Rmult_le_compat_l; lra).
      assert (2 * IZR targetH <= K + 1)%R by lra.
      nra.
    - apply (Rmult_le_reg_r a); [assumption|].
      replace (IZR targetW / a * a)%R with (IZR targetW) by (field; lra).
      assert (IZR targetW * 4294967296 * / 4294967296
              <= IZR targetW * 4294967296 * a)%R
        by (apply Rmult_le_compat_l; lra).
      lra. }
  destruct (ceil_bounds _ targetH (targetW * 4294967296) Hn) as (n & Hc & _ & Hb).
  { rewrite minus_IZR, mult_IZR in Hv. lra. }
  exists n. auto.
Qed.

(** contain, source wider: [Math.floor(targetW / srcAR)] stays within
    [targetH]. *)
Lemma scaled_contain_wide :
  num_gt (aspect srcW srcH) (aspect targetW targetH) = true ->
  exists n, Math_floor (num_div (num_of_Z targetW) (aspect srcW srcH))
              = num_of_Z n /\
            0 <= n <= targetH.
Proof.
  intros Hgt.
  destruct ratio_facts as
    (Hps & Hnd & Hpw & Hph & Hvw & Hvh & Ha & Hd & HW & HH & HK & Hk1 & Hk2).
  apply num_gt_spec in Hgt; [|apply pos_num_nonneg; assumption | assumption].
  set (a := SF2R (aspect srcW srcH)) in *.
  set (d := SF2R (aspect targetW targetH)) in *.
  set (K := IZR (aspect_floor targetW targetH)) in *.
  assert (Hapos : (0 < a)%R) by lra.
  destruct (num_div_pos (num_of_Z targetW) (aspect srcW srcH)
              0 (IZR (2 * targetH + 1) / 2))
    as [Hn Hv]; try assumption.
  { apply representable_0. }
  { apply representable_half. rewrite pow2_prec. lia. }
  { rewrite Hvw. fold a. rewrite plus_IZR, !mult_IZR. split.
    - apply Rlt_le, Rdiv_lt_0_compat; lra.
    - apply (Rmult_le_reg_r a); [assumption|].
      replace (IZR targetW / a * a)%R with (IZR targetW) by (field; lra).
      assert ((2 * IZR targetH + 1) / 2 * (K / 1073741824)
              <= (2 * IZR targetH + 1) / 2 * a)%R
        by (apply Rmult_le_compat_l; lra).
      assert (2 * (IZR targetW * 1073741824 - K * IZR targetH) <= K)%R by lra.
      nra. }
  apply floor_bounds; [assumption|].
  rewrite plus_IZR, mult_IZR in Hv. lra.
Qed.

End AspectRatios.

(** * The geometry of each branch on integer dimensions *)

Section Geometry.

Variables srcW srcH targetW targetH : Z.
Hypothesis HsrcW : 0 < srcW < 2 ^ 32.
Hypothesis HsrcH : 0 < srcH < 2 ^ 32.
Hypothesis HtargetW : 1 <= targetW <= 8000.
Hypothesis HtargetH : 1 <= targetH <= 8000.

(** The centring offset [Math.floor((t - n) / 2)] is computed exactly. *)
Lemma offset_Z (t n : Z) :
  1 <= t <= 8000 -> 0 <= n <= 8000 * 2 ^ 32 ->
  Math_floor (num_div (num_sub (num_of_Z t) (num_of_Z n)) two)
    = num_of_Z ((t - n) / 2).
Proof.
  intros Ht Hn. change (2 ^ 32) with 4294967296 in Hn.
  rewrite num_sub_Z by (rewrite pow2_prec; lia).
  apply Math_floor_half. rewrite pow2_prec. lia.
Qed.

Lemma compose_cover_wide :
  num_gt (aspect srcW srcH) (aspect targetW targetH) = true ->
  exists n, targetW <= n <= targetH * 2 ^ 32 /\
    composeZ srcW srcH targetW targetH true cover
      = geometryZ n targetH ((targetW - n) / 2) 0.
Proof.
  intros Hgt.
  destruct (scaled_cover_wide srcW srcH targetW targetH) as (n & Hc & Hb);
    try assumption.
  exists n. split; [assumption|].
  unfold aspect in *. unfold composeZ, compose, geometryZ. cbn [negb].
  rewrite Hgt, Hc, offset_Z by (change (2 ^ 32) with 4294967296 in *; lia).
  reflexivity.
Qed.

Lemma compose_cover_tall :
  num_gt (aspect srcW srcH) (aspect targetW targetH) = false ->
  exists n, targetH <= n <= targetW * 2 ^ 32 /\
    composeZ srcW srcH targetW targetH true cover
      = geometryZ targetW n 0 ((targetH - n) / 2).
Proof.
  intros Hgt.
  destruct (scaled_cover_tall srcW srcH targetW targetH) as (n & Hc & Hb);
    try assumption.
  exists n. split; [assumption|].
  unfold aspect in *. unfold composeZ, compose, geometryZ. cbn [negb].
  rewrite Hgt, Hc, offset_Z by (change (2 ^ 32) with 4294967296 in *; lia).
  reflexivity.
Qed.

Lemma compose_contain_wide :
  num_gt (aspect srcW srcH) (aspect targetW targetH) = true ->
  exists n, 0 <= n <= targetH /\
    composeZ srcW srcH targetW targetH true contain
      = geometryZ targetW n 0 ((targetH - n) / 2).
Proof.
  intros Hgt.
  destruct (scaled_contain_wide srcW srcH targetW targetH) as (n & Hc & Hb);
    try assumption.
  exists n. split; [assumption|].
  unfold aspect in *. unfold composeZ, compose, geometryZ. cbn [negb].
  rewrite Hgt, Hc, offset_Z by (change (2 ^ 32) with 4294967296 in *; lia).
  reflexivity.
Qed.

Lemma compose_contain_tall :
  num_gt (aspect srcW srcH) (aspect targetW targetH) = false ->
  exists n, 0 <= n <= targetW /\
    composeZ srcW srcH targetW targetH true contain
      = geometryZ n targetH ((targetW - n) / 2) 0.
Proof.
  intros Hgt.
  destruct (scaled_contain_tall srcW srcH targetW targetH) as (n & Hc & Hb);
    try assumption.
  exists n. split; [assumption|].
  unfold aspect in *. unfold composeZ, compose, geometryZ. cbn [negb].
  rewrite Hgt, Hc, offset_Z by (change (2 ^ 32) with 4294967296 in *; lia).
  reflexivity.
Qed.

(** Both [contain] branches at once: the drawn size is within the target,
    one side matches it, and the image is centred. *)
Lemma contain_geometry_bounds :
  exists w h,
    composeZ srcW srcH targetW targetH true contain
      = geometryZ w h ((targetW - w) / 2) ((targetH - h) / 2) /\
    0 <= w <= targetW /\ 0 <= h <= targetH /\
    (w = targetW \/ h = targetH).
Proof.
  destruct (num_gt (aspect srcW srcH) (aspect targetW targetH)) eqn:Hgt.
  - destruct (compose_contain_wide Hgt) as (n & Hn & Hg).
    exists targetW, n. rewrite Z.sub_diag. change (0 / 2) with 0.
    split; [exact Hg|]. lia.
  - destruct (compose_contain_tall Hgt) as (n & Hn & Hg).
    exists n, targetH. rewrite Z.sub_diag. change (0 / 2) with 0.
    split; [exact Hg|]. lia.
Qed.

(** Both [cover] branches at once: the drawn size reaches the target, one
    side matches it, and the image is centred. *)
Lemma cover_geometry_bounds :
  exists w h,
    composeZ srcW srcH targetW targetH true cover
      = geometryZ w h ((targetW - w) / 2) ((targetH - h) / 2) /\
    targetW <= w /\ targetH <= h /\
    (w = targetW \/ h = targetH).
Proof.
  destruct (num_gt (aspect srcW srcH) (aspect targetW targetH)) eqn:Hgt.
  - destruct (compose_cover_wide Hgt) as (n & Hn & Hg).
    exists n, targetH. rewrite Z.sub_diag. change (0 / 2) with 0.
    split; [exact Hg|]. lia.
  - destruct (compose_cover_tall Hgt) as (n & Hn & Hg).
    exists targetW, n. rewrite Z.sub_diag. change (0 / 2) with 0.
    split; [exact Hg|]. lia.
Qed.

End Geometry.

(** * Clamping the requested size *)

Section Clamp.

Lemma SFcompare_neg (m1 m2 : positive) (e1 e2 : Z) :
  SFcompare (S754_finite true m1 e1) (S754_finite true m2 e2)
    = option_map CompOpp
        (SFcompare (S754_finite false m1 e1) (S754_finite false m2 e2)).
Proof.
  cbn [SFcompare]. destruct (e1 ?= e2); reflexivity.
Qed.

(** [<] on integers below [2^53] is [<] on their numbers. *)
Lemma num_of_Z_ltb (a b : Z) :
  Z.abs a < 2 ^ prec -> Z.abs b < 2 ^ prec ->
  SFltb (num_of_Z a) (num_of_Z b) = (a <? b).
Proof.
  intros Ha Hb.
  assert (Hpos : forall p e, (0 < F2R (Zpos p) e)%R).
  { intros p e. pose proof (F2R_lt 0 (Zpos p) e ltac:(lia)) as H.
    rewrite F2R_0 in H. exact H. }
  destruct (num_of_Z_cases a Ha) as [[-> Hza]|(sa & pa & ea & Hfa & Hba & Hva)];
  destruct (num_of_Z_cases b Hb) as [[-> Hzb]|(sb & pb & eb & Hfb & Hbb & Hvb)].
  - reflexivity.
  - rewrite Hza, Hfb. unfold SFltb. cbn [SFcompare].
    specialize (Hpos pb eb).
    destruct sb; cbn [cond_Zopp] in Hvb; rewrite ?F2R_opp in Hvb; symmetry.
    + apply Z.ltb_ge. apply le_IZR. lra.
    + apply Z.ltb_lt. apply lt_IZR. lra.
  - rewrite Hzb, Hfa. unfold SFltb. cbn [SFcompare].
    specialize (Hpos pa ea).
    destruct sa; cbn [cond_Zopp] in Hva; rewrite ?F2R_opp in Hva; symmetry.
    + apply Z.ltb_lt. apply lt_IZR. lra.
    + apply Z.ltb_ge. apply le_IZR. lra.
  - rewrite Hfa, Hfb. unfold SFltb.
    pose proof (Hpos pa ea) as Hpa. pose proof (Hpos pb eb) as Hpb.
    destruct sa, sb; cbn [cond_Zopp] in Hva, Hvb;
      rewrite ?F2R_opp in Hva; rewrite ?F2R_opp in Hvb.
    + rewrite SFcompare_neg.
      pose proof (SFcompare_pos_spec pa pb ea eb Hba Hbb) as Hc.
      destruct (SFcompare (S754_finite false pa ea) (S754_finite false pb eb))
        as [[ | | ]|]; try contradiction; cbn [option_map CompOpp]; symmetry.
      * apply Z.ltb_ge. apply le_IZR. lra.
      * apply Z.ltb_ge. apply le_IZR. lra.
      * apply Z.ltb_lt. apply lt_IZR. lra.
    + cbn [SFcompare]. symmetry. apply Z.ltb_lt. apply lt_IZR. lra.
    + cbn [SFcompare]. symmetry. apply Z.ltb_ge. apply le_IZR. lra.
    + pose proof (SFcompare_pos_spec pa pb ea eb Hba Hbb) as Hc.
      destruct (SFcompare (S754_finite false pa ea) (S754_finite false pb eb))
        as [[ | | ]|]; try contradiction; symmetry.
      * apply Z.ltb_ge. apply le_IZR. lra.
      * apply Z.ltb_lt. apply lt_IZR. lra.
      * apply Z.ltb_ge. apply le_IZR. lra.
Qed.

Lemma num_of_Z_not_nan (n : Z) :
  Z.abs n < 2 ^ prec -> num_of_Z n <> S754_nan.
Proof.
  intros Hn. destruct (num_of_Z_cases n Hn) as [[_ ->]|(s & p & e & -> & _)];
    discriminate.
Qed.

Lemma Math_max_Z (a b : Z) :
  Z.abs a < 2 ^ prec -> Z.abs b < 2 ^ prec ->
  Math_max (num_of_Z a) (num_of_Z b) = num_of_Z (Z.max a b).
Proof.
  intros Ha Hb. pose proof (num_of_Z_ltb a b Ha Hb) as Hlt.
  destruct (num_of_Z_cases a Ha) as [[-> Hza]|(sa & pa & ea & Hfa & _)];
  destruct (num_of_Z_cases b Hb) as [[-> Hzb]|(sb & pb & eb & Hfb & _)];
    try reflexivity.
  - rewrite Hza, Hfb in *. unfold Math_max. rewrite Hlt, <- Hfb.
    destruct (Z.ltb_spec 0 b); [f_equal; lia|].
    replace (Z.max 0 b) with 0 by lia. reflexivity.
  - rewrite Hzb, Hfa in *. unfold Math_max. rewrite Hlt, <- Hfa.
    destruct (Z.ltb_spec a 0); [replace (Z.max a 0) with 0 by lia; reflexivity|].
    f_equal. lia.
  - rewrite Hfa, Hfb in *. unfold Math_max. rewrite Hlt, <- Hfa, <- Hfb.
    destruct (Z.ltb_spec a b); f_equal; lia.
Qed.

Lemma Math_min_Z (a b : Z) :
  Z.abs a < 2 ^ prec -> Z.abs b < 2 ^ prec ->
  Math_min (num_of_Z a) (num_of_Z b) = num_of_Z (Z.min a b).
Proof.
  intros Ha Hb. pose proof (num_of_Z_ltb b a Hb Ha) as Hlt.
  destruct (num_of_Z_cases a Ha) as [[-> Hza]|(sa & pa & ea & Hfa & _)];
  destruct (num_of_Z_cases b Hb) as [[-> Hzb]|(sb & pb & eb & Hfb & _)];
    try reflexivity.
  - rewrite Hza, Hfb in *. unfold Math_min. rewrite Hlt, <- Hfb.
    destruct (Z.ltb_spec b 0); [f_equal; lia|].
    replace (Z.min 0 b) with 0 by lia. reflexivity.
  - rewrite Hzb, Hfa in *. unfold Math_min. rewrite Hlt, <- Hfa.
    destruct (Z.ltb_spec 0 a); [replace (Z.min a 0) with 0 by lia; reflexivity|].
    f_equal. lia.
  - rewrite Hfa, Hfb in *. unfold Math_min. rewrite Hlt, <- Hfa, <- Hfb.
    destruct (Z.ltb_spec b a); f_equal; lia.
Qed.

Lemma Math_floor_Z (n : Z) :
  Z.abs n < 2 ^ prec -> Math_floor (num_of_Z n) = num_of_Z n.
Proof.
  intros Hn.
  destruct (num_of_Z_cases n Hn) as [[-> Hz]|(s & p & e & Hf & Hb & Hv)];
    [reflexivity|].
  rewrite Hf. cbn [Math_floor].
  pose proof (shiftl_floor (cond_Zopp s (Zpos p)) e) as Hfl. rewrite Hv in Hfl.
  assert (Hk : Z.shiftl (cond_Zopp s (Zpos p)) e = n).
  { destruct Hfl as [H1 H2].
    apply le_IZR in H1. rewrite <- (plus_IZR _ 1) in H2. apply lt_IZR in H2. lia. }
  rewrite Hk, <- Hf. unfold num_of_Z.
  assert (Hnz : n <> 0).
  { intros ->. pose proof (F2R_lt 0 (Zpos p) e ltac:(lia)) as H.
    rewrite F2R_0 in H.
    destruct s; cbn [cond_Zopp] in Hv; rewrite ?F2R_opp in Hv; lra. }
  destruct n; [congruence|reflexivity|reflexivity].
Qed.

(** An integer request is clamped to [[1, 8000]]: the targets the
    compositor receives. *)
Lemma clamp_dimension_Z (n : Z) :
  Z.abs n < 2 ^ prec ->
  clamp_dimension (num_of_Z n) = num_of_Z (Z.max 1 (Z.min 8000 n)) /\
  1 <= Z.max 1 (Z.min 8000 n) <= 8000.
Proof.
  intros Hn. split; [|lia]. unfold clamp_dimension.
  rewrite pow2_prec in Hn.
  rewrite Math_floor_Z, Math_min_Z, Math_max_Z by (rewrite pow2_prec; lia).
  reflexivity.
Qed.

Example clamp_fraction :
  clamp_dimension (num_div (num_of_Z 1025) two) = num_of_Z 512 /\
  clamp_dimension (num_of_Z 9000) = num_of_Z 8000 /\
  clamp_dimension (num_of_Z (-3)) = num_of_Z 1 /\
  clamp_dimension S754_nan = S754_nan.
Proof. repeat split; vm_compute; reflexivity. Qed.

End Clamp.

(** * The compositor: properties *)

Section CompositorClaims.

(** The comparison is strict: equal aspect ratios fail [srcAR > dstAR], so
    both policies take their else branch. *)
Lemma num_eq_not_gt (a b : number) : num_eq a b = true -> num_gt a b = false.
Proof.
  unfold num_eq, num_gt, SFeqb, SFltb.
  destruct a as [sa|sa| |sa ma ea], b as [sb|sb| |sb mb eb];
    try (destruct sa); try (destruct sb); cbn [SFcompare];
    try discriminate; try reflexivity.
  - destruct (Z.compare_spec ea eb) as [He|He|He]; try discriminate.
    subst eb. rewrite Z.compare_refl.
    destruct (Pos.compare_cont Eq ma mb) eqn:Hm; try discriminate.
    apply Pos.compare_eq in Hm. subst mb.
    change (Pos.compare_cont Eq ma ma) with (Pos.compare ma ma).
    rewrite Pos.compare_refl. reflexivity.
  - destruct (Z.compare_spec ea eb) as [He|He|He]; try discriminate.
    subst eb. rewrite Z.compare_refl.
    destruct (Pos.compare_cont Eq ma mb) eqn:Hm; try discriminate.
    apply Pos.compare_eq in Hm. subst mb.
    change (Pos.compare_cont Eq ma ma) with (Pos.compare ma ma).
    rewrite Pos.compare_refl. reflexivity.
Qed.

(** C1.  The claim: with [maintainAspect] true the geometry is exactly the
    one the branch formulas give, [ceil(target.width / srcAspect)] and the
    like.  The code breaks it where the exact scaled side is a whole number:
    for a 1x49 source in a 1x49 target the formulas give 1x49 at (0, 0) for
    both policies (equal aspect ratios, so the else branch: [ceil(1 / (1 /
    49)) = 49] and [floor(49 * (1 / 49)) = 1]), while the code, which rounds
    [1 / 49] first, draws 1x50 at (0, -1) for [cover] and 0x49 for
    [contain]. *)
Theorem compose_departs_from_branch_formulas :
  branch_formulas 1 49 1 49 cover = geometryZ 1 49 0 0 /\
  composeZ 1 49 1 49 true cover = geometryZ 1 50 0 (-1) /\
  branch_formulas 1 49 1 49 contain = geometryZ 1 49 0 0 /\
  composeZ 1 49 1 49 true contain = geometryZ 0 49 0 0 /\
  composeZ 1 49 1 49 true cover <> branch_formulas 1 49 1 49 cover /\
  composeZ 1 49 1 49 true contain <> branch_formulas 1 49 1 49 contain.
Proof.
  split; [vm_compute; reflexivity|].
  split; [vm_compute; reflexivity|].
  split; [vm_compute; reflexivity|].
  split; [vm_compute; reflexivity|].
  split; vm_compute; discriminate.
Qed.

(** The same slip away from equal aspect ratios: a 1x49 source in a 2x49
    target is relatively taller, the formulas give [drawWidth = floor(49 / 49)
    = 1], and the code draws nothing. *)
Example contain_loses_the_pixel_2x49 :
  branch_formulas 1 49 2 49 contain = geometryZ 1 49 0 0 /\
  composeZ 1 49 2 49 true contain = geometryZ 0 49 1 0.
Proof. split; vm_compute; reflexivity. Qed.

(** C2. For a source with positive width and height and a clamped integer
    target, the [contain] geometry fits inside the target: both offsets are
    non-negative, [offsetX + drawWidth <= target.width], [offsetY + drawHeight
    <= target.height], and [drawWidth = target.width] or [drawHeight =
    target.height].  The source dimensions are [img.width] and [img.height],
    unsigned 32-bit attributes of the image element. *)
Theorem contain_fits_within_target (srcW srcH targetW targetH : Z) :
  0 < srcW < 2 ^ 32 -> 0 < srcH < 2 ^ 32 ->
  1 <= targetW <= 8000 -> 1 <= targetH <= 8000 ->
  exists w h x y,
    composeZ srcW srcH targetW targetH true contain = geometryZ w h x y /\
    0 <= w /\ 0 <= h /\
    0 <= x /\ 0 <= y /\ x + w <= targetW /\ y + h <= targetH /\
    (w = targetW \/ h = targetH).
Proof.
  intros HsW HsH HtW HtH.
  destruct (contain_geometry_bounds srcW srcH targetW targetH HsW HsH HtW HtH)
    as (w & h & Hg & Hw & Hh & Hor).
  exists w, h, ((targetW - w) / 2), ((targetH - h) / 2).
  split; [exact Hg|].
  repeat split; try lia; try (apply Z.div_pos; lia).
  - assert ((targetW - w) / 2 <= targetW - w)
      by (apply Z.div_le_upper_bound; lia).
    lia.
  - assert ((targetH - h) / 2 <= targetH - h)
      by (apply Z.div_le_upper_bound; lia).
    lia.
Qed.

Lemma contain_fits_within_target_witness :
  (0 < 1000 < 2 ^ 32 /\ 0 < 500 < 2 ^ 32 /\ 1 <= 512 <= 8000) /\
  exists w h x y,
    composeZ 1000 500 512 512 true contain = geometryZ w h x y /\
    0 <= w /\ 0 <= h /\
    0 <= x /\ 0 <= y /\ x + w <= 512 /\ y + h <= 512 /\
    (w = 512 \/ h = 512).
Proof.
  split; [change (2 ^ 32) with 4294967296; lia|].
  apply (contain_fits_within_target 1000 500 512 512);
    change (2 ^ 32) with 4294967296; lia.
Defined.

(** C3. For a source with positive width and height and a clamped integer
    target, the [cover] geometry covers the target: [drawWidth >=
    target.width] and [drawHeight >= target.height], one of them with
    equality, and the drawn rectangle [[offsetX, offsetX + drawWidth) x
    [offsetY, offsetY + drawHeight)] intersected with the target
    [[0, target.width) x [0, target.height)] is the whole target. *)
Theorem cover_covers_target (srcW srcH targetW targetH : Z) :
  0 < srcW < 2 ^ 32 -> 0 < srcH < 2 ^ 32 ->
  1 <= targetW <= 8000 -> 1 <= targetH <= 8000 ->
  exists w h x y,
    composeZ srcW srcH targetW targetH true cover = geometryZ w h x y /\
    targetW <= w /\ targetH <= h /\
    (w = targetW \/ h = targetH) /\
    Z.max x 0 = 0 /\ Z.min (x + w) targetW = targetW /\
    Z.max y 0 = 0 /\ Z.min (y + h) targetH = targetH.
Proof.
  intros HsW HsH HtW HtH.
  destruct (cover_geometry_bounds srcW srcH targetW targetH HsW HsH HtW HtH)
    as (w & h & Hg & Hw & Hh & Hor).
  exists w, h, ((targetW - w) / 2), ((targetH - h) / 2).
  split; [exact Hg|].
  assert ((targetW - w) / 2 <= 0) by (apply Z.div_le_upper_bound; lia).
  assert (targetW - w <= (targetW - w) / 2) by (apply Z.div_le_lower_bound; lia).
  assert ((targetH - h) / 2 <= 0) by (apply Z.div_le_upper_bound; lia).
  assert (targetH - h <= (targetH - h) / 2) by (apply Z.div_le_lower_bound; lia).
  repeat split; lia.
Qed.

Lemma cover_covers_target_witness :
  (0 < 1000 < 2 ^ 32 /\ 0 < 500 < 2 ^ 32 /\ 1 <= 512 <= 8000) /\
  exists w h x y,
    composeZ 1000 500 512 512 true cover = geometryZ w h x y /\
    512 <= w /\ 512 <= h /\
    (w = 512 \/ h = 512) /\
    Z.max x 0 = 0 /\ Z.min (x + w) 512 = 512 /\
    Z.max y 0 = 0 /\ Z.min (y + h) 512 = 512.
Proof.
  split; [change (2 ^ 32) with 4294967296; lia|].
  apply (cover_covers_target 1000 500 512 512);
    change (2 ^ 32) with 4294967296; lia.
Defined.

(** C4. With [maintainAspect] false the fit policy is ignored and the image
    is drawn over the full target rectangle at the origin: [drawWidth =
    target.width], [drawHeight = target.height], [offsetX = 0], [offsetY =
    0]. *)
Theorem stretch_fills_target
    (srcW srcH targetW targetH : number) (fit : FitMode) :
  compose srcW srcH targetW targetH false fit
    = {| drawW := targetW; drawH := targetH; dx := zero; dy := zero |}.
Proof. reflexivity. Qed.

(** C5, as stated: [drawWidth] and [drawHeight] are strictly positive for
    both policies.  It fails for [contain]: a 16x1 source in an 8x8 target
    gets [drawHeight = floor(8 / 16) = 0]. *)
Lemma contain_draw_height_can_be_zero :
  (0 < 16 < 2 ^ 32 /\ 0 < 1 < 2 ^ 32 /\ 1 <= 8 <= 8000) /\
  composeZ 16 1 8 8 true contain = geometryZ 8 0 0 4 /\
  is_positive (drawH (composeZ 16 1 8 8 true contain)) = false.
Proof.
  split; [change (2 ^ 32) with 4294967296; lia|].
  split; vm_compute; reflexivity.
Qed.

(** C6.  The claim: [cover] and [contain] return the same geometry whenever
    the source and target aspect ratios are equal.  The code breaks it: for a
    1x49 source in a 1x49 target the ratios are equal, but [49 * (1 / 49)]
    rounds to [0.9999999999999999] and [1 / (1 / 49)] to
    [49.00000000000001], so [contain] draws 0x49 at (0, 0) while [cover]
    draws 1x50 at (0, -1). *)
Theorem cover_contain_differ_on_equal_aspect :
  num_eq (aspect 1 49) (aspect 1 49) = true /\
  composeZ 1 49 1 49 true cover = geometryZ 1 50 0 (-1) /\
  composeZ 1 49 1 49 true contain = geometryZ 0 49 0 0 /\
  composeZ 1 49 1 49 true cover <> composeZ 1 49 1 49 true contain.
Proof.
  split; [vm_compute; reflexivity|].
  split; [vm_compute; reflexivity|].
  split; [vm_compute; reflexivity|].
  vm_compute. discriminate.
Qed.

(** The same rounding on a larger image: a 10x490 source in a 10x490 target
    is drawn 10x491 by [cover]. *)
Example cover_overshoots_10x490 :
  composeZ 10 490 10 490 true cover = geometryZ 10 491 0 (-1) /\
  composeZ 10 490 10 490 true contain = geometryZ 10 490 0 0.
Proof. split; vm_compute; reflexivity. Qed.

End CompositorClaims.

(** * The output-set manager: lists with indexed callbacks *)

Section IndexedLists.

Context {A : Type}.

Lemma map_from_length {B : Type} (f : A -> nat -> B) (i : nat) (l : list A) :
  length (map_from f i l) = length l.
Proof.
  revert i. induction l as [|x l IH]; intros i; simpl; [reflexivity|].
  rewrite IH. reflexivity.
Qed.

Lemma map_from_nth_error {B : Type} (f : A -> nat -> B) (i n : nat) (l : list A) :
  nth_error (map_from f i l) n
    = option_map (fun x => f x (i + n)%nat) (nth_error l n).
Proof.
  revert i n. induction l as [|x l IH]; intros i n.
  - destruct n; reflexivity.
  - destruct n as [|n]; simpl.
    + rewrite Nat.add_0_r. reflexivity.
    + rewrite IH. replace (S i + n)%nat with (i + S n)%nat by lia. reflexivity.
Qed.

(** A callback that keeps every position leaves the list as it is. *)
Lemma filter_from_all (f : A -> nat -> bool) (i : nat) (l : list A) :
  (forall x n, (i <= n)%nat -> f x n = true) -> filter_from f i l = l.
Proof.
  revert i. induction l as [|x l IH]; intros i Hf; simpl; [reflexivity|].
  rewrite (Hf x i) by lia. f_equal. apply IH.
  intros y n Hn. apply Hf. lia.
Qed.

(** A callback that drops position [i + n] only removes that entry. *)
Lemma filter_from_one (f : A -> nat -> bool) (i n : nat) (l : list A) :
  (forall x j, f x j = negb (j =? i + n)%nat) -> (n < length l)%nat ->
  filter_from f i l = firstn n l ++ skipn (S n) l.
Proof.
  revert i n. induction l as [|x l IH]; intros i n Hf Hn; simpl in Hn; [lia|].
  simpl filter_from. rewrite Hf.
  destruct n as [|n].
  - rewrite Nat.add_0_r, Nat.eqb_refl. simpl.
    apply filter_from_all. intros y j Hj. rewrite Hf.
    destruct (Nat.eqb_spec j (i + 0)); [lia|reflexivity].
  - destruct (Nat.eqb_spec i (i + S n)); [lia|]. simpl. f_equal.
    apply IH; [|lia].
    intros y j. rewrite Hf. f_equal.
    replace (S i + n)%nat with (i + S n)%nat by lia. reflexivity.
Qed.

End IndexedLists.

(** * The output-set manager: properties *)

Section OutputSetClaims.

Lemma same_index_nat (j n : nat) : same_index j (Z.of_nat n) = (j =? n)%nat.
Proof.
  unfold same_index.
  destruct (Z.eqb_spec (Z.of_nat j) (Z.of_nat n)), (Nat.eqb_spec j n);
    try reflexivity; lia.
Qed.

Lemma same_index_out_of_range (l : list OutputSpec) (index : Z) (j : nat) :
  ~ valid_index l index -> (j < length l)%nat -> same_index j index = false.
Proof.
  unfold valid_index, same_index. intros Hinv Hj. apply Z.eqb_neq. lia.
Qed.

Lemma removeOutput_valid (n : nat) (s : AppState) :
  (n < length (outputs s))%nat ->
  outputs (removeOutput (Z.of_nat n) s) = remove_at n (outputs s).
Proof.
  intros Hn. unfold removeOutput, Array_filter, remove_at. cbn [outputs].
  apply filter_from_one; [|assumption].
  intros x j. rewrite same_index_nat. reflexivity.
Qed.

Lemma remove_at_length (n : nat) (l : list OutputSpec) :
  (n < length l)%nat -> length (remove_at n l) = (length l - 1)%nat.
Proof.
  intros Hn. unfold remove_at.
  rewrite length_app, length_firstn, length_skipn. lia.
Qed.

Lemma filter_from_in_range (f : OutputSpec -> nat -> bool) (i : nat)
    (l : list OutputSpec) :
  (forall x n, (i <= n < i + length l)%nat -> f x n = true) ->
  filter_from f i l = l.
Proof.
  revert i. induction l as [|x l IH]; intros i Hf; simpl; [reflexivity|].
  rewrite (Hf x i) by (simpl; lia). f_equal. apply IH.
  intros y n Hn. apply Hf. simpl. lia.
Qed.

Lemma map_from_in_range (f : OutputSpec -> nat -> OutputSpec) (i : nat)
    (l : list OutputSpec) :
  (forall x n, (i <= n < i + length l)%nat -> f x n = x) ->
  map_from f i l = l.
Proof.
  revert i. induction l as [|x l IH]; intros i Hf; simpl; [reflexivity|].
  rewrite (Hf x i) by (simpl; lia). f_equal. apply IH.
  intros y n Hn. apply Hf. simpl. lia.
Qed.

(** C7. [addOutput] appends one entry [{width: 512, height: 512, format:
    "png"}] at the end: the entries already present keep their place, the
    length grows by one, and the previewed index becomes the length the list
    had before. *)
Theorem addOutput_appends_default (s : AppState) :
  outputs (addOutput s)
    = outputs s ++ [{| width := num_of_Z 512; height := num_of_Z 512;
                       format := png |}] /\
  length (outputs (addOutput s)) = S (length (outputs s)) /\
  (forall i, (i < length (outputs s))%nat ->
     nth_error (outputs (addOutput s)) i = nth_error (outputs s) i) /\
  nth_error (outputs (addOutput s)) (length (outputs s))
    = Some {| width := num_of_Z 512; height := num_of_Z 512; format := png |} /\
  previewIndex (addOutput s) = Z.of_nat (length (outputs s)).
Proof.
  unfold addOutput. cbn [outputs previewIndex]. fold default_output.
  split; [reflexivity|].
  split; [rewrite length_app; simpl; lia|].
  split; [intros i Hi; apply nth_error_app1; assumption|].
  split; [|reflexivity].
  rewrite nth_error_app2, Nat.sub_diag by lia. reflexivity.
Qed.

(** C8. For a list of length [N] and a valid index, [removeOutput] removes
    exactly the entry at that index.  If the list becomes empty, no index is
    valid any more (the stored index is then 0); otherwise the previewed
    index becomes [max(0, min(previousActive, newLength - 1))], a valid index
    of the remaining list; and removing the previewed entry itself, when
    [N > 1], leaves [min(activeIndex, N - 2)]. *)
Theorem removeOutput_valid_index (n : nat) (s : AppState) :
  (n < length (outputs s))%nat ->
  let s' := removeOutput (Z.of_nat n) s in
  let N := Z.of_nat (length (outputs s)) in
  let newLength := Z.of_nat (length (outputs s')) in
  outputs s' = firstn n (outputs s) ++ skipn (S n) (outputs s) /\
  newLength = N - 1 /\
  (outputs s' = [] ->
     previewIndex s' = 0 /\ forall i, ~ valid_index (outputs s') i) /\
  (outputs s' <> [] ->
     previewIndex s' = Z.max 0 (Z.min (previewIndex s) (newLength - 1)) /\
     valid_index (outputs s') (previewIndex s')) /\
  (1 < N -> previewIndex s = Z.of_nat n ->
     previewIndex s' = Z.min (previewIndex s) (N - 2)).
Proof.
  intros Hn s' N newLength.
  assert (Hout : outputs s' = remove_at n (outputs s))
    by (apply removeOutput_valid; assumption).
  assert (Hlen : newLength = N - 1).
  { subst newLength N. rewrite Hout, remove_at_length by assumption. lia. }
  split; [exact Hout|]. split; [exact Hlen|]. split; [|split].
  - intros Hnil.
    assert (HN : N = 1) by (subst newLength; rewrite Hnil in Hlen; simpl in Hlen; lia).
    split.
    + subst s'. unfold removeOutput. cbn [previewIndex]. fold N. lia.
    + intros i. unfold valid_index. rewrite Hnil. simpl. lia.
  - intros Hne.
    assert (0 < newLength).
    { subst newLength. destruct (outputs s'); [congruence|simpl; lia]. }
    subst s'. unfold removeOutput in *. cbn [previewIndex outputs] in *.
    fold N. unfold valid_index. fold newLength. split; lia.
  - intros HN Hp. subst s'. unfold removeOutput. cbn [previewIndex].
    fold N. lia.
Qed.

Lemma removeOutput_valid_index_witness :
  (0 < length (outputs (addOutput initial_state)))%nat /\
  let s' := removeOutput 0 (addOutput initial_state) in
  outputs s' = [default_output] /\ previewIndex s' = 0.
Proof.
  split; [simpl; lia|].
  pose proof (removeOutput_valid_index 0 (addOutput initial_state)
                ltac:(simpl; lia)) as H.
  split; [apply H | reflexivity].
Defined.

(** C9, as stated: [updateOutput] raises the out-of-range condition for every
    index that is not a valid position.  It does not: with one output, the
    call at index 5 returns, and leaves the state as it was. *)
Lemma updateOutput_out_of_range_returns :
  ~ valid_index (outputs initial_state) 5 /\
  updateOutput_call 5 (mkOutputPatch (Some (num_of_Z 64)) None None)
    initial_state = Returns initial_state /\
  updateOutput_call 5 (mkOutputPatch (Some (num_of_Z 64)) None None)
    initial_state <> OutOfRange.
Proof.
  split; [unfold valid_index; simpl; lia|].
  split; [reflexivity | discriminate].
Qed.

(** C9, amended.  [updateOutput(index, patch)] always returns.  The entry at
    [index] has its supplied fields replaced and its other fields kept; every
    other entry, the length and the previewed index are unchanged; and for an
    index that is not a valid position the whole state is unchanged. *)
Theorem updateOutput_patches_one_entry (index : Z) (patch : OutputPatch)
    (s : AppState) :
  updateOutput_call index patch s = Returns (updateOutput index patch s) /\
  length (outputs (updateOutput index patch s)) = length (outputs s) /\
  previewIndex (updateOutput index patch s) = previewIndex s /\
  (forall i o, nth_error (outputs s) i = Some o ->
     nth_error (outputs (updateOutput index patch s)) i
       = Some (if Z.of_nat i =? index then spread o patch else o)) /\
  (forall o,
     width (spread o patch)
       = match patch_width patch with Some w => w | None => width o end /\
     height (spread o patch)
       = match patch_height patch with Some h => h | None => height o end /\
     format (spread o patch)
       = match patch_format patch with Some f => f | None => format o end) /\
  (~ valid_index (outputs s) index -> updateOutput index patch s = s).
Proof.
  split; [reflexivity|].
  unfold updateOutput, Array_map. cbn [outputs previewIndex].
  split; [apply map_from_length|].
  split; [reflexivity|].
  split; [|split].
  - intros i o Hi. rewrite map_from_nth_error, Hi. reflexivity.
  - intros o. repeat split.
  - intros Hinv. destruct s as [l p]. cbn [outputs previewIndex] in *.
    f_equal. apply map_from_in_range.
    intros x n Hn. rewrite (same_index_out_of_range l index n Hinv); [reflexivity|lia].
Qed.

(** C10. For an index outside the bounds of a list of length [N],
    [removeOutput] leaves the list unchanged and still recomputes the
    previewed index as [max(0, min(previousActive, N - 2))]; so when the last
    entry was previewed and [N > 1], a call that removes nothing moves the
    previewed index from [N - 1] to [N - 2]. *)
Theorem removeOutput_out_of_range (index : Z) (s : AppState) :
  ~ valid_index (outputs s) index ->
  let N := Z.of_nat (length (outputs s)) in
  outputs (removeOutput index s) = outputs s /\
  previewIndex (removeOutput index s)
    = Z.max 0 (Z.min (previewIndex s) (N - 2)) /\
  (1 < N -> previewIndex s = N - 1 ->
     previewIndex (removeOutput index s) = N - 2 /\
     previewIndex (removeOutput index s) <> previewIndex s).
Proof.
  intros Hinv N. unfold removeOutput, Array_filter. cbn [outputs previewIndex].
  fold N. split; [|split; [reflexivity|lia]].
  apply filter_from_in_range. intros x n Hn.
  rewrite (same_index_out_of_range (outputs s) index n Hinv); [reflexivity|lia].
Qed.

Lemma removeOutput_out_of_range_witness :
  ~ valid_index (outputs (addOutput initial_state)) 7 /\
  outputs (removeOutput 7 (addOutput initial_state))
    = outputs (addOutput initial_state) /\
  previewIndex (addOutput initial_state) = 1 /\
  previewIndex (removeOutput 7 (addOutput initial_state)) = 0.
Proof.
  assert (Hinv : ~ valid_index (outputs (addOutput initial_state)) 7)
    by (unfold valid_index; simpl; lia).
  split; [exact Hinv|].
  pose proof (removeOutput_out_of_range 7 (addOutput initial_state) Hinv) as H.
  split; [apply H|]. split; reflexivity.
Defined.

End OutputSetClaims.

(** * The model against the processor's binary64 arithmetic

    The two roundings behind the failure of C6, evaluated by the kernel's
    primitive floats: they agree with the model bit for bit. *)

Section HardwareCrossCheck.

Example product_49_agrees :
  FloatOps.Prim2SF (49 * (1 / 49))%float = num_mul (num_of_Z 49) (aspect 1 49).
Proof. vm_compute. reflexivity. Qed.

Example quotient_49_agrees :
  FloatOps.Prim2SF (1 / (1 / 49))%float = num_div (num_of_Z 1) (aspect 1 49).
Proof. vm_compute. reflexivity. Qed.

Example product_49_below_one :
  (49 * (1 / 49) <? 1)%float = true.
Proof. vm_compute. reflexivity. Qed.

End HardwareCrossCheck.

(** * The output-set manager across a session *)

Section Session.

(** The state the page keeps: at least one output, and a previewed index
    that points at one. *)
Lemma handle_keeps_preview_valid (ev : event) (s : AppState) :
  offered s ev = true ->
  outputs s <> [] /\ valid_index (outputs s) (previewIndex s) ->
  outputs (handle ev s) <> [] /\
  valid_index (outputs (handle ev s)) (previewIndex (handle ev s)).
Proof.
  intros Hoff [Hne Hval]. unfold valid_index in *.
  assert (HN : (0 < length (outputs s))%nat).
  { destruct (outputs s); [congruence|simpl; lia]. }
  assert (Hlen : forall l : list OutputSpec, (0 < length l)%nat -> l <> []).
  { intros l Hl ->. simpl in Hl. lia. }
  destruct ev as [|i patch|i|i]; cbn [handle offered] in *.
  - unfold addOutput. cbn [outputs previewIndex].
    split; [apply Hlen|]; rewrite length_app; simpl; lia.
  - unfold updateOutput, Array_map. cbn [outputs previewIndex].
    split; [apply Hlen|]; rewrite map_from_length; lia.
  - apply Nat.ltb_lt in Hoff. unfold setPreviewIndex. cbn [outputs previewIndex].
    split; [assumption|lia].
  - apply andb_prop in Hoff. destruct Hoff as [Hi H1].
    apply Nat.ltb_lt in Hi. apply Nat.ltb_lt in H1.
    rewrite removeOutput_valid by assumption.
    unfold removeOutput. cbn [previewIndex].
    pose proof (remove_at_length i (outputs s) Hi) as Hl.
    split; [apply Hlen; lia|]. rewrite Hl. lia.
Qed.

Lemma run_keeps_preview_valid (evs : list event) (s s' : AppState) :
  run evs s = Some s' ->
  outputs s <> [] /\ valid_index (outputs s) (previewIndex s) ->
  outputs s' <> [] /\ valid_index (outputs s') (previewIndex s').
Proof.
  revert s. induction evs as [|ev evs IH]; intros s Hrun Hinv; simpl in Hrun.
  - inversion Hrun. subst. exact Hinv.
  - destruct (offered s ev) eqn:Hoff; [|discriminate].
    apply (IH _ Hrun). apply handle_keeps_preview_valid; assumption.
Qed.

Lemma initial_state_valid :
  outputs initial_state <> [] /\
  valid_index (outputs initial_state) (previewIndex initial_state).
Proof. split; [discriminate | unfold valid_index; simpl; lia]. Qed.

(** X1. Whatever the user clicks and types, starting from the initial
    state, there is always at least one output and the previewed index points
    at an entry: [outputs[previewIndex]] is never [undefined]. *)
Theorem session_preview_defined (evs : list event) (s : AppState) :
  run evs initial_state = Some s ->
  outputs s <> [] /\
  valid_index (outputs s) (previewIndex s) /\
  preview_spec s <> None.
Proof.
  intros Hrun.
  destruct (run_keeps_preview_valid evs _ _ Hrun initial_state_valid)
    as [Hne Hval].
  split; [assumption|]. split; [assumption|].
  unfold preview_spec, valid_index in *.
  destruct (Z.ltb_spec (previewIndex s) 0); [lia|].
  apply nth_error_Some. lia.
Qed.

Lemma session_preview_defined_witness :
  run [ClickAdd; ClickAdd; ClickRemove 2; ClickPreview 0; ClickRemove 0]
      initial_state
    = Some {| outputs := [default_output]; previewIndex := 0 |} /\
  preview_spec {| outputs := [default_output]; previewIndex := 0 |} <> None.
Proof.
  split; [reflexivity|].
  apply (session_preview_defined
           [ClickAdd; ClickAdd; ClickRemove 2; ClickPreview 0; ClickRemove 0]).
  reflexivity.
Defined.

End Session.

(** * How the handlers compose *)

Section HandlerAlgebra.

Lemma nth_error_remove_at (n i : nat) (l : list OutputSpec) :
  nth_error (remove_at n l) i
    = nth_error l (if (i <? n)%nat then i else S i).
Proof.
  unfold remove_at.
  destruct (Nat.ltb_spec i n) as [Hlt|Hge].
  - destruct (Nat.lt_ge_cases i (length l)) as [Hi|Hi].
    + rewrite nth_error_app1 by (rewrite length_firstn; lia).
      apply nth_error_firstn_lt || (rewrite nth_error_firstn;
        destruct (Nat.ltb_spec i n); [reflexivity|lia]).
    + rewrite (proj2 (nth_error_None l i)) by assumption.
      apply nth_error_None. rewrite length_app, length_firstn, length_skipn. lia.
  - destruct (Nat.lt_ge_cases n (length l)) as [Hn|Hn].
    + rewrite nth_error_app2 by (rewrite length_firstn; lia).
      rewrite length_firstn, nth_error_skipn. f_equal. lia.
    + rewrite firstn_all2, skipn_all2, app_nil_r by lia.
      rewrite (proj2 (nth_error_None l i)) by lia.
      symmetry. apply nth_error_None. lia.
Qed.

Lemma preview_spec_nth (l : list OutputSpec) (p : nat) :
  preview_spec {| outputs := l; previewIndex := Z.of_nat p |} = nth_error l p.
Proof.
  unfold preview_spec. cbn [outputs previewIndex].
  destruct (Z.ltb_spec (Z.of_nat p) 0); [lia|]. rewrite Nat2Z.id. reflexivity.
Qed.

(** X2. Which entry is previewed after [removeOutput(n)] on a list of more
    than one entry.  Removing a row below the previewed one keeps the
    previewed entry.  Removing the previewed row, or a row above it, leaves
    the index where it was, so the preview jumps to the entry that followed
    the previewed one; only when the last entry was previewed does the index
    step back, to the same entry if a row above was removed and to its
    predecessor if it was removed itself. *)
Theorem removeOutput_previewed_entry (n p : nat) (l : list OutputSpec) :
  (n < length l)%nat -> (p < length l)%nat -> (1 < length l)%nat ->
  let s := {| outputs := l; previewIndex := Z.of_nat p |} in
  let s' := removeOutput (Z.of_nat n) s in
  ((p < n)%nat -> preview_spec s' = preview_spec s) /\
  ((n <= p)%nat -> (S p < length l)%nat ->
     preview_spec s' = nth_error l (S p)) /\
  ((n < p)%nat -> S p = length l -> preview_spec s' = preview_spec s) /\
  (n = p -> S p = length l -> preview_spec s' = nth_error l (p - 1)).
Proof.
  intros Hn Hp HN s s'.
  assert (Hout : outputs s' = remove_at n l).
  { subst s' s. apply removeOutput_valid. exact Hn. }
  assert (Hidx : previewIndex s'
                 = Z.of_nat (Nat.min p (length l - 2))).
  { subst s' s. unfold removeOutput. cbn [previewIndex outputs]. lia. }
  assert (Hs' : preview_spec s'
                = nth_error (remove_at n l) (Nat.min p (length l - 2))).
  { destruct s' as [l' p']. cbn [outputs previewIndex] in *. subst l' p'.
    apply preview_spec_nth. }
  rewrite Hs', nth_error_remove_at. subst s. rewrite preview_spec_nth.
  repeat split; intros;
    destruct (Nat.ltb_spec (Nat.min p (length l - 2)) n);
    f_equal; lia.
Qed.

Lemma removeOutput_previewed_entry_witness :
  let a := default_output in
  let b := {| width := num_of_Z 64; height := num_of_Z 64; format := jpeg |} in
  let c := {| width := num_of_Z 32; height := num_of_Z 16; format := webp |} in
  preview_spec {| outputs := [a; b; c]; previewIndex := 1 |} = Some b /\
  preview_spec (removeOutput 0 {| outputs := [a; b; c]; previewIndex := 1 |})
    = Some c.
Proof.
  intros a b c. split; [reflexivity|].
  apply (removeOutput_previewed_entry 0 1 [a; b; c]); simpl; lia.
Defined.

Lemma remove_at_last (l : list OutputSpec) (d : OutputSpec) :
  remove_at (length l) (l ++ [d]) = l.
Proof.
  unfold remove_at.
  rewrite firstn_app, firstn_all, Nat.sub_diag. simpl firstn.
  rewrite skipn_all2 by (rewrite length_app; simpl; lia).
  rewrite !app_nil_r. reflexivity.
Qed.

(** X3. [addOutput] followed by [removeOutput] of the entry just added gives
    back the list of outputs as it was; the previewed index is then the last
    entry of that list ([max(0, N - 1)]), not the entry previewed before. *)
Theorem addOutput_removeOutput_restores_outputs (s : AppState) :
  let N := Z.of_nat (length (outputs s)) in
  outputs (removeOutput N (addOutput s)) = outputs s /\
  previewIndex (removeOutput N (addOutput s)) = Z.max 0 (N - 1).
Proof.
  intros N. subst N. split.
  - rewrite removeOutput_valid.
    + unfold addOutput. cbn [outputs]. apply remove_at_last.
    + unfold addOutput. cbn [outputs]. rewrite length_app. simpl. lia.
  - unfold removeOutput, addOutput. cbn [outputs previewIndex].
    rewrite length_app. simpl length. lia.
Qed.

Lemma map_from_ext {A B : Type} (f g : A -> nat -> B) (i : nat) (l : list A) :
  (forall x n, f x n = g x n) -> map_from f i l = map_from g i l.
Proof.
  intros Hfg. revert i. induction l as [|x l IH]; intros i; simpl;
    [reflexivity|]. rewrite Hfg, IH. reflexivity.
Qed.

Lemma map_from_map_from {A B C : Type} (f : A -> nat -> B) (g : B -> nat -> C)
    (i : nat) (l : list A) :
  map_from g i (map_from f i l) = map_from (fun x n => g (f x n) n) i l.
Proof.
  revert i. induction l as [|x l IH]; intros i; simpl; [reflexivity|].
  rewrite IH. reflexivity.
Qed.

Lemma spread_spread (o : OutputSpec) (p1 p2 : OutputPatch) :
  spread (spread o p1) p2 = spread o (merge_patch p1 p2).
Proof.
  unfold spread, merge_patch. cbn [width height format patch_width
    patch_height patch_format].
  destruct (patch_width p2), (patch_height p2), (patch_format p2); reflexivity.
Qed.

(** X4. Two [updateOutput] calls on different rows can be made in either
    order: the resulting state is the same. *)
Theorem updateOutput_commutes (i j : Z) (p1 p2 : OutputPatch) (s : AppState) :
  i <> j ->
  updateOutput i p1 (updateOutput j p2 s)
    = updateOutput j p2 (updateOutput i p1 s).
Proof.
  intros Hij. unfold updateOutput, Array_map. cbn [outputs previewIndex].
  f_equal. rewrite !map_from_map_from. apply map_from_ext.
  intros o n. unfold same_index.
  destruct (Z.eqb_spec (Z.of_nat n) i), (Z.eqb_spec (Z.of_nat n) j);
    try reflexivity. congruence.
Qed.

Lemma updateOutput_commutes_witness :
  updateOutput 0 (mkOutputPatch (Some (num_of_Z 64)) None None)
    (updateOutput 1 (mkOutputPatch None None (Some webp))
       (addOutput initial_state))
  = updateOutput 1 (mkOutputPatch None None (Some webp))
      (updateOutput 0 (mkOutputPatch (Some (num_of_Z 64)) None None)
         (addOutput initial_state)).
Proof. apply updateOutput_commutes. discriminate. Defined.

(** X5. Two [updateOutput] calls on the same row amount to one call with
    the two patches merged, the fields of the later patch winning; so a
    repeated call with the same patch changes nothing more. *)
Theorem updateOutput_twice (i : Z) (p1 p2 : OutputPatch) (s : AppState) :
  updateOutput i p2 (updateOutput i p1 s)
    = updateOutput i (merge_patch p1 p2) s /\
  updateOutput i p1 (updateOutput i p1 s) = updateOutput i p1 s.
Proof.
  assert (H : forall q1 q2,
    updateOutput i q2 (updateOutput i q1 s)
      = updateOutput i (merge_patch q1 q2) s).
  { intros q1 q2. unfold updateOutput, Array_map. cbn [outputs previewIndex].
    f_equal. rewrite map_from_map_from. apply map_from_ext.
    intros o n. destruct (same_index n i); [apply spread_spread|reflexivity]. }
  split; [apply H|].
  rewrite H. unfold updateOutput, Array_map. f_equal.
  apply map_from_ext. intros o n.
  destruct (same_index n i); [|reflexivity].
  rewrite <- spread_spread. unfold spread.
  cbn [width height format].
  destruct (patch_width p1), (patch_height p1), (patch_format p1); reflexivity.
Qed.

End HandlerAlgebra.

(** * The canvas size for any requested size *)

Section ClampTotal.

Lemma one_finite : num_of_Z 1 = S754_finite false 4503599627370496 (-52).
Proof. reflexivity. Qed.

Lemma max_dim_finite :
  num_of_Z 8000 = S754_finite false 8796093022208000 (-40).
Proof. reflexivity. Qed.

Lemma max_dim_value : F2R 8796093022208000 (-40) = 8000%R.
Proof. unfold F2R, bpow. simpl. lra. Qed.

Lemma binary_normalize_sign (k e : Z) (s : bool) :
  k <> 0 -> binary_normalize prec emax k e s = binary_normalize prec emax k e false.
Proof. destruct k; [congruence|reflexivity|reflexivity]. Qed.

(** [Math.floor] of a finite number beyond [2^53] is still beyond 8000. *)
Lemma clamp_large (k : Z) :
  2 ^ prec <= k ->
  Math_max (num_of_Z 1)
    (Math_min (num_of_Z 8000) (binary_normalize prec emax k 0 false))
  = num_of_Z 8000.
Proof.
  intros Hk. rewrite pow2_prec in Hk.
  destruct k as [|q|q]; try lia. cbn [binary_normalize].
  destruct (binary_round_spec false q 0) as (m & e & Hr & Hc & Hdown & _).
  assert (Hrep : representable 8001).
  { apply (representable_Z 8001). rewrite pow2_prec. lia. }
  assert (Hge : (8001 <= F2R m e)%R).
  { apply Hdown; [exact Hrep|]. rewrite F2R_Z. apply IZR_le. lia. }
  rewrite Hr. destruct m as [|pm|pm].
  - rewrite F2R_0 in Hge. lra.
  - unfold round_result. destruct (e <=? emax - prec) eqn:He.
    + apply Z.leb_le in He.
      pose proof (canonical_bounded pm e Hc He) as Hb.
      assert (Hb8 : SpecFloat.bounded prec emax 8796093022208000 (-40) = true)
        by reflexivity.
      pose proof (SFcompare_pos_spec pm 8796093022208000 e (-40) Hb Hb8) as Hcmp.
      rewrite max_dim_value in Hcmp.
      rewrite max_dim_finite. unfold Math_min, SFltb.
      destruct (SFcompare (S754_finite false pm e)
                  (S754_finite false 8796093022208000 (-40))) as [[ | | ]|];
        try contradiction; try lra; reflexivity.
    + reflexivity.
  - destruct Hc as [[Hm _] _]. lia.
Qed.

(** [Math.floor] of a finite number below [-2^53] is clamped to 1. *)
Lemma clamp_small (k : Z) :
  k <= - 2 ^ prec ->
  Math_max (num_of_Z 1)
    (Math_min (num_of_Z 8000) (binary_normalize prec emax k 0 false))
  = num_of_Z 1.
Proof.
  intros Hk. rewrite pow2_prec in Hk.
  destruct k as [|q|q]; try lia. cbn [binary_normalize].
  destruct (binary_round_spec true q 0) as (m & e & Hr & Hc & Hdown & _).
  assert (Hrep : representable 1).
  { apply (representable_Z 1). rewrite pow2_prec. lia. }
  assert (Hge : (1 <= F2R m e)%R).
  { apply Hdown; [exact Hrep|]. rewrite F2R_Z. apply IZR_le. lia. }
  rewrite Hr. destruct m as [|pm|pm].
  - rewrite F2R_0 in Hge. lra.
  - unfold round_result. destruct (e <=? emax - prec); reflexivity.
  - destruct Hc as [[Hm _] _]. lia.
Qed.

(** Whatever is requested, short of NaN, the canvas gets a whole size between
    1 and 8000. *)
Lemma clamp_dimension_integer (v : number) :
  v <> S754_nan ->
  exists n, clamp_dimension v = num_of_Z n /\ 1 <= n <= 8000.
Proof.
  intros Hnan. unfold clamp_dimension.
  destruct v as [s|s| |s m e]; [| |congruence|].
  + exists 1. destruct s; split; try reflexivity; lia.
  + destruct s; [exists 1 | exists 8000]; split; try reflexivity; lia.
  + cbn [Math_floor].
    set (k := Z.shiftl (cond_Zopp s (Z.pos m)) e).
    assert (Hs : k = 0 -> s = false).
    { intros Hk0. destruct s; [|reflexivity]. exfalso.
      assert (H : 0 <= k) by lia. subst k. cbn [cond_Zopp] in H.
      apply Z.shiftl_nonneg in H. lia. }
    assert (Hy : binary_normalize prec emax k 0 s
                 = binary_normalize prec emax k 0 false).
    { destruct (Z.eq_dec k 0) as [Hk0|Hk0].
      - rewrite (Hs Hk0). reflexivity.
      - apply binary_normalize_sign. exact Hk0. }
    rewrite Hy. clearbody k. clear Hs Hy.
    destruct (Z_lt_le_dec (Z.abs k) (2 ^ prec)) as [Hin|Hout].
    * exists (Z.max 1 (Z.min 8000 k)). split; [|lia].
      change (binary_normalize prec emax k 0 false) with (num_of_Z k).
      rewrite pow2_prec in Hin.
      rewrite Math_min_Z, Math_max_Z by (rewrite pow2_prec; lia).
      reflexivity.
    * destruct (Z_le_gt_dec 0 k).
      -- exists 8000. split; [apply clamp_large|]; lia.
      -- exists 1. split; [apply clamp_small|]; lia.
Qed.

(** X6. [Math.max(1, Math.min(8000, Math.floor(v)))] is an integer between 1
    and 8000 for every number [v] except NaN, infinities and numbers beyond
    [2^53] included; for an integer request it is that integer clamped; and
    NaN stays NaN. *)
Theorem clamp_dimension_range (v : number) :
  (v <> S754_nan ->
   exists n, clamp_dimension v = num_of_Z n /\ 1 <= n <= 8000) /\
  (v = S754_nan -> clamp_dimension v = S754_nan) /\
  (forall k, Z.abs k < 2 ^ prec -> v = num_of_Z k ->
     clamp_dimension v = num_of_Z (Z.max 1 (Z.min 8000 k))).
Proof.
  split; [|split].
  - apply clamp_dimension_integer.
  - intros ->. reflexivity.
  - intros k Hk ->. apply clamp_dimension_Z. exact Hk.
Qed.

End ClampTotal.

(** * The relative error of one rounding *)

Section RelativeError.

Lemma floor_exists (r : R) : exists m : Z, (IZR m <= r < IZR m + 1)%R.
Proof.
  destruct (archimed r) as [H1 H2].
  exists (up r - 1). rewrite minus_IZR. split; lra.
Qed.

Lemma mag_exists (n : nat) (lo : Z) (r : R) :
  (bpow lo <= r < bpow (lo + Z.of_nat n))%R ->
  exists k, lo <= k < lo + Z.of_nat n /\ (bpow k <= r < bpow (k + 1))%R.
Proof.
  induction n as [|n IH]; intros [Hlo Hhi].
  - replace (lo + Z.of_nat 0) with lo in Hhi by lia. lra.
  - destruct (Rlt_le_dec r (bpow (lo + Z.of_nat n))) as [Hlt|Hge].
    + destruct (IH (conj Hlo Hlt)) as (k & Hk & Hr).
      exists k. split; [lia|assumption].
    + exists (lo + Z.of_nat n). split; [lia|].
      replace (lo + Z.of_nat n + 1) with (lo + Z.of_nat (S n)) by lia.
      split; assumption.
Qed.

(** Every real in the normal range lies between two representable numbers
    that are closer than [2^-52] times its size. *)
Lemma representable_enclosure (r : R) :
  (bpow (-1022) <= r < bpow 1023)%R ->
  exists glo ghi,
    representable glo /\ representable ghi /\
    (0 < glo <= r)%R /\ (r <= ghi)%R /\
    (ghi - glo <= r * / 4503599627370496)%R.
Proof.
  intros Hr.
  destruct (mag_exists 2045 (-1022) r) as (k & Hk & Hkr).
  { replace (-1022 + Z.of_nat 2045) with 1023 by lia. exact Hr. }
  destruct (floor_exists (r * bpow (52 - k))) as (m & Hm1 & Hm2).
  pose proof (bpow_pos k) as Hbk. pose proof (bpow_pos (52 - k)) as Hbs.
  pose proof (bpow_pos (k - 52)) as Hbe.
  assert (Hinv : (bpow (52 - k) * bpow (k - 52) = 1)%R).
  { rewrite <- bpow_plus. replace (52 - k + (k - 52)) with 0 by lia. apply bpow_0. }
  assert (H52 : bpow 52 = 4503599627370496%R).
  { rewrite bpow_Z by lia. reflexivity. }
  assert (Hsc : (bpow 52 <= r * bpow (52 - k) < 2 * bpow 52)%R).
  { assert (Hs : bpow 52 = (bpow k * bpow (52 - k))%R).
    { rewrite <- bpow_plus. f_equal. lia. }
    rewrite Hs. rewrite bpow_succ in Hkr. split; nra. }
  rewrite H52 in Hsc.
  assert (Hmlo : 4503599627370496 <= m).
  { assert (4503599627370496 - 1 < m)
      by (apply lt_IZR; rewrite minus_IZR; lra). lia. }
  assert (Hmhi : m < 9007199254740992) by (apply lt_IZR; lra).
  assert (Hglo : (F2R m (k - 52) <= r)%R).
  { unfold F2R.
    assert (IZR m * bpow (k - 52) <= r * bpow (52 - k) * bpow (k - 52))%R
      by (apply Rmult_le_compat_r; lra).
    rewrite Rmult_assoc, Hinv in H. lra. }
  assert (Hghi : (r <= F2R (m + 1) (k - 52))%R).
  { unfold F2R. rewrite plus_IZR.
    assert (r * bpow (52 - k) * bpow (k - 52)
            <= (IZR m + 1) * bpow (k - 52))%R
      by (apply Rmult_le_compat_r; lra).
    rewrite Rmult_assoc, Hinv in H. lra. }
  assert (Hgap : (F2R (m + 1) (k - 52) - F2R m (k - 52)
                  <= r * / 4503599627370496)%R).
  { rewrite F2R_succ.
    assert (Hb : (bpow (k - 52) * 4503599627370496 = bpow k)%R).
    { rewrite <- H52, <- bpow_plus. f_equal. lia. }
    assert (bpow (k - 52) = bpow k * / 4503599627370496)%R
      by (rewrite <- Hb; field).
    nra. }
  exists (F2R m (k - 52)), (F2R (m + 1) (k - 52)).
  split; [|split; [|split; [|split]]]; try assumption.
  - exists m, (k - 52). split; [reflexivity|].
    rewrite pow2_prec. unfold emin, emax, prec. lia.
  - destruct (Z.eq_dec (m + 1) 9007199254740992) as [Heq|Hne].
    + exists 4503599627370496, (k - 51). split.
      * rewrite Heq. change 9007199254740992 with (4503599627370496 * 2 ^ 1).
        rewrite F2R_shift by lia. f_equal. lia.
      * rewrite pow2_prec. unfold emin, emax, prec. lia.
    + exists (m + 1), (k - 52). split; [reflexivity|].
      rewrite pow2_prec. unfold emin, emax, prec. lia.
  - split; [|assumption].
    pose proof (F2R_lt 0 m (k - 52) ltac:(lia)) as H. rewrite F2R_0 in H. exact H.
Qed.

(** A quotient or product of positive numbers in the normal range is a
    positive number within [2^-52] of the exact value, relatively. *)
Lemma num_div_rel (x y : number) :
  pos_num x -> pos_num y ->
  (bpow (-1022) <= SF2R x / SF2R y < bpow 1023)%R ->
  pos_num (num_div x y) /\
  (SF2R x / SF2R y - SF2R x / SF2R y * / 4503599627370496
     <= SF2R (num_div x y)
     <= SF2R x / SF2R y + SF2R x / SF2R y * / 4503599627370496)%R.
Proof.
  intros Hx Hy Hr.
  destruct (representable_enclosure _ Hr)
    as (glo & ghi & Hrlo & Hrhi & [Hpos Hlo] & Hhi & Hgap).
  destruct (num_div_pos x y glo ghi Hx Hy Hrlo Hrhi (conj Hlo Hhi)) as [Hn Hv].
  split; [apply nonneg_num_pos; [assumption|lra]|].
  lra.
Qed.

Lemma num_mul_rel (x y : number) :
  pos_num x -> pos_num y ->
  (bpow (-1022) <= SF2R x * SF2R y < bpow 1023)%R ->
  pos_num (num_mul x y) /\
  (SF2R x * SF2R y - SF2R x * SF2R y * / 4503599627370496
     <= SF2R (num_mul x y)
     <= SF2R x * SF2R y + SF2R x * SF2R y * / 4503599627370496)%R.
Proof.
  intros Hx Hy Hr.
  destruct (representable_enclosure _ Hr)
    as (glo & ghi & Hrlo & Hrhi & [Hpos Hlo] & Hhi & Hgap).
  destruct (num_mul_pos x y glo ghi Hx Hy Hrlo Hrhi (conj Hlo Hhi)) as [Hn Hv].
  split; [apply nonneg_num_pos; [assumption|lra]|].
  lra.
Qed.

End RelativeError.

(** * The rounded result depends on the exact value only *)

Section RoundingIsAFunction.

Lemma inbetween_unique (m m' e : Z) (l l' : location) (r : R) :
  inbetween m e l r -> inbetween m' e l' r -> m = m' /\ l = l'.
Proof.
  intros H H'.
  destruct (inbetween_bounds _ _ _ _ H) as ([Hlo Hhi] & _ & _).
  destruct (inbetween_bounds _ _ _ _ H') as ([Hlo' Hhi'] & _ & _).
  assert (Hm : m = m').
  { assert (m < m' + 1) by (apply (F2R_lt_inv _ _ e); lra).
    assert (m' < m + 1) by (apply (F2R_lt_inv _ _ e); lra). lia. }
  subst m'. split; [reflexivity|].
  pose proof (bpow_pos e).
  destruct l as [|[ | | ]], l' as [|[ | | ]]; cbn [inbetween] in H, H';
    try reflexivity; exfalso; lra.
Qed.

(** The exponent at which [binary_round_aux] rounds, read off the mantissa
    it is given, is the same for every way of presenting the same value. *)
Lemma first_exponent_unique (mx ex mx' ex' : Z) (lx lx' : location) (r : R) :
  0 <= mx -> inbetween mx ex lx r ->
  ex <= fexp prec emax (Zdigits2 mx + ex) ->
  0 <= mx' -> inbetween mx' ex' lx' r ->
  ex' <= fexp prec emax (Zdigits2 mx' + ex') ->
  fexp prec emax (Zdigits2 mx + ex) = fexp prec emax (Zdigits2 mx' + ex').
Proof.
  assert (Hpos : forall m e l, 0 < m -> inbetween m e l r ->
            (bpow (Zdigits2 m + e - 1) <= r < bpow (Zdigits2 m + e))%R).
  { intros m e l Hm Hin.
    destruct (inbetween_bounds _ _ _ _ Hin) as ([Hlo Hhi] & _ & _).
    pose proof (Zdigits2_bounds m Hm) as [Hd1 Hd2].
    pose proof (Zdigits2_pos m Hm) as Hd.
    pose proof (F2R_le (2 ^ (Zdigits2 m - 1)) m e Hd1) as H1.
    pose proof (F2R_le (m + 1) (2 ^ Zdigits2 m) e ltac:(lia)) as H2.
    rewrite F2R_pow2 in H1, H2 by lia.
    replace (Zdigits2 m + e - 1) with (Zdigits2 m - 1 + e) by lia. lra. }
  assert (Hzero : forall e l, inbetween 0 e l r ->
            e <= fexp prec emax (Zdigits2 0 + e) ->
            e <= -1074 /\ (r < bpow e)%R).
  { intros e l Hin He. rewrite fexp_eq in He. simpl Zdigits2 in He.
    split; [lia|].
    destruct (inbetween_bounds _ _ _ _ Hin) as ([_ Hhi] & _ & _).
    simpl in Hhi. unfold F2R in Hhi. lra. }
  assert (Hmix : forall m e l e0 l0, 0 < m -> inbetween m e l r ->
            inbetween 0 e0 l0 r ->
            e0 <= fexp prec emax (Zdigits2 0 + e0) ->
            fexp prec emax (Zdigits2 m + e) = -1074).
  { intros m e l e0 l0 Hm Hin Hin0 He0.
    destruct (Hpos m e l Hm Hin) as [H1 _].
    destruct (Hzero e0 l0 Hin0 He0) as [H2 H3].
    rewrite fexp_eq.
    destruct (Z_lt_le_dec (Zdigits2 m + e - 1) e0) as [|Hge]; [lia|].
    pose proof (bpow_le _ _ Hge). lra. }
  intros Hmx Hin Hex Hmx' Hin' Hex'.
  destruct (Z.eq_dec mx 0) as [->|Hnz]; destruct (Z.eq_dec mx' 0) as [->|Hnz'].
  - destruct (Hzero _ _ Hin Hex). destruct (Hzero _ _ Hin' Hex').
    rewrite !fexp_eq. simpl Zdigits2. lia.
  - rewrite (Hmix mx' ex' lx' ex lx) by (assumption || lia).
    destruct (Hzero _ _ Hin Hex). rewrite fexp_eq. simpl Zdigits2. lia.
  - rewrite (Hmix mx ex lx ex' lx') by (assumption || lia).
    destruct (Hzero _ _ Hin' Hex'). rewrite fexp_eq. simpl Zdigits2. lia.
  - destruct (Hpos mx ex lx ltac:(lia) Hin) as [H1 H2].
    destruct (Hpos mx' ex' lx' ltac:(lia) Hin') as [H1' H2'].
    f_equal.
    destruct (Z.lt_trichotomy (Zdigits2 mx + ex) (Zdigits2 mx' + ex'))
      as [Hlt|[Heq|Hgt]]; [exfalso|exact Heq|exfalso].
    + pose proof (bpow_le (Zdigits2 mx + ex) (Zdigits2 mx' + ex' - 1)
                    ltac:(lia)). lra.
    + pose proof (bpow_le (Zdigits2 mx' + ex') (Zdigits2 mx + ex - 1)
                    ltac:(lia)). lra.
Qed.

Lemma binary_round_aux_unique (s : bool) (mx ex mx' ex' : Z)
    (lx lx' : location) (r : R) :
  0 <= mx -> inbetween mx ex lx r ->
  ex <= fexp prec emax (Zdigits2 mx + ex) ->
  0 <= mx' -> inbetween mx' ex' lx' r ->
  ex' <= fexp prec emax (Zdigits2 mx' + ex') ->
  binary_round_aux prec emax s mx ex lx
    = binary_round_aux prec emax s mx' ex' lx'.
Proof.
  intros Hmx Hin Hex Hmx' Hin' Hex'.
  pose proof (first_exponent_unique _ _ _ _ _ _ _ Hmx Hin Hex Hmx' Hin' Hex')
    as He.
  destruct (shr_fexp_spec mx ex lx r Hmx Hin Hex) as (Hs1 & _ & Hs3).
  destruct (shr_fexp_spec mx' ex' lx' r Hmx' Hin' Hex') as (Hs1' & _ & Hs3').
  unfold binary_round_aux.
  destruct (shr_fexp prec emax mx ex lx) as [mrs e1].
  destruct (shr_fexp prec emax mx' ex' lx') as [mrs' e1'].
  cbn [fst snd] in *. rewrite <- He in *. subst e1 e1'.
  unfold inb_rec in *.
  destruct (inbetween_unique _ _ _ _ _ _ Hs3 Hs3') as [Hm Hl].
  rewrite Hm, Hl. reflexivity.
Qed.

(** Two quotients with the same exact value are the same number. *)
Lemma num_div_same_quotient (x y x' y' : number) :
  pos_num x -> pos_num y -> pos_num x' -> pos_num y' ->
  (SF2R x / SF2R y = SF2R x' / SF2R y')%R ->
  num_div x y = num_div x' y'.
Proof.
  intros (mx & ex & -> & _) (my & ey & -> & _)
         (mx' & ex' & -> & _) (my' & ey' & -> & _) Heq.
  cbn [SF2R cond_Zopp] in Heq. unfold num_div, SFdiv.
  pose proof (SFdiv_core_binary_spec mx my ex ey) as H.
  pose proof (SFdiv_core_binary_spec mx' my' ex' ey') as H'.
  destruct (SFdiv_core_binary prec emax (Zpos mx) ex (Zpos my) ey)
    as [[q e] l].
  destruct (SFdiv_core_binary prec emax (Zpos mx') ex' (Zpos my') ey')
    as [[q' e'] l'].
  destruct H as (Hq & Hin & He). destruct H' as (Hq' & Hin' & He').
  rewrite <- Heq in Hin'.
  apply (binary_round_aux_unique _ _ _ _ _ _ _ _ Hq Hin He Hq' Hin' He').
Qed.

End RoundingIsAFunction.

(** * The geometry in exact integer terms *)

Section ExactGeometry.

Variables srcW srcH targetW targetH : Z.
Hypothesis HsrcW : 0 < srcW < 2 ^ 32.
Hypothesis HsrcH : 0 < srcH < 2 ^ 32.
Hypothesis HtargetW : 1 <= targetW <= 8000.
Hypothesis HtargetH : 1 <= targetH <= 8000.

Lemma bpow_m1022_small : (bpow (-1022) <= / 17179869184)%R.
Proof.
  replace (/ 17179869184)%R with (bpow (-34)).
  - apply bpow_le. lia.
  - unfold bpow. simpl. lra.
Qed.

Lemma bpow_1023_large : (140737488355328 <= bpow 1023)%R.
Proof.
  replace 140737488355328%R with (bpow 47).
  - apply bpow_le. lia.
  - rewrite bpow_Z by lia. reflexivity.
Qed.

(** The rounded aspect ratio of two dimensions below [2^32]. *)
Lemma aspect_rel (w h : Z) :
  0 < w < 2 ^ 32 -> 0 < h < 2 ^ 32 ->
  pos_num (aspect w h) /\
  (IZR w / IZR h - IZR w / IZR h * / 4503599627370496
     <= SF2R (aspect w h)
     <= IZR w / IZR h + IZR w / IZR h * / 4503599627370496)%R /\
  (/ 4294967296 <= IZR w / IZR h <= 4294967296)%R.
Proof.
  intros Hw Hh.
  destruct (pos_num_of_dim w Hw) as [Hpw Hvw].
  destruct (pos_num_of_dim h Hh) as [Hph Hvh].
  change (2 ^ 32) with 4294967296 in *.
  assert (HW : (1 <= IZR w <= 4294967296)%R) by (split; apply IZR_le; lia).
  assert (HH : (1 <= IZR h <= 4294967296)%R) by (split; apply IZR_le; lia).
  assert (Hq : (/ 4294967296 <= IZR w / IZR h <= 4294967296)%R).
  { split.
    - apply (Rmult_le_reg_r (IZR h)); [lra|]. field_simplify; lra.
    - apply (Rmult_le_reg_r (IZR h)); [lra|]. field_simplify; nra. }
  pose proof bpow_m1022_small. pose proof bpow_1023_large.
  unfold aspect.
  destruct (num_div_rel (num_of_Z w) (num_of_Z h) Hpw Hph) as [Hp Hv];
    rewrite ?Hvw, ?Hvh in *; [lra|].
  auto.
Qed.

Lemma div_le_scaled (c d x : R) :
  (0 < d)%R -> (c <= x * d)%R -> (c / d <= x)%R.
Proof.
  intros Hd H. apply (Rmult_le_reg_r d); [assumption|].
  replace (c / d * d)%R with c by (field; lra). exact H.
Qed.

(** Two distinct ratios, one of a source and one of a target, differ by more
    than the rounding can hide. *)
Lemma ratio_gap (a b c d : R) :
  (1 <= a)%R -> (1 <= b)%R -> (1 <= c)%R -> (1 <= d)%R ->
  (a * d <= 34359738368000)%R -> (c * b + 1 <= a * d)%R ->
  (c / d <= a / b * (1 - / 34359738368000))%R.
Proof.
  intros Ha Hb Hc Hd HM Hgap.
  apply div_le_scaled; [lra|].
  apply (Rmult_le_reg_r b); [lra|].
  replace (a / b * (1 - / 34359738368000) * d * b)%R
    with (a * d - a * d * / 34359738368000)%R by (field; lra).
  lra.
Qed.

Lemma num_gt_irrefl (x : number) : nonneg_num x -> num_gt x x = false.
Proof.
  intros Hx. destruct (num_gt x x) eqn:H; [|reflexivity].
  apply num_gt_spec in H; [lra|assumption|assumption].
Qed.

(** The rounded comparisons against the comparisons of the fractions. *)
Lemma aspect_compare_Z :
  num_gt (aspect srcW srcH) (aspect targetW targetH)
    = (targetW * srcH <? srcW * targetH) /\
  num_eq (aspect srcW srcH) (aspect targetW targetH)
    = (srcW * targetH =? targetW * srcH).
Proof.
  destruct (aspect_rel srcW srcH HsrcW HsrcH) as (Hps & [Hs1 Hs2] & Hsq).
  destruct (aspect_rel targetW targetH (target_lt_pow32 _ HtargetW)
              (target_lt_pow32 _ HtargetH)) as (Hpt & [Ht1 Ht2] & Htq).
  change (2 ^ 32) with 4294967296 in *.
  assert (Ha : (1 <= IZR srcW <= 4294967295)%R) by (split; apply IZR_le; lia).
  assert (Hb : (1 <= IZR srcH <= 4294967295)%R) by (split; apply IZR_le; lia).
  assert (Hc : (1 <= IZR targetW <= 8000)%R) by (split; apply IZR_le; lia).
  assert (Hd : (1 <= IZR targetH <= 8000)%R) by (split; apply IZR_le; lia).
  set (A := SF2R (aspect srcW srcH)) in *.
  set (T := SF2R (aspect targetW targetH)) in *.
  set (rs := (IZR srcW / IZR srcH)%R) in *.
  set (rt := (IZR targetW / IZR targetH)%R) in *.
  destruct (Z.lt_trichotomy (srcW * targetH) (targetW * srcH))
    as [Hlt|[Heq|Hgt]].
  - (* the target is relatively wider *)
    assert (Hgap : (rs <= rt * (1 - / 34359738368000))%R).
    { apply ratio_gap; try lra.
      - assert (IZR targetW * IZR srcH <= 8000 * 4294967295)%R
          by (apply Rmult_le_compat; lra). lra.
      - rewrite <- !mult_IZR, <- (plus_IZR _ 1). apply IZR_le. lia. }
    assert (HAT : (A < T)%R) by lra.
    split.
    + replace (targetW * srcH <? srcW * targetH) with false
        by (symmetry; apply Z.ltb_ge; lia).
      destruct (num_gt (aspect srcW srcH) (aspect targetW targetH)) eqn:H;
        [|reflexivity].
      apply num_gt_spec in H;
        [fold A T in H; lra | apply pos_num_nonneg; assumption
         | apply pos_num_nonneg; assumption].
    + replace (srcW * targetH =? targetW * srcH) with false
        by (symmetry; apply Z.eqb_neq; lia).
      destruct (num_eq (aspect srcW srcH) (aspect targetW targetH)) eqn:H;
        [|reflexivity].
      apply num_eq_spec in H;
        [fold A T in H; lra | apply pos_num_nonneg; assumption
         | apply pos_num_nonneg; assumption].
  - (* the same fraction *)
    assert (Hsame : aspect srcW srcH = aspect targetW targetH).
    { destruct (pos_num_of_dim srcW HsrcW) as [Hp1 Hv1].
      destruct (pos_num_of_dim srcH HsrcH) as [Hp2 Hv2].
      destruct (pos_num_of_dim targetW (target_lt_pow32 _ HtargetW))
        as [Hp3 Hv3].
      destruct (pos_num_of_dim targetH (target_lt_pow32 _ HtargetH))
        as [Hp4 Hv4].
      unfold aspect. apply num_div_same_quotient; try assumption.
      rewrite Hv1, Hv2, Hv3, Hv4.
      apply (f_equal IZR) in Heq. rewrite !mult_IZR in Heq.
      apply (Rmult_eq_reg_r (IZR srcH * IZR targetH)); [|nra].
      field_simplify; lra. }
    rewrite Hsame. split.
    + replace (targetW * srcH <? srcW * targetH) with false
        by (symmetry; apply Z.ltb_ge; lia).
      apply num_gt_irrefl. apply pos_num_nonneg. assumption.
    + replace (srcW * targetH =? targetW * srcH) with true
        by (symmetry; apply Z.eqb_eq; lia).
      apply num_eq_spec; try (apply pos_num_nonneg; assumption). reflexivity.
  - (* the source is relatively wider *)
    assert (Hgap : (rt <= rs * (1 - / 34359738368000))%R).
    { apply ratio_gap; try lra.
      - assert (IZR srcW * IZR targetH <= 4294967295 * 8000)%R
          by (apply Rmult_le_compat; lra). lra.
      - rewrite <- !mult_IZR, <- (plus_IZR _ 1). apply IZR_le. lia. }
    assert (HAT : (T < A)%R) by lra.
    split.
    + replace (targetW * srcH <? srcW * targetH) with true
        by (symmetry; apply Z.ltb_lt; lia).
      apply num_gt_spec; try (apply pos_num_nonneg; assumption).
      fold A T. exact HAT.
    + replace (srcW * targetH =? targetW * srcH) with false
        by (symmetry; apply Z.eqb_neq; lia).
      destruct (num_eq (aspect srcW srcH) (aspect targetW targetH)) eqn:H;
        [|reflexivity].
      apply num_eq_spec in H;
        [fold A T in H; lra | apply pos_num_nonneg; assumption
         | apply pos_num_nonneg; assumption].
Qed.

End ExactGeometry.

(** * The scaled dimension against the exact fraction *)

Section ExactScaling.

Variables srcW srcH targetW targetH : Z.
Hypothesis HsrcW : 0 < srcW < 2 ^ 32.
Hypothesis HsrcH : 0 < srcH < 2 ^ 32.
Hypothesis HtargetW : 1 <= targetW <= 8000.
Hypothesis HtargetH : 1 <= targetH <= 8000.

(** [targetH * srcAR], multiplied back by [srcH], is within 1/32 of
    [targetH * srcW]. *)
Lemma scaled_product_error :
  let P := num_mul (num_of_Z targetH) (aspect srcW srcH) in
  pos_num P /\
  (IZR (targetH * srcW) - / 32 <= SF2R P * IZR srcH
     <= IZR (targetH * srcW) + / 32)%R.
Proof.
  intros P.
  destruct (aspect_rel srcW srcH HsrcW HsrcH) as (Hps & [Hs1 Hs2] & Hsq).
  destruct (pos_num_of_dim targetH (target_lt_pow32 _ HtargetH)) as [Hph Hvh].
  change (2 ^ 32) with 4294967296 in *.
  assert (Ha : (1 <= IZR srcW <= 4294967295)%R) by (split; apply IZR_le; lia).
  assert (Hb : (1 <= IZR srcH <= 4294967295)%R) by (split; apply IZR_le; lia).
  assert (Hd : (1 <= IZR targetH <= 8000)%R) by (split; apply IZR_le; lia).
  set (A := SF2R (aspect srcW srcH)) in *.
  set (rs := (IZR srcW / IZR srcH)%R) in *.
  set (d := IZR targetH) in *.
  assert (HdA1 : (d * rs - d * rs * / 4503599627370496 <= d * A)%R).
  { replace (d * rs - d * rs * / 4503599627370496)%R
      with (d * (rs - rs * / 4503599627370496))%R by ring.
    apply Rmult_le_compat_l; lra. }
  assert (HdA2 : (d * A <= d * rs + d * rs * / 4503599627370496)%R).
  { replace (d * rs + d * rs * / 4503599627370496)%R
      with (d * (rs + rs * / 4503599627370496))%R by ring.
    apply Rmult_le_compat_l; lra. }
  assert (Hu : (/ 4294967296 <= d * rs <= 8000 * 4294967296)%R).
  { split.
    - assert (1 * rs <= d * rs)%R by (apply Rmult_le_compat_r; lra). lra.
    - apply Rmult_le_compat; lra. }
  pose proof bpow_m1022_small. pose proof bpow_1023_large.
  destruct (num_mul_rel (num_of_Z targetH) (aspect srcW srcH) Hph Hps)
    as [Hp [Hv1 Hv2]]; rewrite ?Hvh; fold A d; [lra|].
  fold P in Hp, Hv1, Hv2. rewrite Hvh in Hv1, Hv2. fold A d in Hv1, Hv2.
  split; [exact Hp|].
  assert (Hub : (d * rs * IZR srcH = IZR (targetH * srcW))%R).
  { rewrite mult_IZR. unfold rs, d. field. lra. }
  rewrite <- Hub.
  set (u := (d * rs)%R) in *.
  assert (Hlo : (u - u * / 2000000000000000 <= SF2R P)%R) by lra.
  assert (Hhi : (SF2R P <= u + u * / 2000000000000000)%R) by lra.
  assert (Hub2 : (u * IZR srcH <= 8000 * 4294967295)%R).
  { rewrite Hub, mult_IZR. fold d. apply Rmult_le_compat; lra. }
  split.
  - assert ((u - u * / 2000000000000000) * IZR srcH <= SF2R P * IZR srcH)%R
      by (apply Rmult_le_compat_r; lra).
    lra.
  - assert (SF2R P * IZR srcH <= (u + u * / 2000000000000000) * IZR srcH)%R
      by (apply Rmult_le_compat_r; lra).
    lra.
Qed.

(** [targetW / srcAR], multiplied back by [srcW], is within 1/32 of
    [targetW * srcH]. *)
Lemma scaled_quotient_error :
  let Q := num_div (num_of_Z targetW) (aspect srcW srcH) in
  pos_num Q /\
  (IZR (targetW * srcH) - / 32 <= SF2R Q * IZR srcW
     <= IZR (targetW * srcH) + / 32)%R.
Proof.
  intros Q.
  destruct (aspect_rel srcW srcH HsrcW HsrcH) as (Hps & [Hs1 Hs2] & Hsq).
  destruct (pos_num_of_dim targetW (target_lt_pow32 _ HtargetW)) as [Hpw Hvw].
  change (2 ^ 32) with 4294967296 in *.
  assert (Ha : (1 <= IZR srcW <= 4294967295)%R) by (split; apply IZR_le; lia).
  assert (Hb : (1 <= IZR srcH <= 4294967295)%R) by (split; apply IZR_le; lia).
  assert (Hc : (1 <= IZR targetW <= 8000)%R) by (split; apply IZR_le; lia).
  set (A := SF2R (aspect srcW srcH)) in *.
  set (rs := (IZR srcW / IZR srcH)%R) in *.
  set (c := IZR targetW) in *.
  assert (HA : (0 < A)%R) by lra.
  set (y := (c / A)%R).
  assert (HyA : (y * A = c)%R) by (unfold y; field; lra).
  assert (Hy : (0 < y)%R) by (apply Rdiv_lt_0_compat; lra).
  (* z = y * rs is close to c *)
  set (z := (y * rs)%R).
  assert (Hz1 : (z - z * / 4503599627370496 <= c)%R).
  { rewrite <- HyA. unfold z.
    replace (y * rs - y * rs * / 4503599627370496)%R
      with (y * (rs - rs * / 4503599627370496))%R by ring.
    apply Rmult_le_compat_l; lra. }
  assert (Hz2 : (c <= z + z * / 4503599627370496)%R).
  { rewrite <- HyA. unfold z.
    replace (y * rs + y * rs * / 4503599627370496)%R
      with (y * (rs + rs * / 4503599627370496))%R by ring.
    apply Rmult_le_compat_l; lra. }
  assert (Hyr : (/ 17179869184 <= y <= 140737488355328 / 2)%R).
  { split.
    - apply (Rmult_le_reg_r A); [assumption|]. rewrite HyA. nra.
    - apply div_le_scaled; [assumption|]. nra. }
  pose proof bpow_m1022_small. pose proof bpow_1023_large.
  destruct (num_div_rel (num_of_Z targetW) (aspect srcW srcH) Hpw Hps)
    as [Hp [Hv1 Hv2]]; rewrite ?Hvw; fold A c y; [lra|].
  fold Q in Hp, Hv1, Hv2. rewrite Hvw in Hv1, Hv2. fold A c y in Hv1, Hv2.
  split; [exact Hp|].
  (* Q * rs against c *)
  assert (Hq1 : (z - z * / 4503599627370496 <= SF2R Q * rs)%R).
  { unfold z.
    replace (y * rs - y * rs * / 4503599627370496)%R
      with ((y - y * / 4503599627370496) * rs)%R by ring.
    apply Rmult_le_compat_r; lra. }
  assert (Hq2 : (SF2R Q * rs <= z + z * / 4503599627370496)%R).
  { unfold z.
    replace (y * rs + y * rs * / 4503599627370496)%R
      with ((y + y * / 4503599627370496) * rs)%R by ring.
    apply Rmult_le_compat_r; lra. }
  assert (Hzc : (z <= c + c * / 2000000000000000)%R) by lra.
  assert (Hqc1 : (c - c * / 2000000000000000 <= SF2R Q * rs)%R) by lra.
  assert (Hqc2 : (SF2R Q * rs <= c + c * / 2000000000000000)%R) by lra.
  assert (Hqa : (SF2R Q * rs * IZR srcH = SF2R Q * IZR srcW)%R).
  { unfold rs. field. lra. }
  rewrite <- Hqa, mult_IZR. fold c.
  assert (Hcb : (c * IZR srcH <= 8000 * 4294967295)%R)
    by (apply Rmult_le_compat; lra).
  split.
  - assert ((c - c * / 2000000000000000) * IZR srcH
            <= SF2R Q * rs * IZR srcH)%R
      by (apply Rmult_le_compat_r; lra).
    lra.
  - assert (SF2R Q * rs * IZR srcH
            <= (c + c * / 2000000000000000) * IZR srcH)%R
      by (apply Rmult_le_compat_r; lra).
    lra.
Qed.

Lemma floor_times (x : R) (n k N : Z) :
  0 < k -> (IZR n <= x < IZR n + 1)%R ->
  (IZR N - / 32 <= x * IZR k <= IZR N + / 32)%R ->
  n * k <= N <= (n + 1) * k.
Proof.
  intros Hk [H1 H2] [H3 H4].
  assert (HK : (1 <= IZR k)%R) by (apply IZR_le; lia).
  assert (IZR n * IZR k <= x * IZR k)%R by (apply Rmult_le_compat_r; lra).
  assert (x * IZR k < (IZR n + 1) * IZR k)%R by (apply Rmult_lt_compat_r; lra).
  split.
  - assert (n * k < N + 1)
      by (apply lt_IZR; rewrite mult_IZR, plus_IZR; lra). lia.
  - assert (N - 1 < (n + 1) * k)
      by (apply lt_IZR; rewrite mult_IZR, minus_IZR, plus_IZR; lra). lia.
Qed.

Lemma ceil_times (x : R) (n k N : Z) :
  0 < k -> (IZR n - 1 < x <= IZR n)%R ->
  (IZR N - / 32 <= x * IZR k <= IZR N + / 32)%R ->
  (n - 1) * k <= N <= n * k.
Proof.
  intros Hk [H1 H2] [H3 H4].
  assert (HK : (1 <= IZR k)%R) by (apply IZR_le; lia).
  assert (x * IZR k <= IZR n * IZR k)%R by (apply Rmult_le_compat_r; lra).
  assert ((IZR n - 1) * IZR k < x * IZR k)%R by (apply Rmult_lt_compat_r; lra).
  split.
  - assert ((n - 1) * k < N + 1)
      by (apply lt_IZR; rewrite mult_IZR, minus_IZR, plus_IZR; lra). lia.
  - assert (N - 1 < n * k)
      by (apply lt_IZR; rewrite mult_IZR, minus_IZR; lra). lia.
Qed.

Lemma product_floor_exact :
  exists n, Math_floor (num_mul (num_of_Z targetH) (aspect srcW srcH))
              = num_of_Z n /\
    0 <= n /\ n * srcH <= targetH * srcW <= (n + 1) * srcH.
Proof.
  destruct scaled_product_error as [Hp Herr].
  destruct (Math_floor_nonneg _ (pos_num_nonneg _ Hp)) as (n & Hn & Hn0 & Hfl).
  exists n. split; [exact Hn|]. split; [exact Hn0|].
  apply (floor_times _ n srcH _ ltac:(lia) Hfl Herr).
Qed.

Lemma product_ceil_exact :
  exists n, Math_ceil (num_mul (num_of_Z targetH) (aspect srcW srcH))
              = num_of_Z n /\
    0 <= n /\ (n - 1) * srcH <= targetH * srcW <= n * srcH.
Proof.
  destruct scaled_product_error as [Hp Herr].
  destruct (Math_ceil_nonneg _ (pos_num_nonneg _ Hp)) as (n & Hn & Hn0 & Hfl).
  exists n. split; [exact Hn|]. split; [exact Hn0|].
  apply (ceil_times _ n srcH _ ltac:(lia) Hfl Herr).
Qed.

Lemma quotient_floor_exact :
  exists n, Math_floor (num_div (num_of_Z targetW) (aspect srcW srcH))
              = num_of_Z n /\
    0 <= n /\ n * srcW <= targetW * srcH <= (n + 1) * srcW.
Proof.
  destruct scaled_quotient_error as [Hp Herr].
  destruct (Math_floor_nonneg _ (pos_num_nonneg _ Hp)) as (n & Hn & Hn0 & Hfl).
  exists n. split; [exact Hn|]. split; [exact Hn0|].
  apply (floor_times _ n srcW _ ltac:(lia) Hfl Herr).
Qed.

Lemma quotient_ceil_exact :
  exists n, Math_ceil (num_div (num_of_Z targetW) (aspect srcW srcH))
              = num_of_Z n /\
    0 <= n /\ (n - 1) * srcW <= targetW * srcH <= n * srcW.
Proof.
  destruct scaled_quotient_error as [Hp Herr].
  destruct (Math_ceil_nonneg _ (pos_num_nonneg _ Hp)) as (n & Hn & Hn0 & Hfl).
  exists n. split; [exact Hn|]. split; [exact Hn0|].
  apply (ceil_times _ n srcW _ ltac:(lia) Hfl Herr).
Qed.

(** The [contain] geometry in integers: the side copied from the target and
    the bounds on the scaled one. *)
Lemma contain_geometry_Z :
  exists w h,
    composeZ srcW srcH targetW targetH true contain
      = geometryZ w h ((targetW - w) / 2) ((targetH - h) / 2) /\
    0 <= w /\ 0 <= h /\
    if targetW * srcH <? srcW * targetH
    then w = targetW /\ h * srcW <= targetW * srcH <= (h + 1) * srcW
    else h = targetH /\ w * srcH <= targetH * srcW <= (w + 1) * srcH.
Proof.
  destruct (aspect_compare_Z srcW srcH targetW targetH
              HsrcW HsrcH HtargetW HtargetH) as [Hgt _].
  assert (HW : 0 < srcW < 4294967296) by exact HsrcW.
  assert (HH : 0 < srcH < 4294967296) by exact HsrcH.
  unfold composeZ, compose, geometryZ. cbn [negb].
  unfold aspect in Hgt. rewrite Hgt.
  destruct (targetW * srcH <? srcW * targetH).
  - destruct quotient_floor_exact as (n & Hn & Hn0 & Hb).
    unfold aspect in Hn. exists targetW, n. rewrite Hn.
    rewrite (offset_Z targetH n), Z.sub_diag;
      [|assumption|change (2 ^ 32) with 4294967296; nia].
    split; [reflexivity|]. repeat split; lia.
  - destruct product_floor_exact as (n & Hn & Hn0 & Hb).
    unfold aspect in Hn. exists n, targetH. rewrite Hn.
    rewrite (offset_Z targetW n), Z.sub_diag;
      [|assumption|change (2 ^ 32) with 4294967296; nia].
    split; [reflexivity|]. repeat split; lia.
Qed.

(** The [cover] geometry in integers. *)
Lemma cover_geometry_Z :
  exists w h,
    composeZ srcW srcH targetW targetH true cover
      = geometryZ w h ((targetW - w) / 2) ((targetH - h) / 2) /\
    0 <= w /\ 0 <= h /\
    if targetW * srcH <? srcW * targetH
    then h = targetH /\ (w - 1) * srcH <= targetH * srcW <= w * srcH
    else w = targetW /\ (h - 1) * srcW <= targetW * srcH <= h * srcW.
Proof.
  destruct (aspect_compare_Z srcW srcH targetW targetH
              HsrcW HsrcH HtargetW HtargetH) as [Hgt _].
  assert (HW : 0 < srcW < 4294967296) by exact HsrcW.
  assert (HH : 0 < srcH < 4294967296) by exact HsrcH.
  unfold composeZ, compose, geometryZ. cbn [negb].
  unfold aspect in Hgt. rewrite Hgt.
  destruct (targetW * srcH <? srcW * targetH).
  - destruct product_ceil_exact as (n & Hn & Hn0 & Hb).
    unfold aspect in Hn. exists n, targetH. rewrite Hn.
    rewrite (offset_Z targetW n), Z.sub_diag;
      [|assumption|change (2 ^ 32) with 4294967296; nia].
    split; [reflexivity|]. repeat split; lia.
  - destruct quotient_ceil_exact as (n & Hn & Hn0 & Hb).
    unfold aspect in Hn. exists targetW, n. rewrite Hn.
    rewrite (offset_Z targetH n), Z.sub_diag;
      [|assumption|change (2 ^ 32) with 4294967296; nia].
    split; [reflexivity|]. repeat split; lia.
Qed.

(** C5, amended.  The drawn width and height are integers that are never
    negative.  For [cover] both are strictly positive.  For [contain] the
    side copied from the target is strictly positive, and the scaled side is
    strictly positive whenever its exact value exceeds one pixel and zero
    whenever its exact value is below one pixel: the exact height is
    [target.width * srcH / srcW] when the source is relatively wider, and the
    exact width is [target.height * srcW / srcH] otherwise. *)
Theorem draw_dimensions_positive_above_one_pixel (fit : FitMode) :
  exists w h x y,
    composeZ srcW srcH targetW targetH true fit = geometryZ w h x y /\
    0 <= w /\ 0 <= h /\
    match fit with
    | cover => 0 < w /\ 0 < h
    | contain =>
        if targetW * srcH <? srcW * targetH
        then w = targetW /\ 0 < w /\
             (srcW < targetW * srcH -> 0 < h) /\
             (targetW * srcH < srcW -> h = 0)
        else h = targetH /\ 0 < h /\
             (srcH < targetH * srcW -> 0 < w) /\
             (targetH * srcW < srcH -> w = 0)
    end.
Proof.
  destruct fit.
  - destruct (cover_geometry_bounds srcW srcH targetW targetH
                HsrcW HsrcH HtargetW HtargetH)
      as (w & h & Hg & Hw & Hh & _).
    exists w, h, ((targetW - w) / 2), ((targetH - h) / 2).
    split; [exact Hg|]. lia.
  - destruct contain_geometry_Z as (w & h & Hg & Hw & Hh & Hside).
    exists w, h, ((targetW - w) / 2), ((targetH - h) / 2).
    split; [exact Hg|]. split; [exact Hw|]. split; [exact Hh|].
    destruct (targetW * srcH <? srcW * targetH).
    + destruct Hside as [-> Hb].
      split; [reflexivity|]. split; [lia|]. split; intros Hx; nia.
    + destruct Hside as [-> Hb].
      split; [reflexivity|]. split; [lia|]. split; intros Hx; nia.
Qed.

(** X7. The branch is chosen as exact arithmetic would choose it: the
    rounded [srcAR > dstAR] holds exactly when [srcW / srcH > targetW /
    targetH] as fractions, and [srcAR == dstAR] exactly when the fractions
    are equal.  The two roundings never reorder or merge the aspect ratios of
    a source and a clamped target. *)
Theorem aspect_comparison_exact :
  num_gt (aspect srcW srcH) (aspect targetW targetH)
    = (targetW * srcH <? srcW * targetH) /\
  num_eq (aspect srcW srcH) (aspect targetW targetH)
    = (srcW * targetH =? targetW * srcH).
Proof. apply aspect_compare_Z; assumption. Qed.

(** X8. The [contain] geometry in integers.  When the source is relatively
    wider, the width is the target's and the height [h] satisfies [h * srcW
    <= targetW * srcH <= (h + 1) * srcW]: it is the exact height rounded
    down, or one less than it when the exact height is an integer.  Otherwise
    the height is the target's and the width [w] satisfies [w * srcH <=
    targetH * srcW <= (w + 1) * srcH].  The image is centred. *)
Theorem contain_geometry_exact :
  exists w h,
    composeZ srcW srcH targetW targetH true contain
      = geometryZ w h ((targetW - w) / 2) ((targetH - h) / 2) /\
    0 <= w /\ 0 <= h /\
    if targetW * srcH <? srcW * targetH
    then w = targetW /\ h * srcW <= targetW * srcH <= (h + 1) * srcW
    else h = targetH /\ w * srcH <= targetH * srcW <= (w + 1) * srcH.
Proof.
  destruct (aspect_compare_Z srcW srcH targetW targetH) as [Hgt _];
    try assumption.
  change (2 ^ 32) with 4294967296 in *.
  unfold composeZ, compose, geometryZ. cbn [negb]. unfold aspect in *.
  rewrite Hgt. destruct (targetW * srcH <? srcW * targetH).
  - destruct quotient_floor_exact as (n & Hn & Hn0 & Hb).
    unfold aspect in Hn. exists targetW, n.
    rewrite Hn, offset_Z, Z.sub_diag
      by (try assumption; change (2 ^ 32) with 4294967296; nia).
    split; [reflexivity|]. repeat split; lia.
  - destruct product_floor_exact as (n & Hn & Hn0 & Hb).
    unfold aspect in Hn. exists n, targetH.
    rewrite Hn, offset_Z, Z.sub_diag
      by (try assumption; change (2 ^ 32) with 4294967296; nia).
    split; [reflexivity|]. repeat split; lia.
Qed.

(** X9. The [cover] geometry in integers.  When the source is relatively
    wider, the height is the target's and the width [w] satisfies [(w - 1) *
    srcH <= targetH * srcW <= w * srcH]: it is the exact width rounded up, or
    one more than it when the exact width is an integer.  Otherwise the width
    is the target's and the height [h] satisfies [(h - 1) * srcW <= targetW
    * srcH <= h * srcW].  The image is centred. *)
Theorem cover_geometry_exact :
  exists w h,
    composeZ srcW srcH targetW targetH true cover
      = geometryZ w h ((targetW - w) / 2) ((targetH - h) / 2) /\
    0 <= w /\ 0 <= h /\
    if targetW * srcH <? srcW * targetH
    then h = targetH /\ (w - 1) * srcH <= targetH * srcW <= w * srcH
    else w = targetW /\ (h - 1) * srcW <= targetW * srcH <= h * srcW.
Proof.
  destruct (aspect_compare_Z srcW srcH targetW targetH) as [Hgt _];
    try assumption.
  change (2 ^ 32) with 4294967296 in *.
  unfold composeZ, compose, geometryZ. cbn [negb]. unfold aspect in *.
  rewrite Hgt. destruct (targetW * srcH <? srcW * targetH).
  - destruct product_ceil_exact as (n & Hn & Hn0 & Hb).
    unfold aspect in Hn. exists n, targetH.
    rewrite Hn, offset_Z, Z.sub_diag
      by (try assumption; change (2 ^ 32) with 4294967296; nia).
    split; [reflexivity|]. repeat split; lia.
  - destruct quotient_ceil_exact as (n & Hn & Hn0 & Hb).
    unfold aspect in Hn. exists targetW, n.
    rewrite Hn, offset_Z, Z.sub_diag
      by (try assumption; change (2 ^ 32) with 4294967296; nia).
    split; [reflexivity|]. repeat split; lia.
Qed.

End ExactScaling.

Lemma draw_dimensions_positive_above_one_pixel_witness :
  exists w h x y,
    composeZ 16 1 8 8 true contain = geometryZ w h x y /\
    0 <= w /\ 0 <= h /\
    if 8 * 1 <? 16 * 8
    then w = 8 /\ 0 < w /\ (16 < 8 * 1 -> 0 < h) /\ (8 * 1 < 16 -> h = 0)
    else h = 8 /\ 0 < h /\ (1 < 8 * 16 -> 0 < w) /\ (8 * 16 < 1 -> w = 0).
Proof.
  apply (draw_dimensions_positive_above_one_pixel 16 1 8 8);
    change (2 ^ 32) with 4294967296; lia.
Defined.

Lemma aspect_comparison_exact_witness :
  num_gt (aspect 1000 500) (aspect 512 512) = (512 * 500 <? 1000 * 512) /\
  num_eq (aspect 1000 500) (aspect 512 512) = (1000 * 512 =? 512 * 500).
Proof.
  apply (aspect_comparison_exact 1000 500 512 512);
    change (2 ^ 32) with 4294967296; lia.
Defined.

Lemma contain_geometry_exact_witness :
  exists w h,
    composeZ 1000 500 512 512 true contain
      = geometryZ w h ((512 - w) / 2) ((512 - h) / 2) /\
    0 <= w /\ 0 <= h /\
    if 512 * 500 <? 1000 * 512
    then w = 512 /\ h * 1000 <= 512 * 500 <= (h + 1) * 1000
    else h = 512 /\ w * 500 <= 512 * 1000 <= (w + 1) * 500.
Proof.
  apply (contain_geometry_exact 1000 500 512 512);
    change (2 ^ 32) with 4294967296; lia.
Defined.

Lemma cover_geometry_exact_witness :
  exists w h,
    composeZ 1000 500 512 512 true cover
      = geometryZ w h ((512 - w) / 2) ((512 - h) / 2) /\
    0 <= w /\ 0 <= h /\
    if 512 * 500 <? 1000 * 512
    then h = 512 /\ (w - 1) * 500 <= 512 * 1000 <= w * 500
    else w = 512 /\ (h - 1) * 1000 <= 512 * 500 <= h * 1000.
Proof.
  apply (cover_geometry_exact 1000 500 512 512);
    change (2 ^ 32) with 4294967296; lia.
Defined.

(** * The code against the exact branch formulas *)

Section FormulasInIntegers.

Import QArith_base Qround Qfield.
Local Open Scope Z_scope.

Lemma inject_Z_nonzero (a : Z) : 0 < a -> ~ (inject_Z a == 0)%Q.
Proof.
  intros Ha H. unfold Qeq, inject_Z in H. cbn [Qnum Qden] in H. lia.
Qed.

Lemma Q_gt_fractions (a b c d : Z) :
  0 < b -> 0 < d ->
  Q_gt (inject_Z a / inject_Z b) (inject_Z c / inject_Z d)
    = (c * b <? a * d).
Proof.
  intros Hb Hd. unfold Q_gt.
  assert (Hiff : (inject_Z a / inject_Z b <= inject_Z c / inject_Z d)%Q
                 <-> a * d <= c * b).
  { assert (Hb' : (0 < inject_Z b)%Q)
      by (unfold Qlt, inject_Z; cbn [Qnum Qden]; lia).
    assert (Hd' : (0 < inject_Z d)%Q)
      by (unfold Qlt, inject_Z; cbn [Qnum Qden]; lia).
    rewrite (Zle_Qle (a * d) (c * b)), !inject_Z_mult.
    split; intros H.
    - apply (Qmult_le_r _ _ _ Hb') in H.
      apply (Qmult_le_r _ _ _ Hd') in H.
      assert (E1 : (inject_Z a / inject_Z b * inject_Z b * inject_Z d
                    == inject_Z a * inject_Z d)%Q)
        by (field; apply inject_Z_nonzero; exact Hb).
      assert (E2 : (inject_Z c / inject_Z d * inject_Z b * inject_Z d
                    == inject_Z c * inject_Z b)%Q)
        by (field; apply inject_Z_nonzero; exact Hd).
      rewrite E1, E2 in H. exact H.
    - apply (Qmult_le_r _ _ (inject_Z b) Hb').
      apply (Qmult_le_r _ _ (inject_Z d) Hd').
      assert (E1 : (inject_Z a / inject_Z b * inject_Z b * inject_Z d
                    == inject_Z a * inject_Z d)%Q)
        by (field; apply inject_Z_nonzero; exact Hb).
      assert (E2 : (inject_Z c / inject_Z d * inject_Z b * inject_Z d
                    == inject_Z c * inject_Z b)%Q)
        by (field; apply inject_Z_nonzero; exact Hd).
      rewrite E1, E2. exact H. }
  destruct (Z.ltb_spec (c * b) (a * d)) as [Hlt|Hge].
  - apply negb_true_iff. apply not_true_iff_false.
    rewrite Qle_bool_iff, Hiff. lia.
  - apply negb_false_iff. rewrite Qle_bool_iff, Hiff. lia.
Qed.

Lemma Qfloor_times_fraction (t a b : Z) :
  0 < b ->
  Qfloor (inject_Z t * (inject_Z a / inject_Z b)) = t * a / b.
Proof.
  intros Hb. rewrite (Zdiv_Qdiv (t * a) b). apply Qfloor_comp.
  rewrite inject_Z_mult. field. apply inject_Z_nonzero. exact Hb.
Qed.

Lemma Qfloor_over_fraction (t a b : Z) :
  0 < a -> 0 < b ->
  Qfloor (inject_Z t / (inject_Z a / inject_Z b)) = t * b / a.
Proof.
  intros Ha Hb. rewrite (Zdiv_Qdiv (t * b) a). apply Qfloor_comp.
  rewrite inject_Z_mult. field.
  split; apply inject_Z_nonzero; assumption.
Qed.

Lemma Qceiling_times_fraction (t a b : Z) :
  0 < b ->
  Qceiling (inject_Z t * (inject_Z a / inject_Z b)) = ceil_div (t * a) b.
Proof.
  intros Hb. unfold Qceiling, ceil_div. f_equal.
  rewrite (Zdiv_Qdiv (- (t * a)) b). apply Qfloor_comp.
  rewrite inject_Z_opp, inject_Z_mult. field.
  apply inject_Z_nonzero. exact Hb.
Qed.

Lemma Qceiling_over_fraction (t a b : Z) :
  0 < a -> 0 < b ->
  Qceiling (inject_Z t / (inject_Z a / inject_Z b)) = ceil_div (t * b) a.
Proof.
  intros Ha Hb. unfold Qceiling, ceil_div. f_equal.
  rewrite (Zdiv_Qdiv (- (t * b)) a). apply Qfloor_comp.
  rewrite inject_Z_opp, inject_Z_mult. field.
  split; apply inject_Z_nonzero; assumption.
Qed.

Lemma Qfloor_centre (t d : Z) :
  Qfloor ((inject_Z t - inject_Z d) / inject_Z 2) = (t - d) / 2.
Proof.
  rewrite (Zdiv_Qdiv (t - d) 2). apply Qfloor_comp.
  unfold Z.sub. rewrite inject_Z_plus, inject_Z_opp. reflexivity.
Qed.

(** The formulas of the specification, on integers. *)
Lemma branch_formulas_Z (srcW srcH targetW targetH : Z) (fit : FitMode) :
  0 < srcW -> 0 < srcH -> 0 < targetH ->
  branch_formulas srcW srcH targetW targetH fit
  = match fit, (targetW * srcH <? srcW * targetH) with
    | cover, true =>
        let w := ceil_div (targetH * srcW) srcH in
        geometryZ w targetH ((targetW - w) / 2) 0
    | cover, false =>
        let h := ceil_div (targetW * srcH) srcW in
        geometryZ targetW h 0 ((targetH - h) / 2)
    | contain, true =>
        let h := targetW * srcH / srcW in
        geometryZ targetW h 0 ((targetH - h) / 2)
    | contain, false =>
        let w := targetH * srcW / srcH in
        geometryZ w targetH ((targetW - w) / 2) 0
    end.
Proof.
  intros HW HH HtH.
  unfold branch_formulas, cover_formulas, contain_formulas.
  rewrite (Q_gt_fractions srcW srcH targetW targetH HH HtH).
  destruct fit, (targetW * srcH <? srcW * targetH); cbv zeta;
    rewrite ?Qceiling_times_fraction, ?Qceiling_over_fraction,
      ?Qfloor_times_fraction, ?Qfloor_over_fraction, ?Qfloor_centre
      by assumption;
    reflexivity.
Qed.

End FormulasInIntegers.

Section CodeAgainstFormulas.

Variables srcW srcH targetW targetH : Z.
Hypothesis HsrcW : 0 < srcW < 2 ^ 32.
Hypothesis HsrcH : 0 < srcH < 2 ^ 32.
Hypothesis HtargetW : 1 <= targetW <= 8000.
Hypothesis HtargetH : 1 <= targetH <= 8000.

Lemma floor_div_near (P d n : Z) :
  0 < d -> n * d <= P <= (n + 1) * d ->
  P / d - 1 <= n <= P / d /\ (P mod d <> 0 -> n = P / d).
Proof.
  intros Hd Hn.
  pose proof (Z.div_mod P d ltac:(lia)) as Hdm.
  pose proof (Z.mod_pos_bound P d Hd) as Hm.
  split; [nia|]. intros Hnz. nia.
Qed.

Lemma ceil_div_near (P d n : Z) :
  0 < d -> (n - 1) * d <= P <= n * d ->
  ceil_div P d <= n <= ceil_div P d + 1 /\
  (P mod d <> 0 -> n = ceil_div P d).
Proof.
  intros Hd Hn. unfold ceil_div.
  pose proof (Z.div_mod (- P) d ltac:(lia)) as Hdm.
  pose proof (Z.mod_pos_bound (- P) d Hd) as Hm.
  split; [nia|]. intros Hnz.
  assert (Hr : (- P) mod d <> 0).
  { intros H0. apply Hnz. apply Z.mod_opp_l_z in H0; [|lia].
    rewrite Z.opp_involutive in H0. exact H0. }
  nia.
Qed.

(** X17. How far the code follows the exact branch formulas, for a source
    with dimensions below [2^32] and a clamped target: it takes the same
    branch, copies the same side from the target and centres in the same
    way; its scaled side is the formula's or one pixel more for [cover], the
    formula's or one pixel less for [contain]; and whenever the exact scaled
    side is not a whole number the two geometries are equal. *)
Theorem compose_within_one_pixel_of_formulas (fit : FitMode) :
  exists w h w' h',
    composeZ srcW srcH targetW targetH true fit
      = geometryZ w h ((targetW - w) / 2) ((targetH - h) / 2) /\
    branch_formulas srcW srcH targetW targetH fit
      = geometryZ w' h' ((targetW - w') / 2) ((targetH - h') / 2) /\
    ((w = targetW /\ w' = targetW) \/ (h = targetH /\ h' = targetH)) /\
    match fit with
    | cover => w' <= w <= w' + 1 /\ h' <= h <= h' + 1
    | contain => w' - 1 <= w <= w' /\ h' - 1 <= h <= h'
    end /\
    (scaled_side_whole srcW srcH targetW targetH fit = false ->
     composeZ srcW srcH targetW targetH true fit
       = branch_formulas srcW srcH targetW targetH fit).
Proof.
  assert (HW : 0 < srcW) by lia. assert (HH : 0 < srcH) by lia.
  assert (HtH : 0 < targetH) by lia.
  rewrite (branch_formulas_Z srcW srcH targetW targetH fit HW HH HtH).
  unfold scaled_side_whole. destruct fit.
  - destruct (cover_geometry_Z srcW srcH targetW targetH
                HsrcW HsrcH HtargetW HtargetH)
      as (w & h & Hg & Hw0 & Hh0 & Hside).
    rewrite Hg. destruct (targetW * srcH <? srcW * targetH); cbv zeta.
    + destruct Hside as [-> Hb].
      destruct (ceil_div_near _ _ _ HH Hb) as [Hnear Heq].
      exists w, targetH, (ceil_div (targetH * srcW) srcH), targetH.
      rewrite Z.sub_diag. change (0 / 2) with 0.
      split; [reflexivity|]. split; [reflexivity|].
      split; [right; split; reflexivity|]. split; [lia|].
      intros Hwhole. apply Z.eqb_neq in Hwhole.
      rewrite (Heq Hwhole). reflexivity.
    + destruct Hside as [-> Hb].
      destruct (ceil_div_near _ _ _ HW Hb) as [Hnear Heq].
      exists targetW, h, targetW, (ceil_div (targetW * srcH) srcW).
      rewrite Z.sub_diag. change (0 / 2) with 0.
      split; [reflexivity|]. split; [reflexivity|].
      split; [left; split; reflexivity|]. split; [lia|].
      intros Hwhole. apply Z.eqb_neq in Hwhole.
      rewrite (Heq Hwhole). reflexivity.
  - destruct (contain_geometry_Z srcW srcH targetW targetH
                HsrcW HsrcH HtargetW HtargetH)
      as (w & h & Hg & Hw0 & Hh0 & Hside).
    rewrite Hg. destruct (targetW * srcH <? srcW * targetH); cbv zeta.
    + destruct Hside as [-> Hb].
      destruct (floor_div_near _ _ _ HW Hb) as [Hnear Heq].
      exists targetW, h, targetW, (targetW * srcH / srcW).
      rewrite Z.sub_diag. change (0 / 2) with 0.
      split; [reflexivity|]. split; [reflexivity|].
      split; [left; split; reflexivity|]. split; [lia|].
      intros Hwhole. apply Z.eqb_neq in Hwhole.
      rewrite (Heq Hwhole). reflexivity.
    + destruct Hside as [-> Hb].
      destruct (floor_div_near _ _ _ HH Hb) as [Hnear Heq].
      exists w, targetH, (targetH * srcW / srcH), targetH.
      rewrite Z.sub_diag. change (0 / 2) with 0.
      split; [reflexivity|]. split; [reflexivity|].
      split; [right; split; reflexivity|]. split; [lia|].
      intros Hwhole. apply Z.eqb_neq in Hwhole.
      rewrite (Heq Hwhole). reflexivity.
Qed.

End CodeAgainstFormulas.

Lemma compose_within_one_pixel_of_formulas_witness :
  composeZ 1000 300 512 512 true contain
    = branch_formulas 1000 300 512 512 contain.
Proof.
  destruct (compose_within_one_pixel_of_formulas 1000 300 512 512)
    with (fit := contain) as (w & h & w' & h' & _ & _ & _ & _ & Heq);
    try (change (2 ^ 32) with 4294967296; lia).
  apply Heq. vm_compute. reflexivity.
Defined.

(** * [img.onload] as a whole: the clamp followed by the compositor *)

Section Onload.

(** X10. Whatever size is requested for the previewed output, short of NaN
    (a fraction, zero, a negative or a huge number, an infinity), [img.onload]
    sizes the canvas to whole dimensions between 1 and 8000 and draws at whole
    coordinates.  Stretching fills the canvas; [contain] draws inside the
    canvas and [cover] draws over all of it, centred up to one pixel, with one
    side of the drawing equal to the canvas side. *)
Theorem onload_draws_on_canvas (spec_width spec_height : number)
    (srcW srcH : Z) (fit : FitMode) :
  spec_width <> S754_nan -> spec_height <> S754_nan ->
  0 < srcW < 2 ^ 32 -> 0 < srcH < 2 ^ 32 ->
  exists canvasW canvasH w h x y,
    clamp_dimension spec_width = num_of_Z canvasW /\
    clamp_dimension spec_height = num_of_Z canvasH /\
    1 <= canvasW <= 8000 /\ 1 <= canvasH <= 8000 /\
    onload spec_width spec_height (num_of_Z srcW) (num_of_Z srcH) false fit
      = geometryZ canvasW canvasH 0 0 /\
    onload spec_width spec_height (num_of_Z srcW) (num_of_Z srcH) true fit
      = geometryZ w h x y /\
    (w = canvasW \/ h = canvasH) /\
    match fit with
    | contain =>
        0 <= x /\ x + w <= canvasW /\ 0 <= y /\ y + h <= canvasH /\
        canvasW - (x + w) - 1 <= x <= canvasW - (x + w) /\
        canvasH - (y + h) - 1 <= y <= canvasH - (y + h)
    | cover =>
        x <= 0 /\ canvasW <= x + w /\ y <= 0 /\ canvasH <= y + h /\
        canvasW - (x + w) - 1 <= x <= canvasW - (x + w) /\
        canvasH - (y + h) - 1 <= y <= canvasH - (y + h)
    end.
Proof.
  intros Hw Hh HsrcW HsrcH.
  destruct (clamp_dimension_integer spec_width Hw) as (cw & Hcw & Hcwr).
  destruct (clamp_dimension_integer spec_height Hh) as (ch & Hch & Hchr).
  unfold onload. rewrite Hcw, Hch.
  change (compose (num_of_Z srcW) (num_of_Z srcH) (num_of_Z cw) (num_of_Z ch))
    with (composeZ srcW srcH cw ch).
  destruct fit.
  - destruct (cover_geometry_bounds srcW srcH cw ch HsrcW HsrcH Hcwr Hchr)
      as (w & h & Hg & Hbw & Hbh & Hside).
    exists cw, ch, w, h, ((cw - w) / 2), ((ch - h) / 2).
    pose proof (Z.div_mod (cw - w) 2 ltac:(lia)) as Hx.
    pose proof (Z.mod_pos_bound (cw - w) 2 ltac:(lia)) as Hxm.
    pose proof (Z.div_mod (ch - h) 2 ltac:(lia)) as Hy.
    pose proof (Z.mod_pos_bound (ch - h) 2 ltac:(lia)) as Hym.
    repeat split; try assumption; try reflexivity; lia.
  - destruct (contain_geometry_bounds srcW srcH cw ch HsrcW HsrcH Hcwr Hchr)
      as (w & h & Hg & Hbw & Hbh & Hside).
    exists cw, ch, w, h, ((cw - w) / 2), ((ch - h) / 2).
    pose proof (Z.div_mod (cw - w) 2 ltac:(lia)) as Hx.
    pose proof (Z.mod_pos_bound (cw - w) 2 ltac:(lia)) as Hxm.
    pose proof (Z.div_mod (ch - h) 2 ltac:(lia)) as Hy.
    pose proof (Z.mod_pos_bound (ch - h) 2 ltac:(lia)) as Hym.
    repeat split; try assumption; try reflexivity; lia.
Qed.

End Onload.

Lemma onload_draws_on_canvas_witness :
  exists canvasW canvasH,
    clamp_dimension (num_div (num_of_Z 1025) two) = num_of_Z canvasW /\
    clamp_dimension (S754_infinity false) = num_of_Z canvasH /\
    1 <= canvasW <= 8000 /\ 1 <= canvasH <= 8000.
Proof.
  destruct (onload_draws_on_canvas (num_div (num_of_Z 1025) two)
              (S754_infinity false) 1000 500 contain)
    as (cw & ch & _ & _ & _ & _ & Hw & Hh & Hrw & Hrh & _).
  - vm_compute. discriminate.
  - discriminate.
  - change (2 ^ 32) with 4294967296. lia.
  - change (2 ^ 32) with 4294967296. lia.
  - exists cw, ch. repeat split; try assumption; lia.
Defined.

(** * [handleGenerate]: the request and the download name *)

Section GenerateProperties.

Import String Ascii.
Local Open Scope string_scope.

(** X11. After any session, [handleGenerate] with a file selected gets past
    both checks and sends the request: the alert about a missing output cannot
    be reached through the form.  The request carries the outputs of the
    state, in order, and the [fit] field exactly when the aspect ratio is
    kept. *)
Theorem generate_after_session (evs : list event) (s : AppState)
    (file : File) (token : string) (maintainAspect : bool) (fit : FitMode) :
  run evs initial_state = Some s ->
  exists request,
    handleGenerate_request (Some file) token maintainAspect fit s
      = Fetch request /\
    form_outputs request = outputs s /\
    form_outputs request <> [] /\
    form_logo request = file /\
    form_fit request = (if maintainAspect then Some fit else None).
Proof.
  intros Hrun.
  destruct (run_keeps_preview_valid evs _ _ Hrun initial_state_valid)
    as [Hne _].
  unfold handleGenerate_request.
  destruct (outputs s) as [|o l] eqn:Hout; [congruence|].
  cbn [List.length Nat.eqb].
  eexists. split; [reflexivity|]. cbn [form_outputs form_logo form_fit].
  repeat split. discriminate.
Qed.

Lemma generate_after_session_witness :
  exists request,
    handleGenerate_request (Some (mkFile "logo.png")) EmptyString true cover
      (addOutput initial_state) = Fetch request /\
    form_outputs request = [default_output; default_output].
Proof.
  destruct (generate_after_session [ClickAdd] (addOutput initial_state)
              (mkFile "logo.png") EmptyString true cover eq_refl)
    as (request & Hreq & Hout & _).
  exists request. split; [exact Hreq | exact Hout].
Defined.

Lemma remove_quotes_no_quote (s : string) :
  has_char "034" (remove_quotes s) = false.
Proof.
  induction s as [|c s IH]; [reflexivity|]. simpl.
  destruct (Ascii.eqb c "034") eqn:Hc; [exact IH|].
  simpl. rewrite Hc, IH. reflexivity.
Qed.

Lemma remove_quotes_keeps_absent (c : ascii) (s : string) :
  has_char c s = false -> has_char c (remove_quotes s) = false.
Proof.
  induction s as [|c' s IH]; [reflexivity|]. simpl. intros H.
  apply orb_false_elim in H. destruct H as [H1 H2].
  destruct (Ascii.eqb c' "034"); [apply IH; exact H2|].
  simpl. rewrite H1, (IH H2). reflexivity.
Qed.

Lemma until_semicolon_no_semicolon (s : string) :
  has_char ";" (until_semicolon s) = false.
Proof.
  induction s as [|c s IH]; [reflexivity|]. simpl.
  destruct (Ascii.eqb c ";") eqn:Hc; [reflexivity|].
  simpl. rewrite Hc, IH. reflexivity.
Qed.

Lemma exec_filename_captured (disp captured : string) :
  exec_filename disp = Some captured ->
  captured <> EmptyString /\ has_char ";" captured = false.
Proof.
  induction disp as [|c disp IH]; simpl exec_filename.
  - unfold filename_here. simpl. discriminate.
  - destruct (filename_here (String c disp)) as [cap|] eqn:Hh.
    + intros H. inversion H. subst cap. clear H.
      unfold filename_here in Hh.
      destruct (match_prefix_ci "filename=" (String c disp)) as [rest|];
        [|discriminate].
      pose proof (until_semicolon_no_semicolon rest) as Hns.
      destruct (until_semicolon rest) eqn:Hu; [discriminate|].
      inversion Hh. subst captured. split; [discriminate|exact Hns].
    + exact IH.
Qed.

(** X12. A download name taken from the [Content-Disposition] header never
    contains a double quote or a semicolon, and it comes from a non-empty
    match: an empty name arises only when the header gives nothing but
    quotes. *)
Theorem header_name_clean (disp name : string) :
  header_name disp = Some name ->
  has_char "034" name = false /\ has_char ";" name = false /\
  exists captured,
    exec_filename disp = Some captured /\ captured <> EmptyString /\
    name = remove_quotes captured.
Proof.
  unfold header_name. intros H.
  destruct (exec_filename disp) as [captured|] eqn:He; [|discriminate].
  simpl in H. inversion H. subst name.
  destruct (exec_filename_captured _ _ He) as [Hne Hns].
  split; [apply remove_quotes_no_quote|].
  split; [apply remove_quotes_keeps_absent; exact Hns|].
  exists captured. auto.
Qed.

Lemma header_name_clean_witness :
  header_name "attachment; filename=logo_64x64.png; size=12"
    = Some "logo_64x64.png" /\
  has_char "034" "logo_64x64.png" = false /\
  has_char ";" "logo_64x64.png" = false.
Proof.
  split; [reflexivity|].
  destruct (header_name_clean
              "attachment; filename=logo_64x64.png; size=12"
              "logo_64x64.png" eq_refl) as (H1 & H2 & _).
  split; assumption.
Defined.

Lemma append_empty (s : string) : s ++ EmptyString = s.
Proof. induction s as [|c s IH]; simpl; congruence. Qed.

Lemma append_append (a b c : string) : (a ++ b) ++ c = a ++ (b ++ c).
Proof. induction a as [|x a IH]; simpl; congruence. Qed.

Lemma remove_quotes_append (a b : string) :
  remove_quotes (a ++ b) = remove_quotes a ++ remove_quotes b.
Proof.
  induction a as [|c a IH]; [reflexivity|]. simpl.
  destruct (Ascii.eqb c "034"); simpl; congruence.
Qed.

Lemma remove_quotes_unquoted (s : string) :
  has_char "034" s = false -> remove_quotes s = s.
Proof.
  induction s as [|c s IH]; [reflexivity|]. simpl. intros H.
  apply orb_false_elim in H. destruct H as [H1 H2].
  rewrite H1, (IH H2). reflexivity.
Qed.

Lemma until_semicolon_append (a rest : string) :
  has_char ";" a = false ->
  rest = EmptyString \/ (exists r, rest = String ";" r) ->
  until_semicolon (a ++ rest) = a.
Proof.
  intros Ha Hrest. induction a as [|c a IH].
  - simpl. destruct Hrest as [->|[r ->]]; reflexivity.
  - simpl in Ha. apply orb_false_elim in Ha. destruct Ha as [H1 H2].
    simpl. rewrite H1, (IH H2). reflexivity.
Qed.

Lemma has_char_append (c : ascii) (a b : string) :
  has_char c (a ++ b) = has_char c a || has_char c b.
Proof.
  induction a as [|x a IH]; [reflexivity|]. simpl.
  rewrite IH, orb_assoc. reflexivity.
Qed.

Lemma get_has_char (n : nat) (s : string) (c : ascii) :
  get n s = Some c -> has_char c s = true.
Proof.
  revert n. induction s as [|x s IH]; intros n; [destruct n; discriminate|].
  destruct n as [|n]; simpl.
  - intros H. inversion H. rewrite Ascii.eqb_refl. reflexivity.
  - intros H. rewrite (IH _ H). apply orb_true_r.
Qed.

Lemma lower_equals_sign (c : ascii) : lower c = "="%char -> c = "="%char.
Proof.
  destruct c as [[] [] [] [] [] [] [] []]; vm_compute; intros H;
    solve [reflexivity | discriminate].
Qed.

(** A match of the pattern puts, at each of its positions, a code unit that
    folds to the pattern's. *)
Lemma match_prefix_ci_get (pat u r : string) (n : nat) (p : ascii) :
  match_prefix_ci pat u = Some r -> get n pat = Some p ->
  exists c, get n u = Some c /\ lower c = lower p.
Proof.
  revert u n. induction pat as [|q pat IH]; intros u n Hm Hg.
  - destruct n; discriminate.
  - destruct u as [|c u]; [discriminate|]. cbn [match_prefix_ci] in Hm.
    destruct (Ascii.eqb (lower c) (lower q)) eqn:Hc; [|discriminate].
    destruct n as [|n].
    + cbn [get] in Hg |- *. inversion Hg. subst q. exists c.
      split; [reflexivity|]. apply Ascii.eqb_eq. exact Hc.
    + cbn [get] in Hg |- *. exact (IH u n Hm Hg).
Qed.

Lemma match_prefix_ci_itself (t : string) :
  match_prefix_ci "filename=" ("filename=" ++ t) = Some t.
Proof. reflexivity. Qed.

(** The pattern cannot match where its [=] would fall before the key. *)
Lemma filename_here_before (c : ascii) (pre t : string) :
  has_char "=" (String c pre) = false ->
  filename_here (String c pre ++ "filename=" ++ t) = None.
Proof.
  intros Hno. unfold filename_here.
  destruct (match_prefix_ci "filename=" (String c pre ++ "filename=" ++ t))
    as [r|] eqn:Hm; [exfalso|reflexivity].
  destruct (match_prefix_ci_get _ _ _ 8 "="%char Hm eq_refl) as (x & Hx & Hl).
  apply lower_equals_sign in Hl. subst x.
  destruct (Nat.lt_ge_cases 8 (length (String c pre))) as [Hlt|Hge].
  - rewrite <- (append_correct1 _ ("filename=" ++ t) 8 Hlt) in Hx.
    apply get_has_char in Hx. congruence.
  - remember (String c pre) as a eqn:Ha.
    assert (Hlen : (1 <= length a <= 8)%nat).
    { split; [subst a; simpl; lia|exact Hge]. }
    clear Ha Hno Hm.
    replace 8%nat with ((8 - length a) + length a)%nat in Hx by lia.
    rewrite <- append_correct2 in Hx.
    assert (Hcase : (8 - length a < 8)%nat) by lia.
    revert Hx Hcase. generalize (8 - length a)%nat. clear.
    intros j Hx Hcase.
    do 8 (destruct j as [|j]; [discriminate|]).
    lia.
Qed.

Lemma exec_filename_here (u captured : string) :
  filename_here u = Some captured -> exec_filename u = Some captured.
Proof.
  intros H. destruct u; cbn [exec_filename]; rewrite H; reflexivity.
Qed.

Lemma exec_filename_after (pre name rest : string) :
  has_char "=" pre = false ->
  name <> EmptyString ->
  has_char ";" name = false ->
  rest = EmptyString \/ (exists r, rest = String ";" r) ->
  exec_filename (pre ++ "filename=" ++ name ++ rest) = Some name.
Proof.
  intros Hpre Hne Hname Hrest. induction pre as [|c pre IH].
  - change (exec_filename ("filename=" ++ name ++ rest) = Some name).
    apply exec_filename_here. unfold filename_here.
    rewrite match_prefix_ci_itself.
    rewrite (until_semicolon_append _ _ Hname Hrest).
    destruct name; [congruence|reflexivity].
  - change (String c pre ++ "filename=" ++ name ++ rest)
      with (String c (pre ++ "filename=" ++ name ++ rest)).
    cbn [exec_filename].
    change (String c (pre ++ "filename=" ++ name ++ rest))
      with (String c pre ++ "filename=" ++ name ++ rest).
    rewrite (filename_here_before _ _ _ Hpre).
    apply IH. simpl in Hpre. apply orb_false_elim in Hpre. tauto.
Qed.

(** X13. A name the server sends in the usual form is the download name: for a
    header made of a part without [=], then the key, then the name, bare or
    between double quotes, and then nothing or a further parameter after a
    semicolon, [header_name] gives back exactly the name. *)
Theorem header_name_round_trip (pre name rest : string) :
  has_char "=" pre = false ->
  name <> EmptyString ->
  has_char ";" name = false ->
  has_char "034" name = false ->
  rest = EmptyString \/ (exists r, rest = String ";" r) ->
  header_name (pre ++ "filename=" ++ name ++ rest) = Some name /\
  header_name
    (pre ++ "filename=" ++ String "034" (name ++ String "034" rest))
    = Some name.
Proof.
  intros Hpre Hne Hsemi Hquote Hrest. unfold header_name. split.
  - rewrite (exec_filename_after _ _ _ Hpre Hne Hsemi Hrest). simpl.
    rewrite (remove_quotes_unquoted _ Hquote). reflexivity.
  - set (quoted := String "034" (name ++ String "034" EmptyString)).
    assert (Heq : String "034" (name ++ String "034" rest) = quoted ++ rest).
    { unfold quoted. cbn [append]. rewrite append_append. reflexivity. }
    rewrite Heq.
    rewrite (exec_filename_after pre quoted rest Hpre);
      [|discriminate| |exact Hrest].
    + simpl. unfold quoted. cbn [remove_quotes].
      change (Ascii.eqb "034" "034") with true. cbn iota.
      rewrite remove_quotes_append, (remove_quotes_unquoted _ Hquote).
      simpl. rewrite append_empty. reflexivity.
    + unfold quoted. cbn [has_char]. rewrite has_char_append, Hsemi.
      reflexivity.
Qed.

Lemma header_name_round_trip_witness :
  header_name "attachment; filename=logos.zip" = Some "logos.zip" /\
  header_name
    ("attachment; " ++ "filename="
       ++ String "034" ("logos.zip" ++ String "034" EmptyString))
    = Some "logos.zip".
Proof.
  apply (header_name_round_trip "attachment; " "logos.zip" EmptyString).
  - reflexivity.
  - discriminate.
  - reflexivity.
  - reflexivity.
  - left. reflexivity.
Defined.

Lemma strip_extension_last (base ext : string) :
  ext <> EmptyString -> has_dot ext = false ->
  strip_extension (base ++ String "." ext) = base.
Proof.
  intros Hne Hdot. induction base as [|c base IH].
  - cbn [append strip_extension]. rewrite Hdot.
    destruct ext; [congruence|reflexivity].
  - cbn [append strip_extension].
    assert (Hd : has_dot (base ++ String "." ext) = true).
    { clear. induction base as [|x base IH]; [reflexivity|].
      simpl. rewrite IH. apply orb_true_r. }
    rewrite Hd, andb_false_r, IH. reflexivity.
Qed.

Lemma strip_extension_no_dot (s : string) :
  has_dot s = false -> strip_extension s = s.
Proof.
  induction s as [|c s IH]; [reflexivity|]. simpl. intros H.
  apply orb_false_elim in H. destruct H as [H1 H2].
  rewrite H1, (IH H2). reflexivity.
Qed.

(** X14. Stripping the extension removes the last dot and what follows it and
    nothing else, whatever dots the part before it holds; a name without a
    dot is left as it is, and so is a name that ends in a dot. *)
Theorem strip_extension_round_trip (base ext plain : string) :
  ext <> EmptyString -> has_dot ext = false -> has_dot plain = false ->
  strip_extension (base ++ String "." ext) = base /\
  strip_extension plain = plain /\
  strip_extension (base ++ ".") = base ++ ".".
Proof.
  intros Hne Hdot Hplain.
  split; [exact (strip_extension_last base ext Hne Hdot)|].
  split; [exact (strip_extension_no_dot plain Hplain)|].
  clear. induction base as [|c base IH]; [reflexivity|].
  cbn [append strip_extension].
  destruct (Ascii.eqb c "." && negb (is_empty (base ++ "."))
            && negb (has_dot (base ++ "."))) eqn:Hc.
  - exfalso.
    assert (Hd : has_dot (base ++ ".") = true).
    { clear. induction base as [|x base IH]; [reflexivity|].
      simpl. rewrite IH. apply orb_true_r. }
    rewrite Hd, andb_false_r in Hc. discriminate.
  - rewrite IH. reflexivity.
Qed.

Lemma strip_extension_round_trip_witness :
  strip_extension "my.logo.final.png" = "my.logo.final" /\
  strip_extension "logo" = "logo" /\
  strip_extension "my.logo.final." = "my.logo.final.".
Proof.
  apply (strip_extension_round_trip "my.logo.final" "png" "logo").
  - discriminate.
  - reflexivity.
  - reflexivity.
Defined.

Variable Number_toString : number -> string.

(** X15. After any session the download name is defined: reading
    [outputs[0]] cannot throw.  A name in the header wins whatever the content
    type; without one a zip is called [resized.zip], and a single image gets
    the uploaded name up to its last dot, followed by the size and the format
    of the first output. *)
Theorem download_name_after_session (evs : list event) (s : AppState)
    (contentType disp : string) (file : File) :
  run evs initial_state = Some s ->
  exists name first rest,
    download_name Number_toString contentType disp file (outputs s)
      = Some name /\
    outputs s = first :: rest /\
    (forall sent, header_name disp = Some sent -> name = sent) /\
    (header_name disp = None ->
     includes contentType "application/zip" = true ->
     name = "resized.zip") /\
    (header_name disp = None ->
     includes contentType "application/zip" = false ->
     forall base ext,
       file_name file = base ++ String "." ext ->
       ext <> EmptyString -> has_dot ext = false ->
       name = base ++ "_" ++ Number_toString (width first) ++ "x"
                ++ Number_toString (height first) ++ "."
                ++ format_name (format first)).
Proof.
  intros Hrun.
  destruct (run_keeps_preview_valid evs _ _ Hrun initial_state_valid)
    as [Hne _].
  destruct (outputs s) as [|first rest] eqn:Hout; [congruence|].
  unfold download_name.
  destruct (header_name disp) as [sent|] eqn:Hh.
  - exists sent, first, rest.
    split; [destruct (includes contentType _); reflexivity|].
    split; [reflexivity|].
    split; [intros x Hx; congruence|].
    split; discriminate.
  - destruct (includes contentType "application/zip") eqn:Hzip.
    + exists "resized.zip", first, rest.
      repeat split; try discriminate.
    + eexists _, first, rest.
      split; [reflexivity|]. split; [reflexivity|].
      split; [discriminate|]. split; [discriminate|].
      intros _ _ base ext Hname Hext Hdot. rewrite Hname.
      assert (Hnonempty : forall t : string,
                 match base ++ String "." ext with
                 | EmptyString => t
                 | String a b => String a b
                 end = base ++ String "." ext).
      { intros t. destruct base; reflexivity. }
      set (picked := match base ++ String "." ext with
                     | EmptyString => "image"
                     | String a b => String a b
                     end).
      assert (Hp : picked = base ++ String "." ext)
        by (apply Hnonempty).
      rewrite Hp, (strip_extension_last base ext Hext Hdot). reflexivity.
Qed.

Lemma append_not_empty (a b : string) :
  b <> EmptyString -> a ++ b <> EmptyString.
Proof. intros Hb. destruct a; [exact Hb|discriminate]. Qed.

(** X16. The single-output version never gives the download an empty name,
    whatever the response headers, the uploaded name and the way numbers
    print: a header name that is empty once its quotes are removed is
    replaced by a made-up one.  A header name that is not empty is used as it
    is. *)
Theorem downloadName_never_empty (contentType disp : string) (file : File)
    (width height : number) (format : OutputFormat) :
  downloadName Number_toString contentType disp file width height format
    <> EmptyString /\
  (forall c name, header_name disp = Some (String c name) ->
     downloadName Number_toString contentType disp file width height format
       = String c name).
Proof.
  split.
  - unfold downloadName.
    destruct (header_name disp) as [[|c name]|]; try discriminate;
      destruct (includes contentType "application/zip");
      try (apply append_not_empty; discriminate);
      destruct (includes contentType "image/");
      apply append_not_empty; discriminate.
  - intros c name Hh. unfold downloadName. rewrite Hh. reflexivity.
Qed.

End GenerateProperties.

Section DownloadNameExample.

Import String Ascii.
Local Open Scope string_scope.

Lemma download_name_after_session_witness :
  exists name,
    download_name (fun _ => "512") "image/png" EmptyString
      (mkFile "logo.png") [default_output; default_output]
    = Some name.
Proof.
  destruct (download_name_after_session (fun _ => "512") [ClickAdd]
              (addOutput initial_state) "image/png" EmptyString
              (mkFile "logo.png") eq_refl)
    as (name & first & rest & Hname & _).
  exists name. exact Hname.
Defined.

End DownloadNameExample.
